(** * The transaction log interpreter of the explorer

    A shallow embedding of [src/app/utils/program-logs.ts]
    ([parseProgramLogs], its inner [prefixBuilder] and [isEqualBytes]),
    followed by the properties of the interpreter.

    Conventions of the embedding:
    - a JavaScript string is the list of its UTF-16 code units;
    - the three regular-expression literals of the source are kept as
      data and run by a backtracking matcher;
    - the mutable locals of [parseProgramLogs] ([depth], [prettyLogs],
      [currentProgram]) and the console form an explicit state that is
      threaded through a state-and-exception monad;
    - reading a property of [undefined] raises [TypeError];
    - [depth] and array indices are integers; [computeUnits] is an
      integer as long as it is exactly representable, see [Number]. *)

From Stdlib Require Import String Ascii DecimalString.
From Stdlib Require Import ZArith NArith Lia Bool List.
Import ListNotations.

Local Open Scope Z_scope.

Set Implicit Arguments.

(* ================================================================== *)
(** ** JavaScript strings *)
(* ================================================================== *)

Module JsString.

(** A string is a sequence of 16-bit code units. *)
Definition jsstring := list N.

(** ASCII literals of the source text. *)
Definition lit (s : string) : jsstring :=
  map N_of_ascii (list_ascii_of_string s).
Arguments lit s%_string.

Fixpoint eqb (a b : jsstring) : bool :=
  match a, b with
  | [], [] => true
  | x :: a', y :: b' => N.eqb x y && eqb a' b'
  | _, _ => false
  end.

(** [s.startsWith(p)] *)
Fixpoint startsWith (s p : jsstring) {struct p} : bool :=
  match p with
  | [] => true
  | y :: p' =>
      match s with
      | [] => false
      | x :: s' => N.eqb x y && startsWith s' p'
      end
  end.

(** [s.includes(p)] *)
Fixpoint includes (s p : jsstring) : bool :=
  startsWith s p ||
  match s with
  | [] => false
  | _ :: s' => includes s' p
  end.

(** [s.indexOf(p)]: the first position where [p] occurs, or [-1]. *)
Fixpoint indexOf (s p : jsstring) : Z :=
  if startsWith s p then 0
  else match s with
       | [] => -1
       | _ :: s' => let i := indexOf s' p in
                    if i <? 0 then -1 else i + 1
       end.

(** [s.slice(start)], with a negative [start] counted from the end. *)
Definition slice (s : jsstring) (start : Z) : jsstring :=
  if start <? 0
  then skipn (Z.to_nat (Z.max (Z.of_nat (length s) + start) 0)) s
  else skipn (Z.to_nat start) s.

(** [s.substring(start)], a negative [start] is taken as 0. *)
Definition substring (s : jsstring) (start : Z) : jsstring :=
  skipn (Z.to_nat (Z.max start 0)) s.

(** [s.charAt(0)] *)
Definition charAt0 (s : jsstring) : jsstring :=
  match s with
  | [] => []
  | c :: _ => [c]
  end.

(** [s.toUpperCase()] on the letters a-z; the one call of the source
    applies it to the first character of a line that starts with
    "failed", that is, to "f". *)
Definition toUpperCase (s : jsstring) : jsstring :=
  map (fun c => if (97 <=? c)%N && (c <=? 122)%N then (c - 32)%N else c) s.

(** [a.join(sep)] *)
Fixpoint join (sep : jsstring) (a : list jsstring) : jsstring :=
  match a with
  | [] => []
  | [x] => x
  | x :: a' => x ++ sep ++ join sep a'
  end.

(** [String(z)] for an integral number. *)
Definition ofZ (z : Z) : jsstring :=
  lit (NilZero.string_of_int (Z.to_int z)).

(** Character classes of the regular expressions. *)
Definition isDigit (c : N) : bool := ((48 <=? c) && (c <=? 57))%N.

Definition isWord (c : N) : bool :=
  (isDigit c
   || ((65 <=? c) && (c <=? 90))
   || ((97 <=? c) && (c <=? 122))
   || (c =? 95))%N.

(** [.] matches every code unit but the four line terminators
    LF, CR, U+2028 and U+2029. *)
Definition isLineTerminator (c : N) : bool :=
  ((c =? 10) || (c =? 13) || (c =? 8232) || (c =? 8233))%N.

Definition isDot (c : N) : bool := negb (isLineTerminator c).

Fixpoint takeWhile (p : N -> bool) (s : jsstring) : jsstring :=
  match s with
  | [] => []
  | c :: s' => if p c then c :: takeWhile p s' else []
  end.

Fixpoint dropWhile (p : N -> bool) (s : jsstring) : jsstring :=
  match s with
  | [] => []
  | c :: s' => if p c then dropWhile p s' else s
  end.

End JsString.
Import JsString.

(* ================================================================== *)
(** ** Regular expressions *)
(* ================================================================== *)

Module Regex.

(** The fragment the source uses: literal text, one character of a
    class, a greedy starred class, capturing groups, sequencing. *)
Inductive regex :=
| Chars (s : jsstring)
| Class (p : N -> bool)
| Star (p : N -> bool)
| Group (r : regex)
| Seq (r1 r2 : regex).

(** What one successful match reports: the matched text and the
    captures, in the order of the groups. *)
Record Match := { matched : jsstring; groups : list jsstring }.

(** [p*] then [k], longest run first, shorter runs on failure. *)
Fixpoint star {A} (p : N -> bool) (s : jsstring)
    (k : jsstring -> option A) : option A :=
  match s with
  | c :: s' =>
      if p c
      then match star p s' k with
           | Some r => Some r
           | None => k s
           end
      else k s
  | [] => k s
  end.

(** Backtracking matcher anchored at the head of [s]; the
    continuation receives the rest of the input and the captures. *)
Fixpoint rmatch {A} (r : regex) (s : jsstring) (caps : list jsstring)
    (k : jsstring -> list jsstring -> option A) : option A :=
  match r with
  | Chars l => if startsWith s l then k (skipn (length l) s) caps else None
  | Class p =>
      match s with
      | c :: s' => if p c then k s' caps else None
      | [] => None
      end
  | Star p => star p s (fun rest => k rest caps)
  | Group r1 =>
      rmatch r1 s caps
        (fun rest caps' =>
           k rest (caps' ++ [firstn (length s - length rest) s]))
  | Seq r1 r2 =>
      rmatch r1 s caps (fun rest caps' => rmatch r2 rest caps' k)
  end.

(** One attempt at the current position. *)
Definition exec (r : regex) (s : jsstring) : option Match :=
  rmatch r s []
    (fun rest caps =>
       Some {| matched := firstn (length s - length rest) s;
               groups := caps |}).

(** The left-to-right scan of a global ([/g]) expression: the pieces
    of the subject, each either a character outside every match or a
    match.  [skip] counts the characters of the last match that are
    still to be passed over; after an empty match the scan moves on
    by one character. *)
Inductive piece :=
| Keep (c : N)
| Hit (m : Match).

Fixpoint scan (r : regex) (s : jsstring) (skip : nat) : list piece :=
  match s with
  | [] =>
      match skip with
      | O => match exec r [] with
             | Some m => [Hit m]
             | None => []
             end
      | S _ => []
      end
  | c :: s' =>
      match skip with
      | S n => scan r s' n
      | O =>
          match exec r s with
          | Some m =>
              match length (matched m) with
              | O => Hit m :: Keep c :: scan r s' 0
              | S n => Hit m :: scan r s' n
              end
          | None => Keep c :: scan r s' 0
          end
      end
  end.

Fixpoint hits (ps : list piece) : list Match :=
  match ps with
  | [] => []
  | Keep _ :: ps' => hits ps'
  | Hit m :: ps' => m :: hits ps'
  end.

(** [Array.from(s.matchAll(r))] *)
Definition matchAll (r : regex) (s : jsstring) : list Match :=
  hits (scan r s 0).

(** The n-th capture ([p1] is [group 1]). *)
Definition group (n : nat) (m : Match) : jsstring :=
  nth (n - 1) (groups m) [].

(** The texts an expression denotes, with their captures: what a
    successful run of the matcher has consumed. *)
Inductive denotes : regex -> jsstring -> list jsstring -> Prop :=
| D_chars l : denotes (Chars l) l []
| D_class (p : N -> bool) c : p c = true -> denotes (Class p) [c] []
| D_star (p : N -> bool) x : forallb p x = true -> denotes (Star p) x []
| D_group r x caps : denotes r x caps -> denotes (Group r) x (caps ++ [x])
| D_seq r1 r2 x1 x2 c1 c2 :
    denotes r1 x1 c1 -> denotes r2 x2 c2 ->
    denotes (Seq r1 r2) (x1 ++ x2) (c1 ++ c2).

End Regex.
Import Regex.

(** The global expression of line 50: the text [Program log: ], then
    group 1, a run of any characters but line terminators. *)
Definition reProgramLog : regex :=
  Seq (Chars (lit "Program log: ")) (Group (Star isDot)).

(** The global expression of line 62: the text [Program ], group 1 a
    run of word characters, the text [ invoke ] and an opening bracket,
    group 2 exactly one digit, a closing bracket. *)
Definition reInvoke : regex :=
  Seq (Chars (lit "Program "))
      (Seq (Group (Star isWord))
           (Seq (Chars (lit " invoke ["))
                (Seq (Group (Class isDigit)) (Chars (lit "]"))))).

(** The global expression of line 127: the text [Program ], a run of
    word characters, the text [ consumed ], group 1 a run of digits
    (possibly empty), one blank, group 2 a run of any characters but
    line terminators. *)
Definition reConsumed : regex :=
  Seq (Chars (lit "Program "))
      (Seq (Star isWord)
           (Seq (Chars (lit " consumed "))
                (Seq (Group (Star isDigit))
                     (Seq (Chars (lit " ")) (Group (Star isDot)))))).

(* ================================================================== *)
(** ** Numbers *)
(* ================================================================== *)

Module Number.

(** The values [computeUnits] can take.  Every addend comes from
    [Number.parseInt] on a run of digits, so no negative value and no
    fraction arises.  A double represents every integer up to
    [MAX_SAFE_INTEGER] exactly; whatever lies beyond (a rounded
    integer or [Infinity]) is kept as [Huge] and not tracked
    further. *)
Inductive number :=
| NaN
| Int (z : Z)
| Huge.

Definition MAX_SAFE_INTEGER : Z := 9007199254740991.

Definition ofInteger (z : Z) : number :=
  if z <=? MAX_SAFE_INTEGER then Int z else Huge.

(** [a + b] on the values above. *)
Definition add (a b : number) : number :=
  match a, b with
  | NaN, _ | _, NaN => NaN
  | Int x, Int y => ofInteger (x + y)
  | _, _ => Huge
  end.

Definition digitsValue (ds : jsstring) : Z :=
  fold_left (fun acc d => 10 * acc + (Z.of_N d - 48)) ds 0.

(** [Number.parseInt(s)] for the strings that reach it, runs of
    decimal digits: the empty run gives [NaN].  (Blanks, a sign or a
    hexadecimal prefix cannot occur in a capture of digits.) *)
Definition parseInt (s : jsstring) : number :=
  match takeWhile isDigit s with
  | [] => NaN
  | ds => ofInteger (digitsValue ds)
  end.

End Number.
Import Number.

(* ================================================================== *)
(** ** Data model *)
(* ================================================================== *)

Inductive Style := muted | info | success | warning.

Record LogMessage := {
  text : jsstring;
  prefix : jsstring;
  style : Style
}.

Record InstructionLogs := {
  invokedProgram : option jsstring;
  logs : list LogMessage;
  computeUnits : number;
  truncated : bool;
  failed : bool
}.

(** What [getTransactionInstructionError] returns when the error names
    an instruction. *)
Record ProgramError := {
  index : Z;
  message : jsstring
}.

(** Field updates of a trace (the object is mutated in place). *)
Definition pushLog (m : LogMessage) (t : InstructionLogs) : InstructionLogs :=
  {| invokedProgram := invokedProgram t; logs := logs t ++ [m];
     computeUnits := computeUnits t; truncated := truncated t;
     failed := failed t |}.

Definition setTruncated (t : InstructionLogs) : InstructionLogs :=
  {| invokedProgram := invokedProgram t; logs := logs t;
     computeUnits := computeUnits t; truncated := true;
     failed := failed t |}.

Definition setFailed (t : InstructionLogs) : InstructionLogs :=
  {| invokedProgram := invokedProgram t; logs := logs t;
     computeUnits := computeUnits t; truncated := truncated t;
     failed := true |}.

Definition addUnits (n : number) (t : InstructionLogs) : InstructionLogs :=
  {| invokedProgram := invokedProgram t; logs := logs t;
     computeUnits := add (computeUnits t) n; truncated := truncated t;
     failed := failed t |}.

(** The object literal pushed when a trace is opened. *)
Definition newTrace (program : option jsstring) (isFailed : bool) : InstructionLogs :=
  {| invokedProgram := program; logs := []; computeUnits := Int 0;
     truncated := false; failed := isFailed |}.

(* ================================================================== *)
(** ** Interpreter state and its monad *)
(* ================================================================== *)

(** The locals of [parseProgramLogs] and the console.  [depth] starts
    at 0 and moves by one per line, so it is an integer; nothing keeps
    it from going below 0. *)
Record Env := {
  depth : Z;
  prettyLogs : list InstructionLogs;
  currentProgram : list jsstring;
  console : list jsstring
}.

Definition initial : Env :=
  {| depth := 0; prettyLogs := []; currentProgram := []; console := [] |}.

Inductive exn :=
| TypeError      (* a property of [undefined] was read or written *)
| DecodeError.   (* the record deserializer of the SDK threw *)

Inductive outcome (A : Type) :=
| Returns (a : A)
| Throws (e : exn).
Arguments Throws {A} e.

Definition M (A : Type) : Type := Env -> outcome (A * Env).

Definition ret {A} (a : A) : M A := fun e => Returns (a, e).

Definition bind {A B} (m : M A) (f : A -> M B) : M B :=
  fun e => match m e with
           | Returns (a, e') => f a e'
           | Throws x => Throws x
           end.

Definition throw {A} (x : exn) : M A := fun _ => Throws x.

Declare Scope js_scope.
Delimit Scope js_scope with js.
Notation "x <- m ;; k" := (bind m (fun x => k))
  (at level 61, m at next level, right associativity) : js_scope.
Notation "m ;; k" := (bind m (fun _ => k))
  (at level 61, right associativity) : js_scope.
Local Open Scope js_scope.

Definition getDepth : M Z := fun e => Returns (depth e, e).

Definition setDepth (d : Z) : M unit :=
  fun e => Returns (tt, {| depth := d; prettyLogs := prettyLogs e;
                           currentProgram := currentProgram e;
                           console := console e |}).

Definition getPrettyLogs : M (list InstructionLogs) :=
  fun e => Returns (prettyLogs e, e).

Definition setPrettyLogs (l : list InstructionLogs) : M unit :=
  fun e => Returns (tt, {| depth := depth e; prettyLogs := l;
                           currentProgram := currentProgram e;
                           console := console e |}).

Definition getCurrentProgram : M (list jsstring) :=
  fun e => Returns (currentProgram e, e).

Definition setCurrentProgram (l : list jsstring) : M unit :=
  fun e => Returns (tt, {| depth := depth e; prettyLogs := prettyLogs e;
                           currentProgram := l;
                           console := console e |}).

(** [console.warn(msg)] *)
Definition warn (msg : jsstring) : M unit :=
  fun e => Returns (tt, {| depth := depth e; prettyLogs := prettyLogs e;
                           currentProgram := currentProgram e;
                           console := console e ++ [msg] |}).

(** [depth++] and [depth--] *)
Definition incDepth : M unit := d <- getDepth ;; setDepth (d + 1).
Definition decDepth : M unit := d <- getDepth ;; setDepth (d - 1).

(** [a[i]] for an integral index: [None] stands for [undefined]. *)
Definition at_ {A} (a : list A) (i : Z) : option A :=
  if i <? 0 then None else nth_error a (Z.to_nat i).

(** The array with its element at [i] replaced, when there is one. *)
Fixpoint updateNth {A} (f : A -> A) (a : list A) (n : nat) : option (list A) :=
  match a, n with
  | [], _ => None
  | x :: a', O => Some (f x :: a')
  | x :: a', S n' => option_map (cons x) (updateNth f a' n')
  end.

Definition updateAt {A} (f : A -> A) (a : list A) (i : Z) : option (list A) :=
  if i <? 0 then None else updateNth f a (Z.to_nat i).

(** Reading a field of [prettyLogs[i]]. *)
Definition traceAt (i : Z) : M InstructionLogs :=
  pl <- getPrettyLogs ;;
  match at_ pl i with
  | Some t => ret t
  | None => throw TypeError
  end.

(** Writing a field of [prettyLogs[i]]. *)
Definition modifyAt (i : Z) (f : InstructionLogs -> InstructionLogs) : M unit :=
  pl <- getPrettyLogs ;;
  match updateAt f pl i with
  | Some pl' => setPrettyLogs pl'
  | None => throw TypeError
  end.

(** The index [prettyLogs.length - 1]. *)
Definition lastIndex : M Z :=
  pl <- getPrettyLogs ;; ret (Z.of_nat (length pl) - 1).

Definition lastTrace : M InstructionLogs := i <- lastIndex ;; traceAt i.

Definition modifyLast (f : InstructionLogs -> InstructionLogs) : M unit :=
  i <- lastIndex ;; modifyAt i f.

(** [prettyLogs.push(t)] *)
Definition pushTrace (t : InstructionLogs) : M unit :=
  pl <- getPrettyLogs ;; setPrettyLogs (pl ++ [t]).

(** [currentProgram.push(a)] and [currentProgram.pop()] *)
Definition pushProgram (a : jsstring) : M unit :=
  cp <- getCurrentProgram ;; setCurrentProgram (cp ++ [a]).

Definition popProgram : M unit :=
  cp <- getCurrentProgram ;; setCurrentProgram (removelast cp).

(** [logs.forEach(f)] *)
Fixpoint forEach {A} (l : list A) (f : A -> M unit) : M unit :=
  match l with
  | [] => ret tt
  | x :: l' => f x ;; forEach l' f
  end.

(** [s.replace(r, f)] for a global expression and a callback: the
    callback runs once per match, in order, and may change the state. *)
Fixpoint replacePieces (ps : list piece) (f : Match -> M jsstring) : M jsstring :=
  match ps with
  | [] => ret []
  | Keep c :: ps' => out <- replacePieces ps' f ;; ret (c :: out)
  | Hit m :: ps' =>
      rep <- f m ;; out <- replacePieces ps' f ;; ret (rep ++ out)
  end.

Definition replace (r : regex) (s : jsstring) (f : Match -> M jsstring) : M jsstring :=
  replacePieces (scan r s 0) f.

(* ================================================================== *)
(** ** The interpreter *)
(* ================================================================== *)

(** The quotation mark, the grave accent, the line feed and the
    indent token of two no-break spaces. *)
Definition quote : jsstring := [34%N].
Definition backtick : jsstring := [96%N].
Definition newline : jsstring := [10%N].
Definition indentToken : jsstring := [160%N; 160%N].

(** The blank, as a code unit. *)
Definition space : N := 32%N.

(** [new Array(n).fill(x)] *)
Definition Array_fill {A} (n : nat) (x : A) : list A := repeat x n.

(** The inner function [prefixBuilder]; the indent level it receives is
    [depth] or the constant 1. *)
Definition prefixBuilder (indentLevel : Z) : M jsstring :=
  prefix <-
    (if indentLevel <=? 0
     then
       warn (lit "Tried to build a prefix for a program log at indent level "
               ++ backtick ++ JsString.ofZ indentLevel ++ backtick ++ lit ". "
               ++ lit "Logs should only ever be built at indent level 1 or higher.") ;;
       ret []
     else
       ret (join [] (Array_fill (Z.to_nat (indentLevel - 1)) indentToken))) ;;
  ret (prefix ++ lit "> ").

(** The idiom
    [prettyLogs[prettyLogs.length - 1].logs.push({prefix: prefixBuilder(depth), style, text})]:
    the receiver is evaluated before the argument. *)
Definition pushToLast (sty : Style) (txt : jsstring) : M unit :=
  _ <- lastTrace ;;
  d <- getDepth ;;
  pfx <- prefixBuilder d ;;
  modifyLast (pushLog {| text := txt; prefix := pfx; style := sty |}).

(** [isEqualBytes] *)
Fixpoint isEqualBytesLoop (bytes1 bytes2 : list N) : bool :=
  match bytes1, bytes2 with
  | b1 :: r1, b2 :: r2 => if negb (N.eqb b1 b2) then false else isEqualBytesLoop r1 r2
  | _, _ => true
  end.

Definition isEqualBytes (bytes1 bytes2 : list N) : bool :=
  if negb (Nat.eqb (length bytes1) (length bytes2)) then false
  else isEqualBytesLoop bytes1 bytes2.

Definition fillLogPrefix : list N := [58; 230; 242; 3; 75; 113; 4; 169]%N.

Definition manifestProgram : jsstring :=
  lit "MNFSTqtC93rEfYHB6hF82sKdZpUDFWkViLByLd1k1Ms".

(** [a[a.length - 1] == s] on an array of strings. *)
Definition topIs (a : list jsstring) (s : jsstring) : bool :=
  match at_ a (Z.of_nat (length a) - 1) with
  | Some x => JsString.eqb x s
  | None => false
  end.

Section Interpreter.

(** Collaborators that live outside [program-logs.ts]. *)
Variable Cluster : Type.
Variable TransactionError : Type.
(** [if (error)]: whether a non-null error value is truthy. *)
Variable isTruthy : TransactionError -> bool.
Variable getTransactionInstructionError : TransactionError -> option ProgramError.
Variable getProgramName : jsstring -> Cluster -> jsstring.
(** [Buffer.from(data, 'base64')] as a list of bytes. *)
Variable Buffer_from_base64 : jsstring -> list N.
(** [manifest.FillLog.deserialize] on the bytes after the
    discriminator, followed by the narrowing of the three quantities,
    the removal of the padding and [JSON.stringify(_.pretty(), null, 2)];
    [None] when the deserializer throws. *)
Variable FillLog_render : list N -> option jsstring.

Variable cluster : Cluster.

(** The branch of a line that starts with "Program log:". *)
Definition onProgramLog (log : jsstring) : M unit :=
  log' <- replace reProgramLog log
            (fun m => ret (lit "Program logged: " ++ quote ++ group 1 m ++ quote)) ;;
  pushToLast muted log'.

(** The branch of a line that starts with "Log truncated". *)
Definition onTruncated : M unit := modifyLast setTruncated.

(** The branch of a line with an invocation marker. *)
Definition onInvoke (matches : list Match) : M unit :=
  let programAddress := group 1 (hd {| matched := []; groups := [] |} matches) in
  pushProgram programAddress ;;
  let programName := getProgramName programAddress cluster in
  d <- getDepth ;;
  (if d =? 0
   then pushTrace (newTrace (Some programAddress) false)
   else pushToLast info (lit "Program invoked: " ++ programName)) ;;
  incDepth.

(** The branch of a line that includes "success". *)
Definition onSuccess : M unit :=
  popProgram ;;
  pushToLast success (lit "Program returned success") ;;
  decDepth.

(** The branch of a line that includes "failed". *)
Definition onFailed (log : jsstring) : M unit :=
  popProgram ;;
  modifyLast setFailed ;;
  let currText :=
    lit "Program returned error: " ++ quote
      ++ slice log (indexOf log (lit ": ") + 2) ++ quote in
  currText' <-
    (if startsWith log (lit "failed")
     then incDepth ;; ret (toUpperCase (charAt0 log) ++ slice log 1)
     else ret currText) ;;
  pushToLast warning currText' ;;
  decDepth.

(** The callback of the replacement of consumption markers. *)
Definition consumedCallback (m : Match) : M jsstring :=
  d <- getDepth ;;
  (if d =? 1
   then modifyLast (addUnits (parseInt (group 1 m)))
   else ret tt) ;;
  ret (lit "Program consumed: " ++ group 1 m ++ lit " " ++ group 2 m).

(** The decoding of a fill record of the manifest program. *)
Definition onProgramData (log : jsstring) : M unit :=
  let data := substring log (Z.of_nat (length (lit "Program data: "))) in
  let buffer := Buffer_from_base64 data in
  let bufferPrefix := firstn 8 buffer in
  if isEqualBytes fillLogPrefix bufferPrefix
  then match FillLog_render (skipn 8 buffer) with
       | Some rendered =>
           pushToLast muted (lit "MFX Fill Log: " ++ newline ++ rendered)
       | None => throw DecodeError
       end
  else ret tt.

(** The last branch: every other line. *)
Definition onOther (log : jsstring) : M unit :=
  d <- getDepth ;;
  (if d =? 0
   then pushTrace (newTrace None false) ;; incDepth
   else ret tt) ;;
  log' <- replace reConsumed log consumedCallback ;;
  pushToLast muted log' ;;
  cp <- getCurrentProgram ;;
  if includes log' (lit "Program data: ") && topIs cp manifestProgram
  then onProgramData log'
  else ret tt.

(** The body of the [forEach] callback. *)
Definition onLine (log : jsstring) : M unit :=
  if startsWith log (lit "Program log:") then onProgramLog log
  else if startsWith log (lit "Log truncated") then onTruncated
  else
    let matches := matchAll reInvoke log in
    if (0 <? length matches)%nat then onInvoke matches
    else if includes log (lit "success") then onSuccess
    else if includes log (lit "failed") then onFailed log
    else onOther log.

(** The two steps after the loop. *)
Definition addEmptyFailedTrace (prettyError : option ProgramError) : M unit :=
  pl <- getPrettyLogs ;;
  match prettyError with
  | Some _ =>
      if Nat.eqb (length pl) 0
      then pushTrace (newTrace None true)
      else ret tt
  | None => ret tt
  end.

Definition attributeError (prettyError : option ProgramError) : M unit :=
  pl <- getPrettyLogs ;;
  match prettyError with
  | Some pe =>
      if index pe =? Z.of_nat (length pl) - 1
      then
        failedIx <- traceAt (index pe) ;;
        if negb (failed failedIx)
        then
          modifyAt (index pe) setFailed ;;
          pfx <- prefixBuilder 1 ;;
          modifyAt (index pe)
            (pushLog {| text := lit "Runtime error: " ++ message pe;
                        prefix := pfx; style := warning |})
        else ret tt
      else ret tt
  | None => ret tt
  end.

Definition postPass (prettyError : option ProgramError) : M unit :=
  addEmptyFailedTrace prettyError ;;
  attributeError prettyError.

(** [let prettyError; if (error) { prettyError = ... }] *)
Definition prettyErrorOf (error : option TransactionError) : option ProgramError :=
  match error with
  | Some e => if isTruthy e then getTransactionInstructionError e else None
  | None => None
  end.

Definition parseProgramLogsM (logs : list jsstring)
    (error : option TransactionError) : M (list InstructionLogs) :=
  let prettyError := prettyErrorOf error in
  forEach logs onLine ;;
  postPass prettyError ;;
  getPrettyLogs.

(** [parseProgramLogs(logs, error, cluster)]: the returned array, or
    the exception that escapes. *)
Definition parseProgramLogs (logs : list jsstring)
    (error : option TransactionError) : outcome (list InstructionLogs) :=
  match parseProgramLogsM logs error initial with
  | Returns (r, _) => Returns r
  | Throws x => Throws x
  end.

(** The loop, observed: every line that is reached, with the state
    it is processed in. *)
Fixpoint history (logs : list jsstring) (e : Env) : list (Env * jsstring) :=
  match logs with
  | [] => []
  | log :: logs' =>
      (e, log) ::
      match onLine log e with
      | Returns (_, e') => history logs' e'
      | Throws _ => []
      end
  end.

End Interpreter.

(* ================================================================== *)
(** ** Vocabulary of the properties *)
(* ================================================================== *)

(** The prefix of a line at an indent level, and the diagnostic of a
    level below 1. *)
Definition prefixText (level : Z) : jsstring :=
  concat (repeat indentToken (Z.to_nat (level - 1))) ++ lit "> ".

Definition diagnostic (level : Z) : jsstring :=
  lit "Tried to build a prefix for a program log at indent level "
    ++ backtick ++ JsString.ofZ level ++ backtick
    ++ lit ". Logs should only ever be built at indent level 1 or higher.".

Definition diagnostics (level : Z) : list jsstring :=
  if level <=? 0 then [diagnostic level] else [].

(** The classification of a line by the tests of the loop body, in
    their order. *)
Definition isProgramLog (log : jsstring) : bool :=
  startsWith log (lit "Program log:").

Definition hasInvoke (log : jsstring) : bool :=
  (0 <? length (matchAll reInvoke log))%nat.

Definition hasConsumed (log : jsstring) : bool :=
  (0 <? length (matchAll reConsumed log))%nat.

(** A line that reaches the last branch, where consumption markers are
    rewritten. *)
Definition reachesLastBranch (log : jsstring) : bool :=
  negb (isProgramLog log)
  && negb (startsWith log (lit "Log truncated"))
  && negb (hasInvoke log)
  && negb (includes log (lit "success"))
  && negb (includes log (lit "failed")).

(** A line without any marker: it is neither a program log nor a
    truncation notice and has no invoke, consumed, success or failed
    marker. *)
Definition isPlain (log : jsstring) : bool :=
  reachesLastBranch log && negb (hasConsumed log).

(** The depth at which the last branch handles a line: a depth of 0 is
    raised to 1 when the trace is synthesized. *)
Definition depthInside (e : Env) : Z :=
  if depth e =? 0 then 1 else depth e.

(** The index of the trace a line of the last branch writes to. *)
Definition openTrace (e : Env) : nat :=
  if depth e =? 0 then length (prettyLogs e) else pred (length (prettyLogs e)).

(** The amounts of the consumption markers of one reached line that
    are processed at depth 1 for trace [i]. *)
Definition consumedFor (i : nat) (p : Env * jsstring) : list jsstring :=
  let (e, log) := p in
  if reachesLastBranch log && (depthInside e =? 1) && Nat.eqb (openTrace e) i
  then map (group 1) (matchAll reConsumed log)
  else [].

(** The sum of amounts, added one after the other. *)
Definition sumUnits (start : number) (amounts : list jsstring) : number :=
  fold_left (fun acc n => add acc (parseInt n)) amounts start.

(** The number a run of decimal digits denotes, by the weight of each
    digit. *)
Fixpoint decimalValue (ds : jsstring) : Z :=
  match ds with
  | [] => 0
  | d :: ds' => (Z.of_N d - 48) * 10 ^ Z.of_nat (length ds') + decimalValue ds'
  end.

(** The sum of the numbers that amounts denote, as an integer. *)
Definition total (amounts : list jsstring) : Z :=
  fold_right (fun n acc => decimalValue n + acc) 0 amounts.

(** A compute-unit value that is not negative. *)
Definition nonNegative (n : number) : Prop :=
  match n with
  | Int z => 0 <= z <= MAX_SAFE_INTEGER
  | NaN | Huge => True
  end.

(** The compute units of the traces, in order, and the compute units
    of the trace at an index (zero where there is no trace yet). *)
Definition units (e : Env) : list number := map computeUnits (prettyLogs e).

Definition unitsAt (us : list number) (i : nat) : number := nth i us (Int 0).

(** Where a consumption marker is counted: at depth 1, in the last
    trace. *)
Definition counted (e : Env) (i : nat) : bool :=
  (depth e =? 1) && Nat.eqb i (pred (length (units e))).

(** An operation that leaves the compute units of every trace and the
    number of traces as they are. *)
Definition keepsUnits {A : Type} (m : M A) : Prop :=
  forall e a e', m e = Returns (a, e') -> units e' = units e.

(** No consumption marker of the input has an empty amount. *)
Definition amountsPresent (lines : list jsstring) : Prop :=
  forall log m, In log lines -> In m (matchAll reConsumed log) -> group 1 m <> [].

(** The line [Program <addr> invoke [<n>]]. *)
Definition invokeLine (addr n : jsstring) : jsstring :=
  lit "Program " ++ addr ++ lit " invoke [" ++ n ++ lit "]".

(** The muted line of a raw text at the top level. *)
Definition mutedLine (txt : jsstring) : LogMessage :=
  {| text := txt; prefix := lit "> "; style := muted |}.

(* ================================================================== *)
(** ** A concrete setting *)
(* ================================================================== *)

(** Stand-ins for the collaborators, and a few inputs, on which the
    interpreter can be run. *)
Module Sample.

Definition Cluster : Type := unit.
Definition TransactionError : Type := unit.
Definition isTruthy (_ : TransactionError) : bool := true.
Definition classify (_ : TransactionError) : option ProgramError :=
  Some {| index := 0; message := lit "custom program error: 0x1" |}.
Definition getProgramName (a : jsstring) (_ : Cluster) : jsstring := a.
Definition Buffer_from_base64 (_ : jsstring) : list N := [].
Definition FillLog_render (_ : list N) : option jsstring := None.

Abbreviation parse :=
  (parseProgramLogs isTruthy classify getProgramName Buffer_from_base64
     FillLog_render tt).

Abbreviation line :=
  (onLine getProgramName Buffer_from_base64 FillLog_render tt).

Abbreviation states :=
  (history getProgramName Buffer_from_base64 FillLog_render tt).

(** The state after [Program A invoke [1]]. *)
Definition traceA : InstructionLogs := newTrace (Some (lit "A")) false.

Definition insideA : Env :=
  {| depth := 1; prettyLogs := [traceA]; currentProgram := [lit "A"];
     console := [] |}.

(** A nested invocation that reports its own consumption. *)
Definition nested : list jsstring :=
  [ lit "Program A invoke [1]";
    lit "Program B invoke [2]";
    lit "Program B consumed 50 of 200000 compute units";
    lit "Program B success";
    lit "Program A consumed 100 of 200000 compute units";
    lit "Program A success" ].

Definition nestedResult : list InstructionLogs :=
  Eval vm_compute in
    match parse nested None with
    | Returns r => r
    | Throws _ => []
    end.

End Sample.

(* ================================================================== *)
(** ** Vocabulary of the further properties *)
(* ================================================================== *)

(** A line that reaches the invocation rule. *)
Definition reachesInvoke (log : jsstring) : bool :=
  negb (isProgramLog log)
  && negb (startsWith log (lit "Log truncated"))
  && hasInvoke log.

(** A line whose rule writes to the last trace without opening one:
    a program log, a truncation notice, or, without invocation marker,
    a line that includes "success" or "failed". *)
Definition needsOpenTrace (log : jsstring) : bool :=
  isProgramLog log
  || startsWith log (lit "Log truncated")
  || (negb (hasInvoke log)
      && (includes log (lit "success") || includes log (lit "failed"))).

(** A reached line that opens a trace: processed at depth 0 by the
    invocation rule or by the last branch. *)
Definition opensTrace (p : Env * jsstring) : bool :=
  (depth (fst p) =? 0) && (reachesInvoke (snd p) || reachesLastBranch (snd p)).

(** A later state of the same trace: the program is the same, the
    log lines are the earlier ones followed by more, and a flag that
    was set is still set. *)
Definition grows (t t' : InstructionLogs) : Prop :=
  invokedProgram t' = invokedProgram t
  /\ (exists more, logs t' = logs t ++ more)
  /\ (truncated t = true -> truncated t' = true)
  /\ (failed t = true -> failed t' = true).

(** A later state of the list of traces: every trace but the last is
    as it was, the last one has grown, and traces may have been
    appended. *)
Definition evolves (pl pl' : list InstructionLogs) : Prop :=
  pl = []
  \/ exists init x x' new,
       pl = init ++ [x] /\ pl' = init ++ x' :: new /\ grows x x'.

(** An operation whose runs relate the list of traces before to the
    list of traces after. *)
Definition relates (R : list InstructionLogs -> list InstructionLogs -> Prop)
    {A : Type} (m : M A) : Prop :=
  forall e a e', m e = Returns (a, e') -> R (prettyLogs e) (prettyLogs e').

(** An operation that, started with at least one trace, does not throw
    a [TypeError] and ends with at least one trace. *)
Definition steady {A : Type} (m : M A) : Prop :=
  forall e, prettyLogs e <> [] ->
    m e <> Throws TypeError
    /\ forall a e', m e = Returns (a, e') -> prettyLogs e' <> [].

(** An operation from which no exception of the record deserializer
    escapes. *)
Definition calm {A : Type} (m : M A) : Prop :=
  forall e, m e <> Throws DecodeError.

(** A trace with a warning line. *)
Definition isWarning (sty : Style) : bool :=
  match sty with
  | warning => true
  | _ => false
  end.

Definition hasWarning (t : InstructionLogs) : bool :=
  existsb (fun m => isWarning (style m)) (logs t).

(** A trace whose warning lines, if any, come with the failed flag. *)
Definition flagged (t : InstructionLogs) : Prop :=
  hasWarning t = true -> failed t = true.

(** Lists of traces of which the second has no unflagged warning line
    when the first has none. *)
Definition unflagged (pl pl' : list InstructionLogs) : Prop :=
  Forall flagged pl -> Forall flagged pl'.

(** The line [Program <addr> consumed <n> <rest>]. *)
Definition consumedLine (addr n rest : jsstring) : jsstring :=
  lit "Program " ++ addr ++ lit " consumed " ++ n ++ lit " " ++ rest.

(** A setting in which every fill record decodes. *)
Module Fills.

Definition Buffer_from_base64 (_ : jsstring) : list N :=
  fillLogPrefix ++ [1; 2; 3]%N.

Definition FillLog_render (payload : list N) : option jsstring :=
  Some (lit "{}").

Abbreviation line :=
  (onLine Sample.getProgramName Buffer_from_base64 FillLog_render tt).

(** The state inside an invocation of the manifest program. *)
Definition traceM : InstructionLogs := newTrace (Some manifestProgram) false.

Definition insideM : Env :=
  {| depth := 1; prettyLogs := [traceM]; currentProgram := [manifestProgram];
     console := [] |}.

End Fills.

Unset Implicit Arguments.

(* ================================================================== *)
(** ** Examples of the expressions *)
(* ================================================================== *)

Example reInvoke_ex :
  map (group 1) (matchAll reInvoke (lit "Program Abc1 invoke [1]")) = [lit "Abc1"].
Proof. reflexivity. Qed.

Example reInvoke_two_digits :
  matchAll reInvoke (lit "Program Abc1 invoke [12]") = [].
Proof. reflexivity. Qed.

Example reConsumed_ex :
  map (fun m => (group 1 m, group 2 m))
      (matchAll reConsumed (lit "Program A consumed 100 of 200000 compute units"))
  = [(lit "100", lit "of 200000 compute units")].
Proof. reflexivity. Qed.

Example reConsumed_empty_digits :
  map (group 1) (matchAll reConsumed (lit "Program A consumed  x")) = [[]].
Proof. reflexivity. Qed.

Example ofZ_ex : ofZ (-1) = lit "-1" /\ ofZ 0 = lit "0" /\ ofZ 12 = lit "12".
Proof. repeat split; reflexivity. Qed.

(* ================================================================== *)
(** ** Lists updated at their last element *)
(* ================================================================== *)

Lemma at_last (A : Type) (init : list A) (x : A) :
  at_ (init ++ [x]) (Z.of_nat (length (init ++ [x])) - 1) = Some x.
Proof.
  unfold at_. rewrite length_app. simpl length.
  replace (Z.of_nat (length init + 1) - 1) with (Z.of_nat (length init)) by lia.
  destruct (Z.ltb_spec (Z.of_nat (length init)) 0); [lia|].
  rewrite Nat2Z.id, nth_error_app2 by lia.
  now rewrite Nat.sub_diag.
Qed.


Lemma updateNth_last (A : Type) (f : A -> A) (init : list A) (x : A) :
  updateNth f (init ++ [x]) (length init) = Some (init ++ [f x]).
Proof.
  induction init as [|y init IH]; simpl; [reflexivity|].
  now rewrite IH.
Qed.

Lemma updateAt_last (A : Type) (f : A -> A) (init : list A) (x : A) :
  updateAt f (init ++ [x]) (Z.of_nat (length (init ++ [x])) - 1)
  = Some (init ++ [f x]).
Proof.
  unfold updateAt. rewrite length_app. simpl length.
  replace (Z.of_nat (length init + 1) - 1) with (Z.of_nat (length init)) by lia.
  destruct (Z.ltb_spec (Z.of_nat (length init)) 0); [lia|].
  now rewrite Nat2Z.id, updateNth_last.
Qed.


Lemma list_last_cases (A : Type) (l : list A) :
  l = [] \/ exists init x, l = init ++ [x].
Proof.
  destruct l as [|a l]; [now left|right].
  destruct (@exists_last _ (a :: l)) as [init [x E]]; [discriminate|eauto].
Qed.

(* ================================================================== *)
(** ** Facts about strings *)
(* ================================================================== *)

Module StringFacts.

Lemma startsWith_app (p s : jsstring) : startsWith (p ++ s) p = true.
Proof.
  induction p as [|c p IH]; simpl; [reflexivity|].
  now rewrite N.eqb_refl, IH.
Qed.

Lemma startsWith_true (s p : jsstring) :
  startsWith s p = true -> s = p ++ skipn (length p) s.
Proof.
  revert s; induction p as [|c p IH]; intros s H; simpl in *; [reflexivity|].
  destruct s as [|x s]; [discriminate|].
  apply andb_prop in H as [Hx Hs].
  apply N.eqb_eq in Hx; subst x.
  simpl. f_equal. now apply IH.
Qed.

Lemma skipn_exact (A : Type) (p s : list A) : skipn (length p) (p ++ s) = s.
Proof. induction p; simpl; auto. Qed.

Lemma firstn_exact (A : Type) (p s : list A) :
  firstn (length (p ++ s) - length s) (p ++ s) = p.
Proof.
  rewrite length_app.
  replace (length p + length s - length s)%nat with (length p) by lia.
  induction p; simpl; [now destruct s|]. now f_equal.
Qed.

Lemma includes_true (s p : jsstring) :
  includes s p = true -> exists pre rest, s = pre ++ p ++ rest.
Proof.
  induction s as [|c s IH]; simpl; intros H.
  - rewrite orb_false_r in H. apply startsWith_true in H.
    exists [], (skipn (length p) []). exact H.
  - apply orb_prop in H as [H|H].
    + apply startsWith_true in H. exists [], (skipn (length p) (c :: s)). exact H.
    + destruct (IH H) as [pre [rest E]].
      exists (c :: pre), rest. simpl. now f_equal.
Qed.

Lemma includes_here (s p : jsstring) :
  startsWith s p = true -> includes s p = true.
Proof. intros H. destruct s; simpl; now rewrite H. Qed.

Lemma includes_app (pre p rest : jsstring) : includes (pre ++ p ++ rest) p = true.
Proof.
  induction pre as [|c pre IH]; simpl.
  - apply includes_here, startsWith_app.
  - rewrite IH. apply orb_true_r.
Qed.

Lemma forallb_takeWhile (p : N -> bool) (s : jsstring) :
  forallb p (takeWhile p s) = true.
Proof.
  induction s as [|c s IH]; simpl; [reflexivity|].
  destruct (p c) eqn:E; simpl; [now rewrite E|reflexivity].
Qed.

Lemma dropWhile_all (p : N -> bool) (x : jsstring) :
  forallb p x = true -> dropWhile p x = [].
Proof.
  induction x as [|c x IH]; simpl; [reflexivity|].
  intros H. apply andb_prop in H as [Hc Hx]. now rewrite Hc, IH.
Qed.

(** The place of the first occurrence of a character determines the
    two sides. *)
Lemma split_at_first (c : N) (x x' y y' : jsstring) :
  ~ In c x -> ~ In c x' ->
  x ++ c :: y = x' ++ c :: y' -> x = x' /\ y = y'.
Proof.
  revert x'; induction x as [|a x IH]; intros [|a' x'] Hx Hx' E; simpl in *.
  - now inversion E.
  - inversion E; subst. exfalso; apply Hx'; now left.
  - inversion E; subst. exfalso; apply Hx; now left.
  - inversion E; subst.
    destruct (IH x') as [-> ->]; auto.
Qed.

Lemma class_not_in (p : N -> bool) (c : N) (x : jsstring) :
  forallb p x = true -> p c = false -> ~ In c x.
Proof.
  intros H Hc Hin.
  rewrite forallb_forall in H. specialize (H c Hin). congruence.
Qed.

(** The text after the first ": " of a line. *)
Lemma slice_after_first_colon (pre m : jsstring) :
  includes pre (lit ": ") = false ->
  slice (pre ++ lit ": " ++ m) (indexOf (pre ++ lit ": " ++ m) (lit ": ") + 2) = m.
Proof.
  intros H.
  assert (E : indexOf (pre ++ lit ": " ++ m) (lit ": ") = Z.of_nat (length pre)).
  { induction pre as [|c pre IH]; [reflexivity|].
    simpl in H. apply orb_false_elim in H as [Hs Hi].
    change (indexOf ((c :: pre) ++ lit ": " ++ m) (lit ": "))
      with (if startsWith (c :: pre ++ lit ": " ++ m) (lit ": ") then 0
            else let i := indexOf (pre ++ lit ": " ++ m) (lit ": ") in
                 if i <? 0 then -1 else i + 1).
    assert (Hn : startsWith (c :: pre ++ lit ": " ++ m) (lit ": ") = false).
    { destruct pre as [|c' pre]; simpl in *.
      - now rewrite andb_false_r.
      - destruct (c =? 58)%N; [|reflexivity].
        destruct (c' =? 32)%N; [discriminate|reflexivity]. }
    rewrite Hn, (IH Hi). cbv zeta.
    destruct (Z.ltb_spec (Z.of_nat (length pre)) 0); [lia|].
    simpl length. lia. }
  rewrite E. unfold slice.
  destruct (Z.ltb_spec (Z.of_nat (length pre) + 2) 0); [lia|].
  replace (Z.to_nat (Z.of_nat (length pre) + 2)) with (length pre + 2)%nat by lia.
  rewrite skipn_app.
  replace (length pre + 2 - length pre)%nat with 2%nat by lia.
  rewrite skipn_all2 by lia. reflexivity.
Qed.

Lemma join_empty (a : list jsstring) : join [] a = concat a.
Proof.
  induction a as [|x a IH]; simpl; [reflexivity|].
  destruct a as [|y a]; [now rewrite app_nil_r|].
  now rewrite <- IH.
Qed.

End StringFacts.
Import StringFacts.

(* ================================================================== *)
(** ** Facts about the matcher *)
(* ================================================================== *)

Module RegexFacts.

(** A starred class takes the whole run when what follows accepts
    the end of the run. *)
Lemma star_greedy (A : Type) (p : N -> bool) (s : jsstring)
    (k : jsstring -> option A) (r : A) :
  k (dropWhile p s) = Some r -> star p s k = Some r.
Proof.
  induction s as [|c s IH]; simpl; [auto|].
  destruct (p c); [|auto].
  intros H. now rewrite (IH H).
Qed.

Lemma star_sound (A : Type) (p : N -> bool) (s : jsstring)
    (k : jsstring -> option A) (r : A) :
  star p s k = Some r ->
  exists x rest, s = x ++ rest /\ forallb p x = true /\ k rest = Some r.
Proof.
  induction s as [|c s IH]; simpl; intros H.
  - exists [], []. auto.
  - destruct (p c) eqn:Hc.
    + destruct (star p s k) as [r'|] eqn:Hs.
      * inversion H; subst r'.
        destruct (IH eq_refl) as [x [rest [E [Hx Hk]]]].
        exists (c :: x), rest. simpl. rewrite Hc, Hx, E. auto.
      * exists [], (c :: s). auto.
    + exists [], (c :: s). auto.
Qed.

(** Whatever the matcher accepts is a text the expression denotes. *)
Lemma rmatch_sound (A : Type) (r : regex) :
  forall (s : jsstring) (caps0 : list jsstring)
         (k : jsstring -> list jsstring -> option A) (res : A),
    rmatch r s caps0 k = Some res ->
    exists x rest caps,
      s = x ++ rest /\ denotes r x caps /\ k rest (caps0 ++ caps) = Some res.
Proof.
  induction r as [l|p|p|r IH|r1 IH1 r2 IH2]; intros s caps0 k res H; simpl in H.
  - destruct (startsWith s l) eqn:E; [|discriminate].
    exists l, (skipn (length l) s), [].
    rewrite app_nil_r. split; [now apply startsWith_true|].
    split; [constructor|exact H].
  - destruct s as [|c s]; [discriminate|].
    destruct (p c) eqn:E; [|discriminate].
    exists [c], s, []. rewrite app_nil_r.
    split; [reflexivity|]. split; [now constructor|exact H].
  - apply star_sound in H as [x [rest [E [Hx Hk]]]].
    exists x, rest, []. rewrite app_nil_r.
    split; [exact E|]. split; [now constructor|exact Hk].
  - apply IH in H as [x [rest [caps [E [D Hk]]]]].
    exists x, rest, (caps ++ [x]).
    split; [exact E|]. split; [now constructor|].
    subst s. rewrite firstn_exact in Hk. now rewrite app_assoc.
  - apply IH1 in H as [x1 [rest1 [c1 [E1 [D1 H]]]]].
    apply IH2 in H as [x2 [rest2 [c2 [E2 [D2 H]]]]].
    exists (x1 ++ x2), rest2, (c1 ++ c2).
    split; [subst; now rewrite app_assoc|].
    split; [now constructor|now rewrite app_assoc].
Qed.

Lemma exec_sound (r : regex) (s : jsstring) (m : Match) :
  exec r s = Some m ->
  exists rest, s = matched m ++ rest /\ denotes r (matched m) (groups m).
Proof.
  unfold exec. intros H.
  apply rmatch_sound in H as [x [rest [caps [E [D H]]]]].
  inversion H; subst; simpl.
  rewrite firstn_exact. eauto.
Qed.

Lemma scan_sound (r : regex) (m : Match) :
  forall (s : jsstring) (skip : nat),
    In m (hits (scan r s skip)) ->
    exists pre rest, s = pre ++ matched m ++ rest
                     /\ denotes r (matched m) (groups m).
Proof.
  induction s as [|c s IH]; intros skip H; simpl in H.
  - destruct skip; [|contradiction].
    destruct (exec r []) as [m'|] eqn:E; [|contradiction].
    destruct H as [->|[]].
    apply exec_sound in E as [rest [E D]]. exists [], rest. auto.
  - assert (Hrest : forall n, In m (hits (scan r s n)) ->
              exists pre rest, c :: s = pre ++ matched m ++ rest
                               /\ denotes r (matched m) (groups m)).
    { intros n Hn. destruct (IH n Hn) as [pre [rest [E D]]].
      exists (c :: pre), rest. simpl. rewrite <- E. auto. }
    destruct skip as [|n]; [|eauto].
    destruct (exec r (c :: s)) as [m'|] eqn:E; [|simpl in H; eauto].
    assert (Hm : m' = m -> exists pre rest,
                   c :: s = pre ++ matched m ++ rest
                   /\ denotes r (matched m) (groups m)).
    { intros ->. apply exec_sound in E as [rest [E D]]. exists [], rest. auto. }
    destruct (length (matched m')); simpl in H; destruct H as [H|H]; eauto.
Qed.

Lemma matchAll_sound (r : regex) (s : jsstring) (m : Match) :
  In m (matchAll r s) ->
  exists pre rest, s = pre ++ matched m ++ rest
                   /\ denotes r (matched m) (groups m).
Proof. apply scan_sound. Qed.

(** Without a match the scan keeps every character. *)
Lemma scan_no_hit (r : regex) (s : jsstring) :
  hits (scan r s 0) = [] -> scan r s 0 = map Keep s.
Proof.
  induction s as [|c s IH]; simpl.
  - destruct (exec r []); [discriminate|reflexivity].
  - destruct (exec r (c :: s)) as [m|].
    + destruct (length (matched m)); discriminate.
    + simpl. intros H. now rewrite IH.
Qed.

(** Past a match that reaches the end of the subject nothing is left
    to scan. *)
Lemma scan_skip_all (r : regex) (s : jsstring) :
  exec r [] = None -> scan r s (length s) = [].
Proof.
  intros H. induction s as [|c s IH]; simpl; [now rewrite H|exact IH].
Qed.

Lemma matchAll_none (r : regex) (s : jsstring) :
  (forall m, ~ In m (matchAll r s)) -> matchAll r s = [].
Proof.
  destruct (matchAll r s) as [|m l]; [reflexivity|].
  intros H. exfalso. apply (H m). now left.
Qed.

Ltac invert_denotes :=
  repeat match goal with
         | H : denotes (Seq _ _) _ _ |- _ => inversion H; subst; clear H
         | H : denotes (Group _) _ _ |- _ => inversion H; subst; clear H
         | H : denotes (Chars _) _ _ |- _ => inversion H; subst; clear H
         | H : denotes (Star _) _ _ |- _ => inversion H; subst; clear H
         | H : denotes (Class _) _ _ |- _ => inversion H; subst; clear H
         end.

(** The texts of the invocation expression. *)
Lemma reInvoke_shape (x : jsstring) (caps : list jsstring) :
  denotes reInvoke x caps ->
  exists a d,
    x = lit "Program " ++ a ++ lit " invoke [" ++ [d] ++ lit "]"
    /\ caps = [a; [d]]
    /\ forallb isWord a = true /\ isDigit d = true.
Proof.
  unfold reInvoke. intros H. invert_denotes.
  eexists _, _. repeat split; eauto.
Qed.

(** The texts of the consumption expression. *)
Lemma reConsumed_shape (x : jsstring) (caps : list jsstring) :
  denotes reConsumed x caps ->
  exists a ds rest,
    x = lit "Program " ++ a ++ lit " consumed " ++ ds ++ lit " " ++ rest
    /\ caps = [ds; rest]
    /\ forallb isWord a = true /\ forallb isDigit ds = true
    /\ forallb isDot rest = true.
Proof.
  unfold reConsumed. intros H. invert_denotes.
  eexists _, _, _. repeat split; eauto.
Qed.

End RegexFacts.
Import RegexFacts.

(* ================================================================== *)
(** ** Runs of the state operations *)
(* ================================================================== *)

#[local] Arguments at_ : simpl never.
#[local] Arguments updateAt : simpl never.
#[local] Arguments prefixBuilder : simpl never.
#[local] Arguments prefixText : simpl never.

Lemma bind_run (A B : Type) (m : M A) (f : A -> M B) (e e' : Env) (a : A) :
  m e = Returns (a, e') -> bind m f e = f a e'.
Proof. intros H. unfold bind. now rewrite H. Qed.

Lemma prefixBuilder_run (level : Z) (e : Env) :
  prefixBuilder level e
  = Returns (prefixText level,
             {| depth := depth e; prettyLogs := prettyLogs e;
                currentProgram := currentProgram e;
                console := console e ++ diagnostics level |}).
Proof.
  unfold prefixBuilder, prefixText, diagnostics, diagnostic, bind, ret, warn.
  destruct (Z.leb_spec level 0) as [H|H]; simpl.
  - replace (Z.to_nat (level - 1)) with 0%nat by lia.
    reflexivity.
  - unfold Array_fill. rewrite join_empty, app_nil_r.
    destruct e; reflexivity.
Qed.

Lemma lastTrace_run (e : Env) (init : list InstructionLogs) (x : InstructionLogs) :
  prettyLogs e = init ++ [x] -> lastTrace e = Returns (x, e).
Proof.
  intros H. unfold lastTrace, lastIndex, traceAt, bind, getPrettyLogs, ret.
  now rewrite H, at_last.
Qed.

Lemma lastTrace_throw (e : Env) :
  prettyLogs e = [] -> lastTrace e = Throws TypeError.
Proof.
  intros H. unfold lastTrace, lastIndex, traceAt, bind, getPrettyLogs, ret.
  now rewrite H.
Qed.

Lemma modifyLast_run (f : InstructionLogs -> InstructionLogs) (e : Env)
    (init : list InstructionLogs) (x : InstructionLogs) :
  prettyLogs e = init ++ [x] ->
  modifyLast f e
  = Returns (tt, {| depth := depth e; prettyLogs := init ++ [f x];
                    currentProgram := currentProgram e;
                    console := console e |}).
Proof.
  intros H.
  unfold modifyLast, lastIndex, modifyAt, bind, getPrettyLogs, setPrettyLogs, ret.
  now rewrite H, updateAt_last.
Qed.

Lemma modifyLast_throw (f : InstructionLogs -> InstructionLogs) (e : Env) :
  prettyLogs e = [] -> modifyLast f e = Throws TypeError.
Proof.
  intros H.
  unfold modifyLast, lastIndex, modifyAt, bind, getPrettyLogs, setPrettyLogs, ret.
  now rewrite H.
Qed.

Lemma pushToLast_run (sty : Style) (txt : jsstring) (e : Env)
    (init : list InstructionLogs) (x : InstructionLogs) :
  prettyLogs e = init ++ [x] ->
  pushToLast sty txt e
  = Returns (tt,
             {| depth := depth e;
                prettyLogs :=
                  init ++ [pushLog {| text := txt; prefix := prefixText (depth e);
                                      style := sty |} x];
                currentProgram := currentProgram e;
                console := console e ++ diagnostics (depth e) |}).
Proof.
  intros H. unfold pushToLast, bind at 1.
  rewrite (lastTrace_run _ _ _ H).
  unfold bind at 1, getDepth. unfold bind at 1.
  rewrite prefixBuilder_run.
  erewrite modifyLast_run by (simpl; exact H).
  reflexivity.
Qed.

(** A replacement without a match returns the subject. *)
Lemma replacePieces_keep (s : jsstring) (f : Match -> M jsstring) (e : Env) :
  replacePieces (map Keep s) f e = Returns (s, e).
Proof.
  induction s as [|c s IH]; simpl; [reflexivity|].
  unfold bind. now rewrite IH.
Qed.

(** A replacement whose callback leaves the state alone leaves it
    alone too. *)
Lemma replacePieces_pure (g : Match -> jsstring) (ps : list piece) (e : Env) :
  exists out, replacePieces ps (fun m => ret (g m)) e = Returns (out, e).
Proof.
  induction ps as [|[c|m] ps [out IH]]; simpl.
  - now exists [].
  - exists (c :: out). unfold bind. now rewrite IH.
  - exists (g m ++ out). unfold bind, ret at 1. now rewrite IH.
Qed.

(** A match that covers the whole subject is the only piece. *)
Lemma scan_whole (r : regex) (c : N) (s : jsstring) (m : Match) :
  exec r (c :: s) = Some m -> matched m = c :: s -> exec r [] = None ->
  scan r (c :: s) 0 = [Hit m].
Proof.
  intros He Hm Hn. cbn [scan]. rewrite He, Hm. cbn [length].
  now rewrite (scan_skip_all r s Hn).
Qed.

(** The program-log expression on a one-line message: one match, the
    whole line, with the message as its capture. *)
Lemma scan_program_log (X : jsstring) :
  forallb isDot X = true ->
  scan reProgramLog (lit "Program log: " ++ X) 0
  = [Hit {| matched := lit "Program log: " ++ X; groups := [X] |}].
Proof.
  intros HX.
  apply (scan_whole reProgramLog 80%N (lit "rogram log: " ++ X)).
  - change (80%N :: lit "rogram log: " ++ X) with (lit "Program log: " ++ X).
    unfold exec, reProgramLog. cbn [rmatch].
    rewrite (startsWith_app (lit "Program log: ") X).
    rewrite (skipn_exact _ (lit "Program log: ") X).
    apply star_greedy. rewrite (dropWhile_all _ _ HX).
    cbn [length]. rewrite !Nat.sub_0_r, !firstn_all. reflexivity.
  - reflexivity.
  - reflexivity.
Qed.

Lemma replace_no_match (r : regex) (s : jsstring) (f : Match -> M jsstring) (e : Env) :
  matchAll r s = [] -> replace r s f e = Returns (s, e).
Proof.
  intros H. unfold replace. rewrite (scan_no_hit _ _ H).
  apply replacePieces_keep.
Qed.

(* ================================================================== *)
(** ** Invocation lines with a depth of two or more digits *)
(* ================================================================== *)

Lemma first_split (c : N) (s : jsstring) :
  ~ In c s \/ exists p1 p2, s = p1 ++ c :: p2 /\ ~ In c p1.
Proof.
  induction s as [|a s IH]; [left; intros []|].
  destruct (N.eq_dec a c) as [->|Hac].
  - right. exists [], s. split; [reflexivity|intros []].
  - destruct IH as [Hn|[p1 [p2 [E Hn]]]].
    + left. intros [H|H]; [congruence|contradiction].
    + right. exists (a :: p1), p2. split; [now rewrite E|].
      intros [H|H]; [congruence|contradiction].
Qed.

Section TwoDigitInvoke.

Variables addr n : jsstring.
Hypothesis addr_word : forallb isWord addr = true.
Hypothesis n_digits : forallb isDigit n = true.
Hypothesis n_long : (2 <= length n)%nat.

Lemma addr_no_space : ~ In space addr.
Proof. now apply (class_not_in isWord). Qed.

Lemma n_no_space : ~ In space n.
Proof. now apply (class_not_in isDigit). Qed.

Ltac no_space :=
  first [ assumption
        | apply addr_no_space
        | apply n_no_space
        | now apply (class_not_in isWord)
        | let H := fresh in
          intros H; apply in_app_or in H as [H|H]; [now auto|revert H]; no_space
        | unfold space; simpl; intuition discriminate ].

(** Where the text [Program ] occurs in the line, and what follows
    it there: at the start, or at the end of an address that itself
    ends with [Program]. *)
Lemma program_occurrences (pre Y : jsstring) :
  invokeLine addr n = pre ++ lit "Program " ++ Y ->
  Y = addr ++ lit " invoke [" ++ n ++ lit "]"
  \/ Y = lit "invoke [" ++ n ++ lit "]".
Proof.
  unfold invokeLine.
  change (lit "Program " ++ addr ++ lit " invoke [" ++ n ++ lit "]")
    with (lit "Program" ++ space :: addr ++ space :: lit "invoke"
            ++ space :: lit "[" ++ n ++ lit "]").
  change (pre ++ lit "Program " ++ Y)
    with (pre ++ lit "Program" ++ space :: Y).
  intros E.
  destruct (first_split space pre) as [Hpre|[p1 [p2 [-> Hp1]]]].
  { (* the occurrence at the start *)
    rewrite (app_assoc pre) in E.
    apply split_at_first in E as [_ E]; [|no_space..].
    left. now rewrite <- E. }
  rewrite <- app_assoc in E. cbn [app] in E.
  apply split_at_first in E as [_ E]; [|no_space..].
  destruct (first_split space p2) as [Hp2|[q1 [q2 [-> Hq1]]]].
  { (* the occurrence at the end of the address *)
    rewrite (app_assoc p2) in E.
    apply split_at_first in E as [_ E]; [|no_space..].
    right. now rewrite <- E. }
  rewrite <- app_assoc in E. cbn [app] in E.
  apply split_at_first in E as [_ E]; [|no_space..].
  exfalso.
  destruct (first_split space q2) as [Hq2|[r1 [r2 [-> Hr1]]]].
  - rewrite (app_assoc q2) in E.
    apply split_at_first in E as [E _]; [|no_space..].
    apply (f_equal (@length N)) in E. rewrite length_app in E.
    simpl in E. lia.
  - rewrite <- app_assoc in E. cbn [app] in E.
    apply split_at_first in E as [_ E]; [|no_space..].
    assert (H : In space (lit "[" ++ n ++ lit "]")).
    { rewrite E. apply in_or_app. right. apply in_or_app. right. now left. }
    simpl in H. destruct H as [H|H]; [discriminate|].
    apply in_app_or in H as [H|H]; [now apply n_no_space|].
    simpl in H. intuition discriminate.
Qed.

(** The invocation expression finds nothing in the line. *)
Lemma two_digits_no_invoke : matchAll reInvoke (invokeLine addr n) = [].
Proof.
  apply matchAll_none. intros m Hm.
  apply matchAll_sound in Hm as [pre [rest [E D]]].
  apply reInvoke_shape in D as [a [d [Hx [_ [Ha Hd]]]]].
  rewrite Hx, <- !app_assoc in E.
  destruct (program_occurrences _ _ E) as [H|H].
  - change (a ++ space :: lit "invoke [" ++ [d] ++ lit "]" ++ rest
            = addr ++ space :: lit "invoke [" ++ n ++ lit "]") in H.
    apply split_at_first in H as [_ H]; [|no_space..].
    apply app_inv_head in H.
    revert H. generalize n_digits n_long. clear.
    destruct n as [|d1 [|d2 n']]; simpl; intros Hdig Hlen H; try lia.
    apply andb_prop in Hdig as [_ Hdig]. apply andb_prop in Hdig as [Hdig _].
    inversion H; subst. discriminate.
  - change (a ++ space :: lit "invoke [" ++ [d] ++ lit "]" ++ rest
            = lit "invoke" ++ space :: lit "[" ++ n ++ lit "]") in H.
    apply split_at_first in H as [_ H]; [|no_space..].
    discriminate.
Qed.

(** Neither does the consumption expression. *)
Lemma two_digits_no_consumed : matchAll reConsumed (invokeLine addr n) = [].
Proof.
  apply matchAll_none. intros m Hm.
  apply matchAll_sound in Hm as [pre [rest [E D]]].
  apply reConsumed_shape in D as [a [ds [r [Hx [_ [Ha _]]]]]].
  rewrite Hx, <- !app_assoc in E.
  destruct (program_occurrences _ _ E) as [H|H].
  - change (a ++ space :: lit "consumed " ++ ds ++ lit " " ++ r ++ rest
            = addr ++ space :: lit "invoke [" ++ n ++ lit "]") in H.
    apply split_at_first in H as [_ H]; [|no_space..].
    discriminate.
  - change (a ++ space :: lit "consumed " ++ ds ++ lit " " ++ r ++ rest
            = lit "invoke" ++ space :: lit "[" ++ n ++ lit "]") in H.
    apply split_at_first in H as [_ H]; [|no_space..].
    discriminate.
Qed.

(** The line holds no fill record. *)
Lemma two_digits_no_program_data :
  includes (invokeLine addr n) (lit "Program data: ") = false.
Proof.
  destruct (includes _ _) eqn:Hi; [exfalso|reflexivity].
  apply includes_true in Hi as [pre [rest E]].
  change (lit "Program data: " ++ rest)
    with (lit "Program " ++ lit "data:" ++ space :: rest) in E.
  destruct (program_occurrences _ _ E) as [H|H].
  - change (lit "data:" ++ space :: rest
            = addr ++ space :: lit "invoke [" ++ n ++ lit "]") in H.
    apply split_at_first in H as [H _]; [|no_space..].
    rewrite <- H in addr_word. discriminate.
  - discriminate.
Qed.

(** It is no program log and no truncation notice. *)
Lemma two_digits_no_program_log : isProgramLog (invokeLine addr n) = false.
Proof.
  unfold isProgramLog.
  destruct (startsWith _ _) eqn:Hs; [exfalso|reflexivity].
  apply startsWith_true in Hs.
  change (lit "Program log:" ++ skipn (length (lit "Program log:")) (invokeLine addr n))
    with ([] ++ lit "Program " ++ lit "log:"
            ++ skipn (length (lit "Program log:")) (invokeLine addr n)) in Hs.
  destruct (program_occurrences _ _ Hs) as [H|H]; [|discriminate].
  destruct addr as [|a0 [|a1 [|a2 [|a3 addr']]]]; try discriminate.
  simpl in H, addr_word. inversion H; subst. discriminate.
Qed.

Lemma two_digits_no_truncation :
  startsWith (invokeLine addr n) (lit "Log truncated") = false.
Proof. reflexivity. Qed.

End TwoDigitInvoke.

(* ================================================================== *)
(** ** Facts about numbers *)
(* ================================================================== *)

Module NumberFacts.

Lemma ofInteger_nonNegative (z : Z) : 0 <= z -> nonNegative (ofInteger z).
Proof.
  intros H. unfold ofInteger.
  destruct (Z.leb_spec z MAX_SAFE_INTEGER); simpl; auto.
Qed.

Lemma digits_from_nonNegative (ds : jsstring) :
  forall acc, 0 <= acc -> forallb isDigit ds = true ->
    0 <= fold_left (fun acc d => 10 * acc + (Z.of_N d - 48)) ds acc.
Proof.
  induction ds as [|d ds IH]; intros acc Hacc H;
    cbn [fold_left forallb] in *; [exact Hacc|].
  apply andb_prop in H as [Hd Hds]. apply IH; [|exact Hds].
  unfold isDigit in Hd. apply andb_prop in Hd as [Hlo _].
  apply N.leb_le in Hlo. lia.
Qed.

Lemma parseInt_nonNegative (s : jsstring) : nonNegative (parseInt s).
Proof.
  unfold parseInt. pose proof (forallb_takeWhile isDigit s) as H.
  destruct (takeWhile isDigit s) as [|d ds]; [exact I|].
  apply ofInteger_nonNegative, digits_from_nonNegative; [lia|exact H].
Qed.

Lemma add_nonNegative (a b : number) :
  nonNegative a -> nonNegative b -> nonNegative (add a b).
Proof.
  destruct a as [|x|], b as [|y|]; simpl; auto.
  intros Hx Hy. apply ofInteger_nonNegative. lia.
Qed.

Lemma sumUnits_nonNegative (amounts : list jsstring) :
  forall start, nonNegative start -> nonNegative (sumUnits start amounts).
Proof.
  induction amounts as [|n ns IH]; intros start H; simpl; [exact H|].
  apply IH, add_nonNegative; [exact H|apply parseInt_nonNegative].
Qed.

Lemma nonNegative_cases (n : number) :
  nonNegative n ->
  n = NaN \/ n = Huge \/ exists z, n = Int z /\ 0 <= z <= MAX_SAFE_INTEGER.
Proof. destruct n as [|z|]; simpl; eauto. Qed.

Lemma takeWhile_all (p : N -> bool) (x : jsstring) :
  forallb p x = true -> takeWhile p x = x.
Proof.
  induction x as [|c x IH]; simpl; [reflexivity|].
  intros H. apply andb_prop in H as [Hc Hx]. now rewrite Hc, IH.
Qed.

(** A non-empty run of digits has a value. *)
Lemma parseInt_digits (ds : jsstring) :
  forallb isDigit ds = true -> ds <> [] -> parseInt ds <> NaN.
Proof.
  intros H Hne. unfold parseInt. rewrite (takeWhile_all _ _ H).
  destruct ds as [|d ds]; [congruence|].
  unfold ofInteger. destruct (_ <=? _); discriminate.
Qed.

Lemma add_not_NaN (a b : number) : a <> NaN -> b <> NaN -> add a b <> NaN.
Proof.
  destruct a as [|x|], b as [|y|]; simpl; try congruence.
  intros _ _. unfold ofInteger. destruct (_ <=? _); discriminate.
Qed.

Lemma sumUnits_not_NaN (amounts : list jsstring) :
  forall start,
    start <> NaN ->
    (forall n, In n amounts -> parseInt n <> NaN) ->
    sumUnits start amounts <> NaN.
Proof.
  induction amounts as [|n ns IH]; intros start H Hall; simpl; [exact H|].
  apply IH.
  - apply add_not_NaN; [exact H|]. apply Hall. now left.
  - intros k Hk. apply Hall. now right.
Qed.

End NumberFacts.
Import NumberFacts.

(* ================================================================== *)
(** ** Operations that leave the compute units alone *)
(* ================================================================== *)

Create HintDb units.

Lemma keeps_ret (A : Type) (a : A) : keepsUnits (ret a).
Proof. intros e b e' H. inversion H; subst. reflexivity. Qed.

Lemma keeps_throw (A : Type) (x : exn) : keepsUnits (@throw A x).
Proof. intros e b e' H. discriminate. Qed.

Lemma keeps_bind (A B : Type) (m : M A) (f : A -> M B) :
  keepsUnits m -> (forall a, keepsUnits (f a)) -> keepsUnits (bind m f).
Proof.
  intros Hm Hf e b e' H. unfold bind in H.
  destruct (m e) as [[a e1]|] eqn:E; [|discriminate].
  rewrite (Hf a _ _ _ H). exact (Hm _ _ _ E).
Qed.

Lemma keeps_if (A : Type) (c : bool) (m1 m2 : M A) :
  keepsUnits m1 -> keepsUnits m2 -> keepsUnits (if c then m1 else m2).
Proof. now destruct c. Qed.

Lemma keeps_getDepth : keepsUnits getDepth.
Proof. intros e b e' H. inversion H; subst. reflexivity. Qed.

Lemma keeps_setDepth (d : Z) : keepsUnits (setDepth d).
Proof. intros e b e' H. inversion H; subst. reflexivity. Qed.

Lemma keeps_getPrettyLogs : keepsUnits getPrettyLogs.
Proof. intros e b e' H. inversion H; subst. reflexivity. Qed.

Lemma keeps_getCurrentProgram : keepsUnits getCurrentProgram.
Proof. intros e b e' H. inversion H; subst. reflexivity. Qed.

Lemma keeps_setCurrentProgram (l : list jsstring) : keepsUnits (setCurrentProgram l).
Proof. intros e b e' H. inversion H; subst. reflexivity. Qed.

Lemma keeps_prefixBuilder (level : Z) : keepsUnits (prefixBuilder level).
Proof.
  intros e b e' H. rewrite prefixBuilder_run in H. inversion H; subst. reflexivity.
Qed.

#[export] Hint Resolve keeps_ret keeps_throw keeps_bind keeps_if keeps_getDepth
  keeps_setDepth keeps_getPrettyLogs keeps_getCurrentProgram
  keeps_setCurrentProgram keeps_prefixBuilder : units.

Lemma keeps_incDepth : keepsUnits incDepth.
Proof. unfold incDepth. auto with units. Qed.

Lemma keeps_decDepth : keepsUnits decDepth.
Proof. unfold decDepth. auto with units. Qed.

Lemma keeps_pushProgram (a : jsstring) : keepsUnits (pushProgram a).
Proof. unfold pushProgram. auto with units. Qed.

Lemma keeps_popProgram : keepsUnits popProgram.
Proof. unfold popProgram. auto with units. Qed.

Lemma keeps_traceAt (i : Z) : keepsUnits (traceAt i).
Proof.
  unfold traceAt. apply keeps_bind; [auto with units|].
  intros pl. destruct (at_ pl i); auto with units.
Qed.

Lemma updateNth_units (f : InstructionLogs -> InstructionLogs) :
  (forall t, computeUnits (f t) = computeUnits t) ->
  forall pl n pl', updateNth f pl n = Some pl' ->
                   map computeUnits pl' = map computeUnits pl.
Proof.
  intros Hf. induction pl as [|t pl IH]; intros [|n] pl' H; simpl in H;
    try discriminate.
  - inversion H; subst. simpl. now rewrite Hf.
  - destruct (updateNth f pl n) as [pl1|] eqn:E; [|discriminate].
    inversion H; subst. simpl. now rewrite (IH _ _ E).
Qed.

Lemma keeps_modifyAt (i : Z) (f : InstructionLogs -> InstructionLogs) :
  (forall t, computeUnits (f t) = computeUnits t) -> keepsUnits (modifyAt i f).
Proof.
  intros Hf e b e' H.
  unfold modifyAt, bind, getPrettyLogs, setPrettyLogs, updateAt in H.
  destruct (i <? 0); [discriminate|].
  destruct (updateNth f (prettyLogs e) (Z.to_nat i)) as [pl'|] eqn:E; [|discriminate].
  inversion H; subst. unfold units. simpl. exact (updateNth_units f Hf _ _ _ E).
Qed.

Lemma keeps_modifyLast (f : InstructionLogs -> InstructionLogs) :
  (forall t, computeUnits (f t) = computeUnits t) -> keepsUnits (modifyLast f).
Proof.
  intros Hf. unfold modifyLast, lastIndex.
  apply keeps_bind; [auto with units|]. intros i. now apply keeps_modifyAt.
Qed.

Lemma keeps_lastTrace : keepsUnits lastTrace.
Proof.
  unfold lastTrace, lastIndex.
  apply keeps_bind; [auto with units|]. intros i. apply keeps_traceAt.
Qed.

Lemma keeps_pushToLast (sty : Style) (txt : jsstring) : keepsUnits (pushToLast sty txt).
Proof.
  unfold pushToLast.
  apply keeps_bind; [apply keeps_lastTrace|]. intros _.
  apply keeps_bind; [auto with units|]. intros d.
  apply keeps_bind; [auto with units|]. intros pfx.
  now apply keeps_modifyLast.
Qed.

#[export] Hint Resolve keeps_incDepth keeps_decDepth keeps_pushProgram
  keeps_popProgram keeps_traceAt keeps_lastTrace keeps_pushToLast : units.

Lemma keeps_replacePieces (f : Match -> M jsstring) (ps : list piece) :
  (forall m, keepsUnits (f m)) -> keepsUnits (replacePieces ps f).
Proof.
  intros Hf. induction ps as [|[c|m] ps IH]; simpl; auto 6 with units.
Qed.

(** Compute units read by index. *)
Lemma unitsAt_app_zero (us : list number) (i : nat) :
  unitsAt (us ++ [Int 0]) i = unitsAt us i.
Proof.
  unfold unitsAt. destruct (Nat.lt_ge_cases i (length us)) as [H|H].
  - now rewrite app_nth1.
  - rewrite app_nth2 by exact H. rewrite (nth_overflow us) by exact H.
    destruct (i - length us)%nat as [|[|k]]; reflexivity.
Qed.

Lemma unitsAt_last (us : list number) (u : number) :
  unitsAt (us ++ [u]) (length us) = u.
Proof. unfold unitsAt. now rewrite nth_middle. Qed.

Lemma unitsAt_not_last (us : list number) (u v : number) (i : nat) :
  i <> length us -> unitsAt (us ++ [u]) i = unitsAt (us ++ [v]) i.
Proof.
  intros Hi. unfold unitsAt. destruct (Nat.lt_ge_cases i (length us)) as [H|H].
  - now rewrite !app_nth1.
  - rewrite !app_nth2 by exact H.
    destruct (i - length us)%nat as [|[|k]] eqn:E; try reflexivity. lia.
Qed.

Lemma unitsAt_nth_error (pl : list InstructionLogs) (i : nat) (t : InstructionLogs) :
  nth_error pl i = Some t -> unitsAt (map computeUnits pl) i = computeUnits t.
Proof.
  intros H. unfold unitsAt.
  rewrite (nth_indep _ (Int 0) (computeUnits t)).
  - rewrite map_nth. f_equal. now apply nth_error_nth.
  - rewrite length_map. apply nth_error_Some. congruence.
Qed.

(** Sums of amounts. *)
Lemma sumUnits_app (start : number) (a b : list jsstring) :
  sumUnits start (a ++ b) = sumUnits (sumUnits start a) b.
Proof. unfold sumUnits. apply fold_left_app. Qed.

(* ================================================================== *)
(** ** Sums of amounts as integers *)
(* ================================================================== *)

(** The value of a run of digits, read from the left as
    [Number.parseInt] does and by the weight of each digit. *)
Lemma digits_from_decimal (ds : jsstring) :
  forall acc,
    fold_left (fun acc d => 10 * acc + (Z.of_N d - 48)) ds acc
    = acc * 10 ^ Z.of_nat (length ds) + decimalValue ds.
Proof.
  induction ds as [|d ds IH]; intros acc; cbn [fold_left decimalValue length].
  - change (10 ^ Z.of_nat 0) with 1. lia.
  - rewrite IH, Nat2Z.inj_succ, Z.pow_succ_r by lia. ring.
Qed.

Lemma digitsValue_decimal (ds : jsstring) : digitsValue ds = decimalValue ds.
Proof. unfold digitsValue. rewrite digits_from_decimal. lia. Qed.

Lemma decimalValue_nonNegative (ds : jsstring) :
  forallb isDigit ds = true -> 0 <= decimalValue ds.
Proof.
  intros H. rewrite <- digitsValue_decimal.
  apply digits_from_nonNegative; [lia|exact H].
Qed.

Lemma total_nonNegative (amounts : list jsstring) :
  Forall (fun n => forallb isDigit n = true) amounts -> 0 <= total amounts.
Proof.
  induction 1 as [|n ns Hn _ IH]; simpl; [lia|].
  pose proof (decimalValue_nonNegative n Hn). lia.
Qed.

(** [Number.parseInt] on a run of digits. *)
Lemma parseInt_value (ds : jsstring) :
  forallb isDigit ds = true -> ds <> [] ->
  parseInt ds = ofInteger (decimalValue ds).
Proof.
  intros H Hne. unfold parseInt. rewrite (takeWhile_all _ _ H).
  destruct ds as [|d ds]; [congruence|]. now rewrite digitsValue_decimal.
Qed.

(** The addition of the code on integers that are not negative. *)
Lemma add_ofInteger (a b : Z) :
  0 <= a -> 0 <= b -> add (ofInteger a) (ofInteger b) = ofInteger (a + b).
Proof.
  intros Ha Hb. unfold ofInteger.
  destruct (Z.leb_spec a MAX_SAFE_INTEGER), (Z.leb_spec b MAX_SAFE_INTEGER);
    cbn [add]; unfold ofInteger;
    destruct (Z.leb_spec (a + b) MAX_SAFE_INTEGER); try reflexivity; lia.
Qed.

(** One empty amount makes the sum [NaN], whatever else is added. *)
Lemma sumUnits_NaN (amounts : list jsstring) : sumUnits NaN amounts = NaN.
Proof. induction amounts as [|n ns IH]; [reflexivity|exact IH]. Qed.

Lemma sumUnits_empty_amount (amounts : list jsstring) :
  forall start, In [] amounts -> sumUnits start amounts = NaN.
Proof.
  induction amounts as [|n ns IH]; intros start H; [contradiction|].
  destruct H as [->|H].
  - unfold sumUnits. cbn [fold_left].
    replace (add start (parseInt [])) with NaN by (now destruct start).
    apply sumUnits_NaN.
  - unfold sumUnits. cbn [fold_left]. apply IH, H.
Qed.

(** Without an empty amount the sum is that of the integers, as long
    as a double holds it exactly. *)
Lemma sumUnits_total (amounts : list jsstring) :
  forall s,
    0 <= s ->
    Forall (fun n => forallb isDigit n = true) amounts ->
    ~ In [] amounts ->
    sumUnits (ofInteger s) amounts = ofInteger (s + total amounts).
Proof.
  induction amounts as [|n ns IH]; intros s Hs Hd Hne.
  - simpl. now rewrite Z.add_0_r.
  - inversion Hd as [|? ? Hn Hns]; subst.
    unfold sumUnits. cbn [fold_left total fold_right].
    rewrite (parseInt_value n Hn) by (intros ->; apply Hne; now left).
    pose proof (decimalValue_nonNegative n Hn) as Hv.
    rewrite (add_ofInteger _ _ Hs Hv).
    fold (sumUnits (ofInteger (s + decimalValue n)) ns).
    rewrite IH; [f_equal; unfold total; lia|lia|exact Hns|].
    intros H. apply Hne. now right.
Qed.

(** The amounts of consumption markers are runs of digits. *)
Lemma consumed_amount_digits (log : jsstring) (m : Match) :
  In m (matchAll reConsumed log) -> forallb isDigit (group 1 m) = true.
Proof.
  intros H. apply matchAll_sound in H as [pre [rest [_ H]]].
  apply reConsumed_shape in H as [a [ds [r [_ [Hc [_ [Hd _]]]]]]].
  unfold group. now rewrite Hc.
Qed.

Lemma consumedFor_digits (i : nat) (p : Env * jsstring) :
  Forall (fun n => forallb isDigit n = true) (consumedFor i p).
Proof.
  destruct p as [e log]. unfold consumedFor.
  destruct (_ && _ && _); [|constructor].
  apply Forall_forall. intros n Hn. apply in_map_iff in Hn as [m [<- Hm]].
  exact (consumed_amount_digits _ _ Hm).
Qed.

Lemma counted_amounts_digits (i : nat) (ps : list (Env * jsstring)) :
  Forall (fun n => forallb isDigit n = true) (flat_map (consumedFor i) ps).
Proof.
  induction ps as [|p ps IH]; simpl; [constructor|].
  apply Forall_app. split; [apply consumedFor_digits|exact IH].
Qed.

(** The sum of the counted amounts, in closed form. *)
Lemma sumUnits_closed (i : nat) (ps : list (Env * jsstring)) :
  let amounts := flat_map (consumedFor i) ps in
  (In [] amounts -> sumUnits (Int 0) amounts = NaN)
  /\ (~ In [] amounts -> total amounts <= MAX_SAFE_INTEGER ->
      sumUnits (Int 0) amounts = Int (total amounts))
  /\ (~ In [] amounts -> MAX_SAFE_INTEGER < total amounts ->
      sumUnits (Int 0) amounts = Huge).
Proof.
  intros amounts.
  assert (H : ~ In [] amounts ->
              sumUnits (Int 0) amounts = ofInteger (total amounts)).
  { intros Hne. change (Int 0) with (ofInteger 0).
    rewrite (sumUnits_total amounts 0); [reflexivity|lia| |exact Hne].
    apply counted_amounts_digits. }
  split; [apply sumUnits_empty_amount|]. split.
  - intros Hne Hle. rewrite (H Hne). unfold ofInteger.
    apply Z.leb_le in Hle. now rewrite Hle.
  - intros Hne Hlt. rewrite (H Hne). unfold ofInteger.
    apply Z.leb_gt in Hlt. now rewrite Hlt.
Qed.

(* ================================================================== *)
(** ** The replacement of consumption markers *)
(* ================================================================== *)

Lemma bind_inv (A B : Type) (m : M A) (f : A -> M B) (e e' : Env) (b : B) :
  bind m f e = Returns (b, e') ->
  exists a e1, m e = Returns (a, e1) /\ f a e1 = Returns (b, e').
Proof.
  unfold bind. destruct (m e) as [[a e1]|]; [eauto|discriminate].
Qed.

Lemma consumedCallback_units (m : Match) (e e1 : Env) (out : jsstring) :
  consumedCallback m e = Returns (out, e1) ->
  depth e1 = depth e
  /\ length (units e1) = length (units e)
  /\ forall i,
       unitsAt (units e1) i
       = if counted e i
         then add (unitsAt (units e) i) (parseInt (group 1 m))
         else unitsAt (units e) i.
Proof.
  unfold consumedCallback, counted. intros H.
  apply bind_inv in H as [d [e0 [Hd H]]]. inversion Hd; subst; clear Hd.
  apply bind_inv in H as [[] [e2 [Hm H]]]. inversion H; subst; clear H.
  destruct (depth e0 =? 1) eqn:E.
  - destruct (list_last_cases _ (prettyLogs e0)) as [Hn|[init [x Hx]]].
    + rewrite (modifyLast_throw _ _ Hn) in Hm. discriminate.
    + rewrite (modifyLast_run _ _ _ _ Hx) in Hm. inversion Hm; subst; clear Hm.
      unfold units. simpl. rewrite Hx, !map_app, !length_app. simpl.
      split; [reflexivity|]. split; [reflexivity|].
      intros i. rewrite Nat.add_1_r. simpl.
      destruct (Nat.eqb_spec i (length (map computeUnits init))) as [->|Hi].
      * now rewrite !unitsAt_last.
      * now apply unitsAt_not_last.
  - inversion Hm; subst. auto.
Qed.

Lemma replacePieces_units (ps : list piece) :
  forall (e e' : Env) (out : jsstring),
    replacePieces ps consumedCallback e = Returns (out, e') ->
    depth e' = depth e
    /\ length (units e') = length (units e)
    /\ forall i,
         unitsAt (units e') i
         = if counted e i
           then sumUnits (unitsAt (units e) i) (map (group 1) (hits ps))
           else unitsAt (units e) i.
Proof.
  induction ps as [|[c|m] ps IH]; intros e e' out H; simpl in H.
  - inversion H; subst. repeat split. intros i. now destruct (counted e' i).
  - apply bind_inv in H as [out1 [e1 [H1 H]]]. inversion H; subst.
    exact (IH _ _ _ H1).
  - apply bind_inv in H as [rep [e1 [Hm H]]].
    apply bind_inv in H as [out1 [e2 [H1 H]]]. inversion H; subst.
    apply consumedCallback_units in Hm as [Hd [Hl Hu]].
    apply IH in H1 as [Hd' [Hl' Hu']].
    split; [congruence|]. split; [congruence|].
    intros i. rewrite Hu'.
    assert (Hc : counted e1 i = counted e i).
    { unfold counted. now rewrite Hd, Hl. }
    rewrite Hc, Hu. simpl. now destruct (counted e i).
Qed.

(* ================================================================== *)
(** ** Prefix construction *)
(* ================================================================== *)

(** C7. At an indent level [L >= 1] the prefix is [L - 1] copies of the
    indent token of two no-break spaces followed by "> ", and nothing
    is written to the console; at a level [L <= 0] one diagnostic is
    written to the console and the prefix is "> " alone. *)
Theorem prefixBuilder_by_level (L : Z) (e : Env) :
  (1 <= L ->
   prefixBuilder L e
   = Returns (concat (repeat indentToken (Z.to_nat (L - 1))) ++ lit "> ", e)
   /\ length (concat (repeat indentToken (Z.to_nat (L - 1))))
      = (2 * Z.to_nat (L - 1))%nat)
  /\ (L <= 0 ->
      prefixBuilder L e
      = Returns (lit "> ",
                 {| depth := depth e; prettyLogs := prettyLogs e;
                    currentProgram := currentProgram e;
                    console := console e ++ [diagnostic L] |})).
Proof.
  rewrite prefixBuilder_run. unfold prefixText, diagnostics. split; intros H.
  - destruct (Z.leb_spec L 0); [lia|]. rewrite app_nil_r. split.
    + destruct e; reflexivity.
    + induction (Z.to_nat (L - 1)) as [|n IH]; simpl; [reflexivity|].
      rewrite IH. lia.
  - destruct (Z.leb_spec L 0); [|lia].
    replace (Z.to_nat (L - 1)) with 0%nat by lia. reflexivity.
Qed.

(* ================================================================== *)
(** ** Properties of the loop body and of the whole function *)
(* ================================================================== *)

Section Properties.

Variable Cluster : Type.
Variable TransactionError : Type.
Variable isTruthy : TransactionError -> bool.
Variable getTransactionInstructionError : TransactionError -> option ProgramError.
Variable getProgramName : jsstring -> Cluster -> jsstring.
Variable Buffer_from_base64 : jsstring -> list N.
Variable FillLog_render : list N -> option jsstring.
Variable cluster : Cluster.

Local Abbreviation line :=
  (onLine getProgramName Buffer_from_base64 FillLog_render cluster).
Local Abbreviation other :=
  (onOther Buffer_from_base64 FillLog_render).
Local Abbreviation parse :=
  (parseProgramLogs isTruthy getTransactionInstructionError getProgramName
     Buffer_from_base64 FillLog_render cluster).

(** The tests of the loop body that lead to the last branch. *)
Lemma reaches_last_branch (log : jsstring) (e : Env) :
  reachesLastBranch log = true -> line log e = other log e.
Proof.
  unfold reachesLastBranch, isProgramLog, hasInvoke. intros H.
  repeat (apply andb_prop in H as [H ?]).
  unfold onLine.
  repeat match goal with
         | H : negb ?b = true |- _ => apply negb_true_iff in H; rewrite H
         end.
  reflexivity.
Qed.

(** A line of the last branch without a consumption marker and
    without a fill record to decode is appended as it is: into a
    synthesized trace at depth 0, into the open trace otherwise. *)
Lemma verbatim_at_zero (log : jsstring) (e : Env) :
  reachesLastBranch log = true ->
  hasConsumed log = false ->
  includes log (lit "Program data: ") && topIs (currentProgram e) manifestProgram
  = false ->
  depth e = 0 ->
  line log e
  = Returns (tt,
      {| depth := 1;
         prettyLogs :=
           prettyLogs e ++
           [{| invokedProgram := None; logs := [mutedLine log];
               computeUnits := Int 0; truncated := false; failed := false |}];
         currentProgram := currentProgram e;
         console := console e |}).
Proof.
  intros Hr Hc Hd H0. rewrite (reaches_last_branch _ _ Hr).
  assert (Hm : matchAll reConsumed log = []).
  { unfold hasConsumed in Hc. destruct (matchAll reConsumed log); [reflexivity|discriminate]. }
  destruct e as [d pl cp con]; simpl in *; subst d.
  unfold onOther. unfold bind at 1, getDepth. cbn [depth Z.eqb].
  unfold bind at 1. unfold bind at 1, pushTrace, bind at 1, getPrettyLogs, setPrettyLogs.
  cbn [depth prettyLogs currentProgram console].
  unfold incDepth, bind at 1, getDepth, setDepth.
  cbn [depth prettyLogs currentProgram console].
  unfold bind at 1. rewrite (replace_no_match _ _ _ _ Hm).
  unfold bind at 1. erewrite pushToLast_run by reflexivity.
  unfold bind at 1, getCurrentProgram.
  cbn [depth prettyLogs currentProgram console].
  rewrite Hd. unfold ret, diagnostics. simpl. now rewrite app_nil_r.
Qed.

Lemma verbatim_in_open_trace (log : jsstring) (e : Env)
    (init : list InstructionLogs) (x : InstructionLogs) :
  reachesLastBranch log = true ->
  hasConsumed log = false ->
  includes log (lit "Program data: ") && topIs (currentProgram e) manifestProgram
  = false ->
  depth e <> 0 ->
  prettyLogs e = init ++ [x] ->
  line log e
  = Returns (tt,
      {| depth := depth e;
         prettyLogs :=
           init ++
           [{| invokedProgram := invokedProgram x;
               logs := logs x ++
                 [{| text := log; prefix := prefixText (depth e);
                     style := muted |}];
               computeUnits := computeUnits x;
               truncated := truncated x;
               failed := failed x |}];
         currentProgram := currentProgram e;
         console := console e ++ diagnostics (depth e) |}).
Proof.
  intros Hr Hc Hd H0 Hpl. rewrite (reaches_last_branch _ _ Hr).
  assert (Hm : matchAll reConsumed log = []).
  { unfold hasConsumed in Hc. destruct (matchAll reConsumed log); [reflexivity|discriminate]. }
  destruct e as [d pl cp con]; simpl in *; subst pl.
  unfold onOther. unfold bind at 1, getDepth. cbn [depth].
  apply Z.eqb_neq in H0. rewrite H0.
  unfold bind at 1, ret at 1.
  unfold bind at 1. rewrite (replace_no_match _ _ _ _ Hm).
  unfold bind at 1. erewrite pushToLast_run by reflexivity.
  unfold bind at 1, getCurrentProgram.
  cbn [depth prettyLogs currentProgram console].
  rewrite Hd. reflexivity.
Qed.

(** The branches other than the last one and the invocation. *)
Lemma keeps_onProgramLog (log : jsstring) : keepsUnits (onProgramLog log).
Proof.
  unfold onProgramLog, replace.
  apply keeps_bind; [|auto with units].
  apply keeps_replacePieces. auto with units.
Qed.

Lemma keeps_onTruncated : keepsUnits onTruncated.
Proof. now apply keeps_modifyLast. Qed.

Lemma keeps_onSuccess : keepsUnits onSuccess.
Proof. unfold onSuccess. auto with units. Qed.

Lemma keeps_onFailed (log : jsstring) : keepsUnits (onFailed log).
Proof.
  unfold onFailed.
  apply keeps_bind; [auto with units|]. intros _.
  apply keeps_bind; [now apply keeps_modifyLast|]. intros _.
  auto 7 with units.
Qed.

Lemma keeps_onProgramData (log : jsstring) :
  keepsUnits (onProgramData Buffer_from_base64 FillLog_render log).
Proof.
  unfold onProgramData. cbv zeta.
  apply keeps_if; [|auto with units].
  destruct (FillLog_render _); auto with units.
Qed.

(** An invocation opens a trace with zero units at depth 0 and keeps
    the units otherwise. *)
Lemma onInvoke_units (matches : list Match) (e e' : Env) :
  onInvoke getProgramName cluster matches e = Returns (tt, e') ->
  units e' = units e ++ (if depth e =? 0 then [Int 0] else []).
Proof.
  unfold onInvoke. cbv zeta. intros H.
  apply bind_inv in H as [[] [e1 [H1 H]]].
  apply bind_inv in H as [d [e2 [H2 H]]]. inversion H2; subst; clear H2.
  apply bind_inv in H as [[] [e3 [H3 H]]].
  apply keeps_incDepth in H. rewrite H.
  pose proof (keeps_pushProgram _ _ _ _ H1) as U1.
  assert (D1 : depth e2 = depth e) by (inversion H1; reflexivity).
  rewrite D1 in H3.
  destruct (depth e =? 0).
  - inversion H3; subst. unfold units in *. simpl. rewrite map_app, U1. reflexivity.
  - apply keeps_pushToLast in H3. rewrite H3, U1. now rewrite app_nil_r.
Qed.

(** The last branch adds the amounts of the line to the trace it
    writes to when it runs at depth 1, and to no other trace. *)
Lemma other_units (log : jsstring) (e e' : Env) :
  other log e = Returns (tt, e') ->
  forall i,
    unitsAt (units e') i
    = sumUnits (unitsAt (units e) i)
        (if (depthInside e =? 1) && Nat.eqb (openTrace e) i
         then map (group 1) (matchAll reConsumed log) else []).
Proof.
  unfold onOther. intros H i.
  apply bind_inv in H as [d [e0 [Hd H]]]. inversion Hd; subst; clear Hd.
  apply bind_inv in H as [[] [e1 [H1 H]]].
  apply bind_inv in H as [log' [e2 [H2 H]]].
  assert (Htail : units e' = units e2).
  { revert H. apply keeps_bind; [auto with units|]. intros _.
    apply keeps_bind; [auto with units|]. intros cp.
    apply keeps_if; [apply keeps_onProgramData|auto with units]. }
  apply replacePieces_units in H2 as [Hd2 [Hl2 Hu2]].
  rewrite Htail, Hu2. unfold counted, depthInside, openTrace.
  destruct (depth e0 =? 0) eqn:E0.
  - apply bind_inv in H1 as [[] [e3 [H3 H1]]].
    inversion H3; subst; clear H3. inversion H1; subst; clear H1.
    unfold units. simpl. rewrite map_app, length_app, length_map. simpl.
    rewrite Nat.add_1_r. simpl. rewrite unitsAt_app_zero.
    apply Z.eqb_eq in E0. rewrite E0. cbn [Z.add Z.eqb Pos.eqb andb].
    rewrite (Nat.eqb_sym i). now destruct (Nat.eqb (length (prettyLogs e0)) i).
  - inversion H1; subst; clear H1.
    unfold units at 1. rewrite length_map. rewrite (Nat.eqb_sym i).
    now destruct ((depth e1 =? 1) && Nat.eqb (pred (length (prettyLogs e1))) i).
Qed.

(** One line: the compute units of every trace grow by the amounts
    counted for it on that line. *)
Lemma line_units (log : jsstring) (e e' : Env) :
  line log e = Returns (tt, e') ->
  forall i,
    unitsAt (units e') i
    = sumUnits (unitsAt (units e) i) (consumedFor i (e, log)).
Proof.
  intros H i. unfold consumedFor.
  destruct (reachesLastBranch log) eqn:R.
  - rewrite (reaches_last_branch _ _ R) in H. exact (other_units _ _ _ H i).
  - simpl. revert H. unfold onLine.
    unfold reachesLastBranch, isProgramLog, hasInvoke in R.
    destruct (startsWith log (lit "Program log:")).
    { intros H. now rewrite (keeps_onProgramLog _ _ _ _ H). }
    destruct (startsWith log (lit "Log truncated")).
    { intros H. now rewrite (keeps_onTruncated _ _ _ H). }
    cbv zeta.
    destruct (0 <? length (matchAll reInvoke log))%nat.
    { intros H. rewrite (onInvoke_units _ _ _ H).
      destruct (depth e =? 0); [apply unitsAt_app_zero|now rewrite app_nil_r]. }
    destruct (includes log (lit "success")).
    { intros H. now rewrite (keeps_onSuccess _ _ _ H). }
    destruct (includes log (lit "failed")).
    { intros H. now rewrite (keeps_onFailed _ _ _ _ H). }
    discriminate.
Qed.

(** The loop: the compute units of every trace are the sum of the
    amounts counted for it. *)
Lemma loop_units (lines : list jsstring) :
  forall (e e' : Env),
    forEach lines line e = Returns (tt, e') ->
    forall i,
      unitsAt (units e') i
      = sumUnits (unitsAt (units e) i)
          (flat_map (consumedFor i)
             (history getProgramName Buffer_from_base64 FillLog_render cluster
                lines e)).
Proof.
  induction lines as [|l ls IH]; intros e e' H i.
  - inversion H; subst. reflexivity.
  - cbn [forEach] in H. apply bind_inv in H as [[] [e1 [H1 H]]].
    cbn [history flat_map]. rewrite H1, sumUnits_app.
    rewrite <- (line_units _ _ _ H1 i). exact (IH _ _ H i).
Qed.

(** The two steps after the loop add at most a trace with zero
    units. *)
Lemma postPass_units (pe : option ProgramError) (e e' : Env) :
  postPass pe e = Returns (tt, e') ->
  forall i, unitsAt (units e') i = unitsAt (units e) i.
Proof.
  unfold postPass. intros H i.
  apply bind_inv in H as [[] [e1 [H1 H]]].
  assert (H2 : units e' = units e1).
  { revert H. unfold attributeError.
    apply keeps_bind; [auto with units|]. intros pl.
    destruct pe as [pe|]; [|auto with units].
    apply keeps_if; [|auto with units].
    apply keeps_bind; [auto with units|]. intros failedIx.
    apply keeps_if; [|auto with units].
    apply keeps_bind; [now apply keeps_modifyAt|]. intros _.
    apply keeps_bind; [auto with units|]. intros pfx.
    now apply keeps_modifyAt. }
  rewrite H2. unfold addEmptyFailedTrace in H1.
  apply bind_inv in H1 as [pl [e2 [Hp H1]]]. inversion Hp; subst; clear Hp.
  destruct pe as [pe|]; [|inversion H1; reflexivity].
  destruct (Nat.eqb (length (prettyLogs e2)) 0); [|inversion H1; reflexivity].
  inversion H1; subst. unfold units. simpl. rewrite map_app. simpl.
  apply unitsAt_app_zero.
Qed.

(** The whole function. *)
Lemma parse_units (lines : list jsstring) (error : option TransactionError)
    (res : list InstructionLogs) :
  parse lines error = Returns res ->
  forall i,
    unitsAt (map computeUnits res) i
    = sumUnits (Int 0)
        (flat_map (consumedFor i)
           (history getProgramName Buffer_from_base64 FillLog_render cluster
              lines initial)).
Proof.
  unfold parseProgramLogs, parseProgramLogsM. intros H i.
  destruct (bind _ _ initial) as [[r ef]|] eqn:E; [|discriminate].
  inversion H; subst; clear H.
  apply bind_inv in E as [[] [e1 [H1 E]]].
  apply bind_inv in E as [[] [e2 [H2 E]]].
  inversion E; subst; clear E.
  change (map computeUnits (prettyLogs ef)) with (units ef).
  rewrite (postPass_units _ _ _ H2 i), (loop_units _ _ _ H1 i).
  destruct i as [|i]; reflexivity.
Qed.

(** Below depth 1 no line changes the compute units. *)
Lemma line_units_deep (log : jsstring) (e e' : Env) :
  2 <= depth e -> line log e = Returns (tt, e') -> units e' = units e.
Proof.
  intros Hd. unfold onLine.
  destruct (startsWith log (lit "Program log:")); [apply keeps_onProgramLog|].
  destruct (startsWith log (lit "Log truncated")); [apply keeps_onTruncated|].
  cbv zeta.
  destruct (0 <? length (matchAll reInvoke log))%nat.
  { intros H. rewrite (onInvoke_units _ _ _ H).
    destruct (Z.eqb_spec (depth e) 0); [lia|apply app_nil_r]. }
  destruct (includes log (lit "success")); [apply keeps_onSuccess|].
  destruct (includes log (lit "failed")); [apply keeps_onFailed|].
  unfold onOther. intros H.
  apply bind_inv in H as [d [e0 [Hd0 H]]]. inversion Hd0; subst; clear Hd0.
  apply bind_inv in H as [[] [e1 [H1 H]]].
  destruct (Z.eqb_spec (depth e0) 0); [lia|]. inversion H1; subst; clear H1.
  apply bind_inv in H as [log' [e2 [H2 H]]].
  assert (Htail : units e' = units e2).
  { revert H. apply keeps_bind; [auto with units|]. intros _.
    apply keeps_bind; [auto with units|]. intros cp.
    apply keeps_if; [apply keeps_onProgramData|auto with units]. }
  apply replacePieces_units in H2 as [_ [Hl2 Hu2]].
  rewrite Htail. apply (nth_ext _ _ (Int 0) (Int 0) Hl2).
  intros i _. specialize (Hu2 i). unfold counted in Hu2.
  destruct (Z.eqb_spec (depth e1) 1); [lia|exact Hu2].
Qed.

Lemma history_lines (lines : list jsstring) :
  forall (e e0 : Env) (log : jsstring),
    In (e, log)
       (history getProgramName Buffer_from_base64 FillLog_render cluster lines e0) ->
    In log lines.
Proof.
  induction lines as [|l ls IH]; intros e e0 log H; simpl in H; [contradiction|].
  destruct H as [H|H]; [inversion H; now left|right].
  destruct (line l e0) as [[[] e1]|]; [eauto|contradiction].
Qed.

(** A line that an earlier rule takes changes no compute units: it
    leaves them as they are, or opens a trace with zero units. *)
Lemma early_rules_units (log : jsstring) (e e' : Env) :
  reachesLastBranch log = false ->
  line log e = Returns (tt, e') ->
  units e' = units e ++ (if opensTrace (e, log) then [Int 0] else []).
Proof.
  unfold opensTrace, reachesInvoke. cbn [fst snd]. intros R. rewrite R.
  revert R. unfold reachesLastBranch, isProgramLog, hasInvoke, onLine.
  destruct (startsWith log (lit "Program log:")).
  { intros _ H. rewrite (keeps_onProgramLog _ _ _ _ H).
    now rewrite andb_false_r, app_nil_r. }
  destruct (startsWith log (lit "Log truncated")).
  { intros _ H. rewrite (keeps_onTruncated _ _ _ H).
    now rewrite andb_false_r, app_nil_r. }
  cbv zeta. cbn [negb andb orb].
  destruct (0 <? length (matchAll reInvoke log))%nat.
  { intros _ H. rewrite (onInvoke_units _ _ _ H). now rewrite andb_true_r. }
  cbn [negb andb].
  destruct (includes log (lit "success")).
  { intros _ H. rewrite (keeps_onSuccess _ _ _ H).
    now rewrite andb_false_r, app_nil_r. }
  destruct (includes log (lit "failed")).
  { intros _ H. rewrite (keeps_onFailed _ _ _ _ H).
    now rewrite andb_false_r, app_nil_r. }
  discriminate.
Qed.

(** C3 (amended).  When the function returns, the compute units of
    the trace at each index are the sum of the amounts of the
    consumption markers that the last branch processed for that trace
    while the depth was exactly 1: [NaN] as soon as one of these
    amounts is empty; otherwise the integer sum of the numbers the
    amounts denote while that sum is at most 2^53 - 1, and a double
    beyond it once the sum is larger.  A line that an earlier rule
    takes (a program log, a truncation notice, a line with an
    invocation marker or one that includes "success" or "failed") is
    not counted, whatever consumption marker it holds: it leaves the
    compute units of every trace as they are and at most opens a trace
    with zero units.  And a line processed at depth 2 or deeper leaves
    the compute units of every trace, and the number of traces,
    unchanged. *)
Theorem computeUnits_sum_at_depth_one (lines : list jsstring)
    (error : option TransactionError) (res : list InstructionLogs) :
  parse lines error = Returns res ->
  (forall i t,
      nth_error res i = Some t ->
      let amounts :=
        flat_map (consumedFor i)
          (history getProgramName Buffer_from_base64 FillLog_render cluster
             lines initial) in
      (In [] amounts -> computeUnits t = NaN)
      /\ (~ In [] amounts -> total amounts <= MAX_SAFE_INTEGER ->
          computeUnits t = Int (total amounts))
      /\ (~ In [] amounts -> MAX_SAFE_INTEGER < total amounts ->
          computeUnits t = Huge))
  /\ (forall e log e',
        reachesLastBranch log = false ->
        line log e = Returns (tt, e') ->
        map computeUnits (prettyLogs e')
        = map computeUnits (prettyLogs e)
          ++ (if opensTrace (e, log) then [Int 0] else []))
  /\ (forall e log e',
        2 <= depth e ->
        line log e = Returns (tt, e') ->
        map computeUnits (prettyLogs e') = map computeUnits (prettyLogs e)).
Proof.
  intros H. split; [|split].
  - intros i t Ht. cbv zeta.
    rewrite <- (unitsAt_nth_error _ _ _ Ht), (parse_units _ _ _ H i).
    apply sumUnits_closed.
  - intros e log e' Hr Hl. exact (early_rules_units _ _ _ Hr Hl).
  - intros e log e' Hd Hl. exact (line_units_deep _ _ _ Hd Hl).
Qed.

(** C9 (amended).  When the function returns and no consumption
    marker of the input has an empty amount, the compute units of every
    returned trace are a non-negative integer of at most 2^53 - 1 or,
    once the sum has left that range, a double beyond it. *)
Theorem computeUnits_not_negative (lines : list jsstring)
    (error : option TransactionError) (res : list InstructionLogs) :
  parse lines error = Returns res ->
  amountsPresent lines ->
  forall t,
    In t res ->
    (exists z, computeUnits t = Int z /\ 0 <= z <= MAX_SAFE_INTEGER)
    \/ computeUnits t = Huge.
Proof.
  intros H Hp t Ht. apply In_nth_error in Ht as [i Hi].
  pose proof (parse_units _ _ _ H i) as E.
  rewrite (unitsAt_nth_error _ _ _ Hi) in E.
  assert (Hnn : nonNegative (computeUnits t)).
  { rewrite E. apply sumUnits_nonNegative. simpl. unfold MAX_SAFE_INTEGER. lia. }
  assert (Hnan : computeUnits t <> NaN).
  { rewrite E. apply sumUnits_not_NaN; [discriminate|].
    intros n Hn. apply in_flat_map in Hn as [[e log] [Hh Hn]].
    apply history_lines in Hh. unfold consumedFor in Hn.
    destruct (_ && _); [|contradiction].
    apply in_map_iff in Hn as [m [<- Hm]].
    pose proof (Hp _ _ Hh Hm) as Hne.
    apply matchAll_sound in Hm as [pre [rest [_ D]]].
    apply reConsumed_shape in D as [a [ds [r [_ [Hc [_ [Hds _]]]]]]].
    unfold group in *. rewrite Hc in *. simpl in *.
    now apply parseInt_digits. }
  destruct (nonNegative_cases _ Hnn) as [Hc|[Hc|Hc]]; [congruence|now right|now left].
Qed.

(** C1. A first line that is a program log, a truncation notice, a
    success marker or a failure marker is processed while no trace is
    open: the function reads a property of [undefined] and throws. *)
Theorem parseProgramLogs_throws_without_open_trace
    (error : option TransactionError) (rest : list jsstring) :
  parse (lit "Program log: hello" :: rest) error = Throws TypeError
  /\ parse (lit "Log truncated" :: rest) error = Throws TypeError
  /\ parse (lit "Program A success" :: rest) error = Throws TypeError
  /\ parse (lit "Program A failed: custom program error: 0x1" :: rest) error
     = Throws TypeError.
Proof. repeat split; reflexivity. Qed.

Lemma truncation_is_no_program_log (log : jsstring) :
  startsWith log (lit "Log truncated") = true ->
  startsWith log (lit "Program log:") = false.
Proof.
  intros H. apply startsWith_true in H. rewrite H. reflexivity.
Qed.

(** C5. A line that starts with "Log truncated", processed while a
    trace is open, sets [truncated] on the last trace and changes
    nothing else: the depth, the invocation stack, the console, the
    number of traces, every other trace and the other four fields of
    the last trace are as before. *)
Theorem truncation_only_sets_flag (log : jsstring) (e : Env)
    (init : list InstructionLogs) (x : InstructionLogs) :
  startsWith log (lit "Log truncated") = true ->
  prettyLogs e = init ++ [x] ->
  exists x',
    line log e
    = Returns (tt, {| depth := depth e; prettyLogs := init ++ [x'];
                      currentProgram := currentProgram e;
                      console := console e |})
    /\ truncated x' = true
    /\ invokedProgram x' = invokedProgram x
    /\ logs x' = logs x
    /\ computeUnits x' = computeUnits x
    /\ failed x' = failed x.
Proof.
  intros Ht Hpl. exists (setTruncated x).
  unfold onLine. rewrite (truncation_is_no_program_log _ Ht), Ht.
  unfold onTruncated. rewrite (modifyLast_run _ _ _ _ Hpl).
  repeat split; reflexivity.
Qed.


(** C4 (amended).  A line that includes "failed" and reaches the
    failure rule (it is no program log, no truncation notice, has no
    invocation marker and does not include "success"), processed
    while a trace is open, pops the invocation stack, marks the last
    trace failed and appends exactly one warning line to it.  When
    the line does not start with "failed", the line is built at the
    current depth, its text is the quoted remainder of the line after
    "Program returned error: " (for a line that contains ": ", the
    text after its first occurrence), and the depth decreases by one.
    When the line starts with "failed", the depth is first raised by
    one, the line is built at the raised depth, its text is the line
    with a capital F, and the depth is then lowered by one. *)
Theorem failure_rule (log : jsstring) (e : Env)
    (init : list InstructionLogs) (x : InstructionLogs) :
  isProgramLog log = false ->
  startsWith log (lit "Log truncated") = false ->
  hasInvoke log = false ->
  includes log (lit "success") = false ->
  includes log (lit "failed") = true ->
  prettyLogs e = init ++ [x] ->
  (startsWith log (lit "failed") = false ->
   line log e
   = Returns (tt,
       {| depth := depth e - 1;
          prettyLogs :=
            init ++
            [{| invokedProgram := invokedProgram x;
                logs := logs x ++
                  [{| text := lit "Program returned error: " ++ quote
                                ++ slice log (indexOf log (lit ": ") + 2) ++ quote;
                      prefix := prefixText (depth e);
                      style := warning |}];
                computeUnits := computeUnits x;
                truncated := truncated x;
                failed := true |}];
          currentProgram := removelast (currentProgram e);
          console := console e ++ diagnostics (depth e) |})
   /\ forall pre m,
        log = pre ++ lit ": " ++ m -> includes pre (lit ": ") = false ->
        slice log (indexOf log (lit ": ") + 2) = m)
  /\ (startsWith log (lit "failed") = true ->
      exists rest,
        log = lit "failed" ++ rest
        /\ line log e
           = Returns (tt,
               {| depth := depth e + 1 - 1;
                  prettyLogs :=
                    init ++
                    [{| invokedProgram := invokedProgram x;
                        logs := logs x ++
                          [{| text := lit "Failed" ++ rest;
                              prefix := prefixText (depth e + 1);
                              style := warning |}];
                        computeUnits := computeUnits x;
                        truncated := truncated x;
                        failed := true |}];
                  currentProgram := removelast (currentProgram e);
                  console := console e ++ diagnostics (depth e + 1) |})).
Proof.
  unfold isProgramLog, hasInvoke.
  intros Hlog Htr Hinv Hsucc Hfail Hpl.
  destruct e as [d pl cp con]; simpl in Hpl; subst pl.
  unfold onLine. rewrite Hlog, Htr, Hinv, Hsucc, Hfail.
  unfold onFailed, popProgram, getCurrentProgram, setCurrentProgram.
  split; intros Hst; rewrite Hst.
  - split; [|intros pre m -> Hpre; now apply slice_after_first_colon].
    do 3 (unfold bind at 1; cbn [currentProgram depth prettyLogs console]).
    erewrite modifyLast_run by reflexivity.
    cbn [currentProgram depth prettyLogs console].
    unfold bind at 1. unfold ret at 1. unfold bind at 1.
    erewrite pushToLast_run by reflexivity.
    reflexivity.
  - exists (skipn (length (lit "failed")) log).
    pose proof (startsWith_true _ _ Hst) as E.
    split; [exact E|].
    do 3 (unfold bind at 1; cbn [currentProgram depth prettyLogs console]).
    erewrite modifyLast_run by reflexivity.
    cbn [currentProgram depth prettyLogs console].
    unfold bind at 1. unfold bind at 1. unfold incDepth, bind at 1, getDepth, setDepth.
    cbn [currentProgram depth prettyLogs console]. unfold ret at 1.
    unfold bind at 1.
    erewrite pushToLast_run by reflexivity.
    cbn [currentProgram depth prettyLogs console].
    rewrite E at 1 2. reflexivity.
Qed.

(** C8 (amended).  A line "Program log: X", processed while a trace
    is open, appends exactly one muted line to the last trace, built
    at the current depth, and changes nothing else; when X holds no
    line terminator (LF, CR, U+2028, U+2029) the text of that line is
    [Program logged: ] followed by X between quotation marks, and X
    occurs in it. *)
Theorem program_log_rewritten (X : jsstring) (e : Env)
    (init : list InstructionLogs) (x : InstructionLogs) :
  prettyLogs e = init ++ [x] ->
  exists txt,
    line (lit "Program log: " ++ X) e
    = Returns (tt,
        {| depth := depth e;
           prettyLogs :=
             init ++
             [{| invokedProgram := invokedProgram x;
                 logs := logs x ++
                   [{| text := txt; prefix := prefixText (depth e);
                       style := muted |}];
                 computeUnits := computeUnits x;
                 truncated := truncated x;
                 failed := failed x |}];
           currentProgram := currentProgram e;
           console := console e ++ diagnostics (depth e) |})
    /\ (forallb isDot X = true ->
        txt = lit "Program logged: " ++ quote ++ X ++ quote
        /\ includes txt X = true).
Proof.
  intros Hpl.
  assert (Hs : startsWith (lit "Program log: " ++ X) (lit "Program log:") = true)
    by reflexivity.
  unfold onLine. rewrite Hs. unfold onProgramLog, replace.
  destruct (replacePieces_pure
              (fun m => lit "Program logged: " ++ quote ++ group 1 m ++ quote)
              (scan reProgramLog (lit "Program log: " ++ X) 0) e)
    as [txt Htxt].
  exists txt. erewrite bind_run by exact Htxt.
  rewrite (pushToLast_run _ _ _ _ _ Hpl).
  split; [reflexivity|].
  intros HX. rewrite (scan_program_log _ HX) in Htxt.
  cbn in Htxt. inversion Htxt as [E].
  split; [now rewrite app_nil_r|].
  rewrite app_nil_r.
  change (includes ((lit "Program logged: " ++ quote) ++ X ++ quote) X = true).
  apply includes_app.
Qed.

Lemma plain_lines_loop (lines : list jsstring) :
  forallb isPlain lines = true ->
  forall (t : InstructionLogs) (con : list jsstring),
    forEach lines line
      {| depth := 1; prettyLogs := [t]; currentProgram := []; console := con |}
    = Returns (tt,
        {| depth := 1;
           prettyLogs :=
             [{| invokedProgram := invokedProgram t;
                 logs := logs t ++ map mutedLine lines;
                 computeUnits := computeUnits t;
                 truncated := truncated t;
                 failed := failed t |}];
           currentProgram := []; console := con |}).
Proof.
  induction lines as [|l ls IH]; intros H t con.
  - simpl. rewrite app_nil_r. destruct t; reflexivity.
  - simpl in H. apply andb_prop in H as [Hl Hls].
    unfold isPlain in Hl. apply andb_prop in Hl as [Hr Hc].
    apply negb_true_iff in Hc.
    cbn [forEach].
    erewrite bind_run;
      [|apply (verbatim_in_open_trace l _ [] t Hr Hc);
        [apply andb_false_r|discriminate|reflexivity]].
    cbn [depth prettyLogs currentProgram console app].
    unfold diagnostics. cbn [Z.leb Z.compare]. rewrite app_nil_r.
    rewrite (IH Hls). cbn [invokedProgram logs computeUnits truncated failed].
    rewrite <- app_assoc. reflexivity.
Qed.

(** C2 (amended).  For every non-empty input whose lines are all
    plain (no line starts with "Program log:" or "Log truncated" and
    none has an invoke, consumed, success or failed marker) and a
    null error, the function returns exactly one trace: no invoked
    program, zero compute units, neither truncated nor failed, and
    as its logs the input lines in input order, each as a muted line
    at the top level. *)
Theorem plain_lines_single_trace (lines : list jsstring) :
  lines <> [] ->
  forallb isPlain lines = true ->
  parse lines None
  = Returns [{| invokedProgram := None; logs := map mutedLine lines;
                computeUnits := Int 0; truncated := false;
                failed := false |}].
Proof.
  intros Hne H. destruct lines as [|l ls]; [congruence|].
  simpl in H. apply andb_prop in H as [Hl Hls].
  unfold isPlain in Hl. apply andb_prop in Hl as [Hr Hc].
  apply negb_true_iff in Hc.
  unfold parseProgramLogs, parseProgramLogsM. cbn [forEach prettyErrorOf].
  erewrite bind_run;
    [|erewrite bind_run;
        [|apply (verbatim_at_zero l initial Hr Hc);
          [apply andb_false_r|reflexivity]];
      cbn [initial depth prettyLogs currentProgram console app];
      apply (plain_lines_loop ls Hls)].
  reflexivity.
Qed.

(** C10 (amended).  A line [Program <addr> invoke [<n>]] whose
    address is made of word characters and whose <n> has two or more
    digits is not recognized as an invocation marker: the invocation
    expression has no match in it, so the invocation rule (the push
    on the invocation stack, the increment of the depth) does not run
    and the line is dispatched by the remaining tests.  When the
    line includes neither "success" nor "failed" it reaches the last
    branch: at depth 0 a trace without program is synthesized and
    the depth becomes 1; the line is appended as it is, as a muted
    line, to the last trace; the invocation stack is unchanged. *)
Theorem two_digit_invoke_falls_through (addr n : jsstring) (e : Env) :
  forallb isWord addr = true ->
  forallb isDigit n = true ->
  (2 <= length n)%nat ->
  matchAll reInvoke (invokeLine addr n) = []
  /\ line (invokeLine addr n) e
     = (if includes (invokeLine addr n) (lit "success") then onSuccess
        else if includes (invokeLine addr n) (lit "failed")
             then onFailed (invokeLine addr n)
             else other (invokeLine addr n)) e
  /\ (includes (invokeLine addr n) (lit "success") = false ->
      includes (invokeLine addr n) (lit "failed") = false ->
      (depth e = 0 ->
       line (invokeLine addr n) e
       = Returns (tt,
           {| depth := 1;
              prettyLogs :=
                prettyLogs e ++
                [{| invokedProgram := None;
                    logs := [{| text := invokeLine addr n;
                                prefix := prefixText 1;
                                style := muted |}];
                    computeUnits := Int 0; truncated := false;
                    failed := false |}];
              currentProgram := currentProgram e;
              console := console e |}))
      /\ (forall init x,
            depth e <> 0 ->
            prettyLogs e = init ++ [x] ->
            line (invokeLine addr n) e
            = Returns (tt,
                {| depth := depth e;
                   prettyLogs :=
                     init ++
                     [{| invokedProgram := invokedProgram x;
                         logs := logs x ++
                           [{| text := invokeLine addr n;
                               prefix := prefixText (depth e);
                               style := muted |}];
                         computeUnits := computeUnits x;
                         truncated := truncated x;
                         failed := failed x |}];
                   currentProgram := currentProgram e;
                   console := console e ++ diagnostics (depth e) |}))).
Proof.
  intros Ha Hn Hl.
  pose proof (two_digits_no_invoke addr n Ha Hn Hl) as Hinv.
  pose proof (two_digits_no_consumed addr n Ha Hn) as Hcons.
  pose proof (two_digits_no_program_data addr n Ha Hn) as Hdata.
  pose proof (two_digits_no_program_log addr n Ha Hn) as Hlog.
  pose proof (two_digits_no_truncation addr n) as Htr.
  split; [exact Hinv|]. split.
  - unfold onLine. unfold isProgramLog in Hlog. now rewrite Hlog, Htr, Hinv.
  - intros Hs Hf.
    assert (Hr : reachesLastBranch (invokeLine addr n) = true).
    { unfold reachesLastBranch, hasInvoke. now rewrite Hlog, Htr, Hinv, Hs, Hf. }
    assert (Hc : hasConsumed (invokeLine addr n) = false).
    { unfold hasConsumed. now rewrite Hcons. }
    split.
    + intros H0. apply verbatim_at_zero; auto. now rewrite Hdata.
    + intros init x H0 Hpl. apply verbatim_in_open_trace; auto. now rewrite Hdata.
Qed.

End Properties.

(* ================================================================== *)
(** ** The properties on concrete inputs *)
(* ================================================================== *)

(** The prefix at level 3 and the fallback at level 0. *)
Lemma prefixBuilder_by_level_witness :
  1 <= 3
  /\ prefixBuilder 3 initial
     = Returns (indentToken ++ indentToken ++ lit "> ", initial)
  /\ 0 <= 0
  /\ prefixBuilder 0 initial
     = Returns (lit "> ",
                {| depth := 0; prettyLogs := []; currentProgram := [];
                   console := [diagnostic 0] |}).
Proof.
  split; [lia|]. split.
  - exact (proj1 (proj1 (prefixBuilder_by_level 3 initial) ltac:(lia))).
  - split; [lia|].
    exact (proj2 (prefixBuilder_by_level 0 initial) ltac:(lia)).
Defined.

(** A truncation notice inside the trace of program A. *)
Lemma truncation_only_sets_flag_witness :
  startsWith (lit "Log truncated") (lit "Log truncated") = true
  /\ prettyLogs Sample.insideA = [] ++ [Sample.traceA]
  /\ exists x',
       Sample.line (lit "Log truncated") Sample.insideA
       = Returns (tt, {| depth := 1; prettyLogs := [] ++ [x'];
                         currentProgram := [lit "A"]; console := [] |})
       /\ truncated x' = true
       /\ invokedProgram x' = invokedProgram Sample.traceA
       /\ logs x' = logs Sample.traceA
       /\ computeUnits x' = computeUnits Sample.traceA
       /\ failed x' = failed Sample.traceA.
Proof.
  split; [reflexivity|]. split; [reflexivity|].
  exact (truncation_only_sets_flag Sample.Cluster Sample.getProgramName
           Sample.Buffer_from_base64 Sample.FillLog_render tt
           (lit "Log truncated") Sample.insideA [] Sample.traceA
           eq_refl eq_refl).
Defined.


(** A failure line of program A, and a verification failure. *)
Lemma failure_rule_witness :
  let log := lit "Program A failed: custom program error: 0x1" in
  let log' := lit "failed to verify log of previous program" in
  (isProgramLog log = false /\ startsWith log (lit "Log truncated") = false
   /\ hasInvoke log = false /\ includes log (lit "success") = false
   /\ includes log (lit "failed") = true
   /\ prettyLogs Sample.insideA = [] ++ [Sample.traceA]
   /\ startsWith log (lit "failed") = false
   /\ startsWith log' (lit "failed") = true)
  /\ Sample.line log Sample.insideA
     = Returns (tt,
         {| depth := 0;
            prettyLogs :=
              [{| invokedProgram := Some (lit "A");
                  logs := [{| text := lit "Program returned error: " ++ quote
                                        ++ lit "custom program error: 0x1" ++ quote;
                              prefix := lit "> "; style := warning |}];
                  computeUnits := Int 0; truncated := false; failed := true |}];
            currentProgram := []; console := [] |})
  /\ exists rest,
       log' = lit "failed" ++ rest
       /\ Sample.line log' Sample.insideA
          = Returns (tt,
              {| depth := 1 + 1 - 1;
                 prettyLogs :=
                   [] ++
                   [{| invokedProgram := Some (lit "A");
                       logs := [] ++
                               [{| text := lit "Failed" ++ rest;
                                   prefix := prefixText (1 + 1);
                                   style := warning |}];
                       computeUnits := Int 0; truncated := false;
                       failed := true |}];
                 currentProgram := removelast [lit "A"];
                 console := [] ++ diagnostics (1 + 1) |}).
Proof.
  intros log log'. split; [repeat split|]. split.
  - exact (proj1 (proj1 (failure_rule Sample.Cluster Sample.getProgramName
                           Sample.Buffer_from_base64 Sample.FillLog_render tt
                           log Sample.insideA [] Sample.traceA
                           eq_refl eq_refl eq_refl eq_refl eq_refl eq_refl)
                    eq_refl)).
  - exact (proj2 (failure_rule Sample.Cluster Sample.getProgramName
                    Sample.Buffer_from_base64 Sample.FillLog_render tt
                    log' Sample.insideA [] Sample.traceA
                    eq_refl eq_refl eq_refl eq_refl eq_refl eq_refl)
             eq_refl).
Defined.

(** A program log of one line. *)
Lemma program_log_rewritten_witness :
  prettyLogs Sample.insideA = [] ++ [Sample.traceA]
  /\ exists txt,
       Sample.line (lit "Program log: " ++ lit "hello") Sample.insideA
       = Returns (tt,
           {| depth := 1;
              prettyLogs :=
                [] ++
                [{| invokedProgram := Some (lit "A");
                    logs := [] ++
                            [{| text := txt; prefix := prefixText 1;
                                style := muted |}];
                    computeUnits := Int 0; truncated := false;
                    failed := false |}];
              currentProgram := [lit "A"];
              console := [] ++ diagnostics 1 |})
       /\ (forallb isDot (lit "hello") = true ->
           txt = lit "Program logged: " ++ quote ++ lit "hello" ++ quote
           /\ includes txt (lit "hello") = true).
Proof.
  split; [reflexivity|].
  exact (program_log_rewritten Sample.Cluster Sample.getProgramName
           Sample.Buffer_from_base64 Sample.FillLog_render tt
           (lit "hello") Sample.insideA [] Sample.traceA eq_refl).
Defined.

(** Two plain lines. *)
Lemma plain_lines_single_trace_witness :
  let lines := [lit "hello"; lit "world"] in
  lines <> []
  /\ forallb isPlain lines = true
  /\ Sample.parse lines None
     = Returns [{| invokedProgram := None; logs := map mutedLine lines;
                   computeUnits := Int 0; truncated := false;
                   failed := false |}].
Proof.
  intros lines.
  assert (Hne : lines <> []) by discriminate.
  assert (Hplain : forallb isPlain lines = true) by reflexivity.
  split; [exact Hne|]. split; [exact Hplain|].
  exact (plain_lines_single_trace Sample.Cluster Sample.TransactionError
           Sample.isTruthy Sample.classify Sample.getProgramName
           Sample.Buffer_from_base64 Sample.FillLog_render tt
           lines Hne Hplain).
Defined.

(** The nested invocation: 100 units for the one trace, the 50 units
    reported at depth 2 are not added. *)
Lemma computeUnits_sum_at_depth_one_witness :
  let amounts := flat_map (consumedFor 0) (Sample.states Sample.nested initial) in
  Sample.parse Sample.nested None = Returns Sample.nestedResult
  /\ amounts = [lit "100"]
  /\ total amounts = 100
  /\ map computeUnits Sample.nestedResult = [Int 100]
  /\ (forall i t,
         nth_error Sample.nestedResult i = Some t ->
         let amounts :=
           flat_map (consumedFor i) (Sample.states Sample.nested initial) in
         (In [] amounts -> computeUnits t = NaN)
         /\ (~ In [] amounts -> total amounts <= MAX_SAFE_INTEGER ->
             computeUnits t = Int (total amounts))
         /\ (~ In [] amounts -> MAX_SAFE_INTEGER < total amounts ->
             computeUnits t = Huge))
  /\ (forall e log e',
         reachesLastBranch log = false ->
         Sample.line log e = Returns (tt, e') ->
         map computeUnits (prettyLogs e')
         = map computeUnits (prettyLogs e)
           ++ (if opensTrace (e, log) then [Int 0] else []))
  /\ (forall e log e',
         2 <= depth e ->
         Sample.line log e = Returns (tt, e') ->
         map computeUnits (prettyLogs e') = map computeUnits (prettyLogs e)).
Proof.
  intros amounts.
  assert (H : Sample.parse Sample.nested None = Returns Sample.nestedResult)
    by (vm_compute; reflexivity).
  split; [exact H|]. split; [vm_compute; reflexivity|].
  split; [vm_compute; reflexivity|]. split; [reflexivity|].
  exact (computeUnits_sum_at_depth_one Sample.Cluster Sample.TransactionError
           Sample.isTruthy Sample.classify Sample.getProgramName
           Sample.Buffer_from_base64 Sample.FillLog_render tt
           Sample.nested None Sample.nestedResult H).
Defined.

Lemma computeUnits_not_negative_witness :
  Sample.parse Sample.nested None = Returns Sample.nestedResult
  /\ amountsPresent Sample.nested
  /\ forall t,
       In t Sample.nestedResult ->
       (exists z, computeUnits t = Int z /\ 0 <= z <= MAX_SAFE_INTEGER)
       \/ computeUnits t = Huge.
Proof.
  assert (H : Sample.parse Sample.nested None = Returns Sample.nestedResult)
    by (vm_compute; reflexivity).
  assert (Hp : amountsPresent Sample.nested).
  { intros log m Hlog Hm.
    repeat (destruct Hlog as [<-|Hlog];
            [vm_compute in Hm;
             repeat (destruct Hm as [<-|Hm]; [discriminate|]);
             contradiction|]).
    contradiction. }
  split; [exact H|]. split; [exact Hp|].
  exact (computeUnits_not_negative Sample.Cluster Sample.TransactionError
           Sample.isTruthy Sample.classify Sample.getProgramName
           Sample.Buffer_from_base64 Sample.FillLog_render tt
           Sample.nested None Sample.nestedResult H Hp).
Defined.

(** An invocation line at depth 10 inside the trace of program A. *)
Lemma two_digit_invoke_falls_through_witness :
  let l := invokeLine (lit "B") (lit "10") in
  (forallb isWord (lit "B") = true /\ forallb isDigit (lit "10") = true
   /\ (2 <= length (lit "10"))%nat
   /\ includes l (lit "success") = false /\ includes l (lit "failed") = false
   /\ depth Sample.insideA <> 0
   /\ prettyLogs Sample.insideA = [] ++ [Sample.traceA])
  /\ matchAll reInvoke l = []
  /\ Sample.line l Sample.insideA
     = Returns (tt,
         {| depth := 1;
            prettyLogs :=
              [{| invokedProgram := Some (lit "A");
                  logs := [{| text := lit "Program B invoke [10]";
                              prefix := lit "> "; style := muted |}];
                  computeUnits := Int 0; truncated := false; failed := false |}];
            currentProgram := [lit "A"]; console := [] |}).
Proof.
  intros l.
  assert (Hd : depth Sample.insideA <> 0) by discriminate.
  assert (Hl : (2 <= length (lit "10"))%nat) by (vm_compute; lia).
  split; [repeat split; solve [assumption | reflexivity]|].
  pose (T := two_digit_invoke_falls_through Sample.Cluster Sample.getProgramName
               Sample.Buffer_from_base64 Sample.FillLog_render tt
               (lit "B") (lit "10") Sample.insideA eq_refl eq_refl Hl).
  split; [exact (proj1 T)|].
  exact (proj2 (proj2 (proj2 T) eq_refl eq_refl) [] Sample.traceA Hd eq_refl).
Defined.

(** The three sequences the specification lists as tests. *)
Example invoke_then_success :
  Sample.parse [lit "Program A invoke [1]"; lit "Program A success"] None
  = Returns [{| invokedProgram := Some (lit "A");
                logs := [{| text := lit "Program returned success";
                            prefix := lit "> "; style := success |}];
                computeUnits := Int 0; truncated := false; failed := false |}].
Proof. reflexivity. Qed.

Example invoke_consumed_failed :
  exists t,
    Sample.parse [lit "Program A invoke [1]";
                  lit "Program A consumed 100 of 200000 compute units";
                  lit "Program A failed: custom program error: 0x1"] None
    = Returns [t]
    /\ failed t = true
    /\ computeUnits t = Int 100
    /\ map text (logs t)
       = [lit "Program consumed: 100 of 200000 compute units";
          lit "Program returned error: " ++ quote
            ++ lit "custom program error: 0x1" ++ quote].
Proof. eexists. repeat split; vm_compute; reflexivity. Qed.

Example nested_invocation :
  map (fun t => map (fun m => (prefix m, style m, text m)) (logs t))
      Sample.nestedResult
  = [[(lit "> ", info, lit "Program invoked: B");
      (indentToken ++ lit "> ", muted,
       lit "Program consumed: 50 of 200000 compute units");
      (indentToken ++ lit "> ", success, lit "Program returned success");
      (lit "> ", muted, lit "Program consumed: 100 of 200000 compute units");
      (lit "> ", success, lit "Program returned success")]].
Proof. vm_compute. reflexivity. Qed.

(** In the nested invocation only the amount reported at depth 1 is
    counted for the trace. *)
Example nested_counted :
  flat_map (consumedFor 0) (Sample.states Sample.nested initial) = [lit "100"]
  /\ map (fun p => depth (fst p)) (Sample.states Sample.nested initial)
     = [0; 1; 2; 2; 1; 1].
Proof. split; vm_compute; reflexivity. Qed.

(** C2 as stated fails: the empty input has no marker and yields no
    trace at all; an input that begins with a program log has no
    invoke, consumed, success or failed marker either and throws; and
    after a plain line a truncation notice adds no log line while a
    program log is appended rewritten, not as the input line. *)
Lemma plain_lines_counterexample :
  Sample.parse [] None = Returns []
  /\ Sample.parse [lit "Program log: hi"] None = Throws TypeError
  /\ (exists t,
         Sample.parse [lit "hello"; lit "Log truncated"] None = Returns [t]
         /\ map text (logs t) = [lit "hello"])
  /\ (exists t,
         Sample.parse [lit "hello"; lit "Program log: hi"] None = Returns [t]
         /\ map text (logs t)
            = [lit "hello"; lit "Program logged: " ++ quote ++ lit "hi" ++ quote]).
Proof.
  split; [vm_compute; reflexivity|]. split; [vm_compute; reflexivity|].
  split; eexists; split; vm_compute; reflexivity.
Qed.

(** C4 as stated fails: a line that includes "failed", is no program
    log, no truncation notice and has no invocation marker, but also
    includes "success", is handled by the success rule: the last trace
    is not marked failed and the appended line is a success line. *)
Lemma failure_rule_counterexample :
  let log := lit "Program A failed: expected success" in
  includes log (lit "failed") = true
  /\ isProgramLog log = false
  /\ startsWith log (lit "Log truncated") = false
  /\ hasInvoke log = false
  /\ Sample.line log Sample.insideA
     = Returns (tt,
         {| depth := 0;
            prettyLogs :=
              [{| invokedProgram := Some (lit "A");
                  logs := [{| text := lit "Program returned success";
                              prefix := lit "> "; style := success |}];
                  computeUnits := Int 0; truncated := false;
                  failed := false |}];
            currentProgram := []; console := [] |}).
Proof. repeat split; vm_compute; reflexivity. Qed.

(** C8 as stated fails: for a message of two lines only the first
    line is quoted; the text is not the quoted message and the message
    does not occur in it. *)
Lemma program_log_counterexample :
  let X := lit "a" ++ newline ++ lit "b" in
  exists x',
    Sample.line (lit "Program log: " ++ X) Sample.insideA
    = Returns (tt, {| depth := 1; prettyLogs := [x'];
                      currentProgram := [lit "A"]; console := [] |})
    /\ map text (logs x')
       = [lit "Program logged: " ++ quote ++ lit "a" ++ quote ++ newline ++ lit "b"]
    /\ map text (logs x') <> [lit "Program logged: " ++ quote ++ X ++ quote]
    /\ forallb (fun m => includes (text m) X) (logs x') = false.
Proof.
  intros X. eexists. split; [vm_compute; reflexivity|].
  split; [vm_compute; reflexivity|].
  split; [vm_compute; discriminate|vm_compute; reflexivity].
Qed.

(** C3 as stated fails: inside the trace of program A the line
    [Program success consumed 100 of 200000 compute units] has the form
    of a consumption line and is processed at depth 1, but its address
    includes "success", so the success rule takes it: the trace
    returns with 0 compute units, not 100.  And with an empty amount
    the compute units are [NaN], not the sum of the amounts that are
    there. *)
Lemma computeUnits_sum_counterexample :
  let l := consumedLine (lit "success") (lit "100") (lit "of 200000 compute units") in
  (map (group 1) (matchAll reConsumed l) = [lit "100"]
   /\ Sample.states [lit "Program A invoke [1]"; l] initial
      = [(initial, lit "Program A invoke [1]");
         ({| depth := 1; prettyLogs := [Sample.traceA];
             currentProgram := [lit "A"]; console := [] |}, l)]
   /\ Sample.parse [lit "Program A invoke [1]"; l] None
      = Returns [{| invokedProgram := Some (lit "A");
                    logs := [{| text := lit "Program returned success";
                                prefix := lit "> "; style := success |}];
                    computeUnits := Int 0; truncated := false;
                    failed := false |}])
  /\ exists t,
       Sample.parse [lit "Program A invoke [1]";
                     lit "Program A consumed  of 200000 compute units";
                     lit "Program A consumed 100 of 200000 compute units"] None
       = Returns [t]
       /\ computeUnits t = NaN.
Proof.
  intros l. split; [repeat split; vm_compute; reflexivity|].
  eexists. split; vm_compute; reflexivity.
Qed.

(** C9 as stated fails: a consumption marker with an empty amount,
    counted at depth 1, makes the compute units NaN. *)
Lemma computeUnits_counterexample :
  exists t,
    Sample.parse [lit "Program A consumed  x"] None = Returns [t]
    /\ computeUnits t = NaN
    /\ map text (logs t) = [lit "Program consumed:  x"].
Proof. eexists. repeat split; vm_compute; reflexivity. Qed.

(** C10 as stated fails: with the address "success" the line of two
    digits is not recognized as an invocation, but it does not reach
    the last branch either: the success rule pops the invocation
    stack, lowers the depth and appends a success line instead of the
    line itself. *)
Lemma two_digit_invoke_counterexample :
  let l := invokeLine (lit "success") (lit "10") in
  forallb isWord (lit "success") = true
  /\ forallb isDigit (lit "10") = true
  /\ matchAll reInvoke l = []
  /\ Sample.line l Sample.insideA
     = Returns (tt,
         {| depth := 0;
            prettyLogs :=
              [{| invokedProgram := Some (lit "A");
                  logs := [{| text := lit "Program returned success";
                              prefix := lit "> "; style := success |}];
                  computeUnits := Int 0; truncated := false;
                  failed := false |}];
            currentProgram := []; console := [] |}).
Proof. repeat split; reflexivity. Qed.

(* ================================================================== *)
(** ** Comparison of byte arrays *)
(* ================================================================== *)

Lemma isEqualBytesLoop_decides (a : list N) :
  forall b, length a = length b -> (isEqualBytesLoop a b = true <-> a = b).
Proof.
  induction a as [|x a IH]; intros [|y b] Hl; simpl in *; try discriminate.
  - split; auto.
  - injection Hl as Hl. destruct (N.eqb_spec x y) as [->|Hxy]; simpl.
    + rewrite (IH b Hl). split; [now intros ->|now intros [= ->]].
    + split; [discriminate|intros [= E _]; contradiction].
Qed.

Lemma isEqualBytes_eq (a b : list N) :
  isEqualBytes a b = true <-> a = b.
Proof.
  unfold isEqualBytes.
  destruct (Nat.eqb_spec (length a) (length b)) as [Hl|Hl]; simpl.
  - now apply isEqualBytesLoop_decides.
  - split; [discriminate|intros ->; contradiction].
Qed.

(** X1. [isEqualBytes] decides equality of byte arrays: it answers
    true exactly when the two arrays have the same length and the same
    byte at every index, and false otherwise, also when one array is a
    proper prefix of the other. *)
Theorem isEqualBytes_decides (a b : list N) :
  (isEqualBytes a b = true <-> a = b)
  /\ (isEqualBytes a b = false <-> a <> b)
  /\ (forall c rest, isEqualBytes a (a ++ c :: rest) = false).
Proof.
  pose proof (isEqualBytes_eq a b) as H. split; [exact H|]. split.
  - destruct (isEqualBytes a b).
    + split; [discriminate|]. intros Hn. exfalso. apply Hn. now apply H.
    + split; [|reflexivity]. intros _ E. apply H in E. discriminate.
  - intros c rest. destruct (isEqualBytes a (a ++ c :: rest)) eqn:E; [|reflexivity].
    apply isEqualBytes_eq in E. apply (f_equal (@length N)) in E.
    rewrite length_app in E. simpl in E. lia.
Qed.

(* ================================================================== *)
(** ** Matches of the invocation and consumption expressions *)
(* ================================================================== *)

Lemma dropWhile_stop (p : N -> bool) (x : jsstring) (c : N) (y : jsstring) :
  forallb p x = true -> p c = false -> dropWhile p (x ++ c :: y) = c :: y.
Proof.
  intros Hx Hc. induction x as [|a x IH]; simpl.
  - now rewrite Hc.
  - simpl in Hx. apply andb_prop in Hx as [Ha Hx]. rewrite Ha. now apply IH.
Qed.

Lemma firstn_whole (s : jsstring) : firstn (length s - length (@nil N)) s = s.
Proof. simpl. rewrite Nat.sub_0_r. apply firstn_all. Qed.

(** On [Program <addr> invoke [<d>]] the invocation expression matches
    once, the whole line, and captures the address. *)
Lemma exec_invoke_line (addr : jsstring) (d : N) :
  forallb isWord addr = true -> isDigit d = true ->
  exec reInvoke (invokeLine addr [d])
  = Some {| matched := invokeLine addr [d]; groups := [addr; [d]] |}.
Proof.
  intros Ha Hd. unfold exec, reInvoke, invokeLine. cbn [rmatch].
  rewrite (startsWith_app (lit "Program ")).
  rewrite (skipn_exact _ (lit "Program ")).
  apply star_greedy.
  change (addr ++ lit " invoke [" ++ [d] ++ lit "]")
    with (addr ++ space :: lit "invoke [" ++ [d] ++ lit "]").
  rewrite (dropWhile_stop isWord addr space _ Ha eq_refl).
  change (space :: lit "invoke [" ++ [d] ++ lit "]")
    with (lit " invoke [" ++ d :: lit "]").
  rewrite (startsWith_app (lit " invoke [")).
  rewrite (skipn_exact _ (lit " invoke [")).
  rewrite Hd.
  change (startsWith (lit "]") (lit "]")) with true. cbv iota.
  change (skipn (length (lit "]")) (lit "]")) with (@nil N).
  rewrite firstn_whole.
  rewrite (firstn_exact _ addr (lit " invoke [" ++ d :: lit "]")).
  reflexivity.
Qed.

(** On [Program <addr> consumed <n> <rest>], with a rest of one line,
    the consumption expression matches once, the whole line, and
    captures the amount and the rest. *)
Lemma exec_consumed_line (addr n rest : jsstring) :
  forallb isWord addr = true -> forallb isDigit n = true ->
  forallb isDot rest = true ->
  exec reConsumed (consumedLine addr n rest)
  = Some {| matched := consumedLine addr n rest; groups := [n; rest] |}.
Proof.
  intros Ha Hn Hr. unfold exec, reConsumed, consumedLine. cbn [rmatch].
  rewrite (startsWith_app (lit "Program ")).
  rewrite (skipn_exact _ (lit "Program ")).
  apply star_greedy.
  change (addr ++ lit " consumed " ++ n ++ lit " " ++ rest)
    with (addr ++ space :: lit "consumed " ++ n ++ lit " " ++ rest).
  rewrite (dropWhile_stop isWord addr space _ Ha eq_refl).
  change (space :: lit "consumed " ++ n ++ lit " " ++ rest)
    with (lit " consumed " ++ n ++ space :: rest).
  rewrite (startsWith_app (lit " consumed ")).
  rewrite (skipn_exact _ (lit " consumed ")).
  apply star_greedy.
  rewrite (dropWhile_stop isDigit n space rest Hn eq_refl).
  change (startsWith (space :: rest) (lit " ")) with true. cbv iota.
  change (skipn (length (lit " ")) (space :: rest)) with rest.
  apply star_greedy. rewrite (dropWhile_all _ _ Hr).
  rewrite !firstn_whole.
  rewrite (firstn_exact _ n (space :: rest)).
  reflexivity.
Qed.

Lemma matchAll_whole (r : regex) (c : N) (s : jsstring) (m : Match) :
  exec r (c :: s) = Some m -> matched m = c :: s -> exec r [] = None ->
  matchAll r (c :: s) = [m].
Proof.
  intros He Hm Hn. unfold matchAll. now rewrite (scan_whole r c s m He Hm Hn).
Qed.

Lemma matchAll_invoke_line (addr : jsstring) (d : N) :
  forallb isWord addr = true -> isDigit d = true ->
  matchAll reInvoke (invokeLine addr [d])
  = [{| matched := invokeLine addr [d]; groups := [addr; [d]] |}].
Proof.
  intros Ha Hd.
  apply (matchAll_whole reInvoke 80%N
           (lit "rogram " ++ addr ++ lit " invoke [" ++ [d] ++ lit "]")).
  - exact (exec_invoke_line addr d Ha Hd).
  - reflexivity.
  - reflexivity.
Qed.

Lemma scan_consumed_line (addr n rest : jsstring) :
  forallb isWord addr = true -> forallb isDigit n = true ->
  forallb isDot rest = true ->
  scan reConsumed (consumedLine addr n rest) 0
  = [Hit {| matched := consumedLine addr n rest; groups := [n; rest] |}].
Proof.
  intros Ha Hn Hr.
  apply (scan_whole reConsumed 80%N
           (lit "rogram " ++ addr ++ lit " consumed " ++ n ++ lit " " ++ rest)).
  - exact (exec_consumed_line addr n rest Ha Hn Hr).
  - reflexivity.
  - reflexivity.
Qed.

(** A line that begins with [Program ], a run of word characters and
    a blank is no program log. *)
Lemma word_then_blank_no_program_log (addr tail : jsstring) :
  forallb isWord addr = true ->
  startsWith (lit "Program " ++ addr ++ space :: tail) (lit "Program log:") = false.
Proof.
  intros H.
  destruct addr as [|a0 [|a1 [|a2 [|a3 addr']]]]; simpl in H |- *;
    repeat match goal with
           | |- context [N.eqb ?a ?b] =>
               destruct (N.eqb_spec a b); subst; simpl
           end;
    try reflexivity; try discriminate.
Qed.

(* ================================================================== *)
(** ** The invocation, success and consumption rules *)
(* ================================================================== *)

Section Rules.

Variable Cluster : Type.
Variable getProgramName : jsstring -> Cluster -> jsstring.
Variable Buffer_from_base64 : jsstring -> list N.
Variable FillLog_render : list N -> option jsstring.
Variable cluster : Cluster.

Local Abbreviation line :=
  (onLine getProgramName Buffer_from_base64 FillLog_render cluster).

(** X2. A line [Program <addr> invoke [<d>]] with an address of word
    characters and one digit pushes the address on the invocation stack
    and raises the depth by one; the digit itself is not used.  At
    depth 0 it opens a trace for the address, with no log line, zero
    compute units and both flags unset.  At any other depth it appends
    to the last trace one info line [Program invoked: <name>], built at
    the depth before the increment, where <name> is what the name
    resolver gives for the address; and when there is no trace to
    append to, it throws. *)
Theorem invocation_rule (addr : jsstring) (d : N) (e : Env) :
  forallb isWord addr = true ->
  isDigit d = true ->
  (depth e = 0 ->
   line (invokeLine addr [d]) e
   = Returns (tt,
       {| depth := 1;
          prettyLogs :=
            prettyLogs e ++
            [{| invokedProgram := Some addr; logs := [];
                computeUnits := Int 0; truncated := false; failed := false |}];
          currentProgram := currentProgram e ++ [addr];
          console := console e |}))
  /\ (forall init x,
        depth e <> 0 ->
        prettyLogs e = init ++ [x] ->
        line (invokeLine addr [d]) e
        = Returns (tt,
            {| depth := depth e + 1;
               prettyLogs :=
                 init ++
                 [{| invokedProgram := invokedProgram x;
                     logs := logs x ++
                       [{| text := lit "Program invoked: "
                                     ++ getProgramName addr cluster;
                           prefix := prefixText (depth e);
                           style := info |}];
                     computeUnits := computeUnits x;
                     truncated := truncated x;
                     failed := failed x |}];
               currentProgram := currentProgram e ++ [addr];
               console := console e ++ diagnostics (depth e) |}))
  /\ (depth e <> 0 ->
      prettyLogs e = [] ->
      line (invokeLine addr [d]) e = Throws TypeError).
Proof.
  intros Ha Hd.
  pose proof (word_then_blank_no_program_log addr
                (lit "invoke [" ++ [d] ++ lit "]") Ha) as Hlog.
  change (lit "Program " ++ addr ++ space :: lit "invoke [" ++ [d] ++ lit "]")
    with (invokeLine addr [d]) in Hlog.
  assert (E : line (invokeLine addr [d]) e
              = onInvoke getProgramName cluster
                  [{| matched := invokeLine addr [d]; groups := [addr; [d]] |}] e).
  { unfold onLine.
    rewrite Hlog, (two_digits_no_truncation addr [d]).
    cbv zeta. now rewrite (matchAll_invoke_line addr d Ha Hd). }
  rewrite E. clear E. destruct e as [dp pl cp con]. cbn [depth prettyLogs].
  unfold onInvoke. cbv zeta. cbn [hd group groups nth Nat.sub].
  unfold pushProgram, getCurrentProgram, setCurrentProgram.
  split; [|split].
  - intros ->.
    do 3 (unfold bind at 1; cbn [depth prettyLogs currentProgram console]).
    reflexivity.
  - intros init x Hdp ->. apply Z.eqb_neq in Hdp.
    do 3 (unfold bind at 1; cbn [depth prettyLogs currentProgram console]).
    unfold getDepth. cbn [depth prettyLogs currentProgram console].
    rewrite Hdp.
    unfold bind at 1. erewrite pushToLast_run by reflexivity.
    reflexivity.
  - intros Hdp ->. apply Z.eqb_neq in Hdp.
    do 3 (unfold bind at 1; cbn [depth prettyLogs currentProgram console]).
    unfold getDepth. cbn [depth prettyLogs currentProgram console].
    rewrite Hdp.
    unfold bind at 1, pushToLast, bind at 1.
    now rewrite lastTrace_throw.
Qed.

(** X3. A line that includes "success" and reaches the success rule
    (it is no program log, no truncation notice and has no invocation
    marker), processed while a trace is open, pops the invocation
    stack, appends to the last trace one success line
    [Program returned success], built at the depth before the
    decrement, and lowers the depth by one, also below zero; the text
    of the line is dropped and the flags and compute units of the
    trace stay as they are, even when the line includes "failed". *)
Theorem success_rule (log : jsstring) (e : Env)
    (init : list InstructionLogs) (x : InstructionLogs) :
  isProgramLog log = false ->
  startsWith log (lit "Log truncated") = false ->
  hasInvoke log = false ->
  includes log (lit "success") = true ->
  prettyLogs e = init ++ [x] ->
  line log e
  = Returns (tt,
      {| depth := depth e - 1;
         prettyLogs :=
           init ++
           [{| invokedProgram := invokedProgram x;
               logs := logs x ++
                 [{| text := lit "Program returned success";
                     prefix := prefixText (depth e);
                     style := success |}];
               computeUnits := computeUnits x;
               truncated := truncated x;
               failed := failed x |}];
         currentProgram := removelast (currentProgram e);
         console := console e ++ diagnostics (depth e) |}).
Proof.
  unfold isProgramLog, hasInvoke. intros Hlog Htr Hinv Hs Hpl.
  destruct e as [dp pl cp con]; simpl in Hpl; subst pl.
  unfold onLine. rewrite Hlog, Htr, Hinv, Hs.
  unfold onSuccess, popProgram, getCurrentProgram, setCurrentProgram.
  do 3 (unfold bind at 1; cbn [depth prettyLogs currentProgram console]).
  erewrite pushToLast_run by reflexivity.
  reflexivity.
Qed.

(** The replacement of the one marker of a consumption line. *)
Lemma replace_consumed_line (addr n rest : jsstring) (e : Env)
    (init : list InstructionLogs) (x : InstructionLogs) :
  forallb isWord addr = true -> forallb isDigit n = true ->
  forallb isDot rest = true ->
  prettyLogs e = init ++ [x] ->
  replace reConsumed (consumedLine addr n rest) consumedCallback e
  = Returns (lit "Program consumed: " ++ n ++ lit " " ++ rest,
             {| depth := depth e;
                prettyLogs :=
                  init ++
                  [{| invokedProgram := invokedProgram x; logs := logs x;
                      computeUnits :=
                        if depth e =? 1
                        then add (computeUnits x) (parseInt n)
                        else computeUnits x;
                      truncated := truncated x; failed := failed x |}];
                currentProgram := currentProgram e;
                console := console e |}).
Proof.
  intros Ha Hn Hr Hpl. unfold replace.
  rewrite (scan_consumed_line addr n rest Ha Hn Hr).
  cbn [replacePieces]. unfold consumedCallback.
  cbn [group groups nth Nat.sub].
  destruct e as [dp pl cp con]; simpl in Hpl; subst pl.
  do 2 (unfold bind at 1; cbn [depth prettyLogs currentProgram console]).
  unfold getDepth. cbn [depth prettyLogs currentProgram console].
  destruct (dp =? 1).
  - unfold bind at 1. erewrite modifyLast_run by reflexivity.
    unfold ret, bind. cbn. rewrite !app_nil_r. reflexivity.
  - unfold ret, bind. cbn. rewrite !app_nil_r. destruct x; reflexivity.
Qed.

(** X4. A line [Program <addr> consumed <n> <rest>] (an address of
    word characters, an amount of digits, a rest without line
    terminator) that reaches the last branch, processed while the
    program on top of the invocation stack is not the manifest program,
    is appended to the last trace as the muted line
    [Program consumed: <n> <rest>], without the address, built at the
    current depth.  The amount is added to the compute units of that
    trace when the depth is 1 and only then.  At depth 0 the trace is
    first synthesized, without program, and the depth becomes 1, so the
    amount is counted. *)
Theorem consumption_rule (addr n rest : jsstring) (e : Env) :
  forallb isWord addr = true ->
  forallb isDigit n = true ->
  forallb isDot rest = true ->
  reachesLastBranch (consumedLine addr n rest) = true ->
  topIs (currentProgram e) manifestProgram = false ->
  (depth e = 0 ->
   line (consumedLine addr n rest) e
   = Returns (tt,
       {| depth := 1;
          prettyLogs :=
            prettyLogs e ++
            [{| invokedProgram := None;
                logs := [{| text := lit "Program consumed: " ++ n
                                      ++ lit " " ++ rest;
                            prefix := prefixText 1; style := muted |}];
                computeUnits := add (Int 0) (parseInt n);
                truncated := false; failed := false |}];
          currentProgram := currentProgram e;
          console := console e |}))
  /\ (forall init x,
        depth e <> 0 ->
        prettyLogs e = init ++ [x] ->
        line (consumedLine addr n rest) e
        = Returns (tt,
            {| depth := depth e;
               prettyLogs :=
                 init ++
                 [{| invokedProgram := invokedProgram x;
                     logs := logs x ++
                       [{| text := lit "Program consumed: " ++ n
                                     ++ lit " " ++ rest;
                           prefix := prefixText (depth e); style := muted |}];
                     computeUnits :=
                       if depth e =? 1
                       then add (computeUnits x) (parseInt n)
                       else computeUnits x;
                     truncated := truncated x; failed := failed x |}];
               currentProgram := currentProgram e;
               console := console e ++ diagnostics (depth e) |})).
Proof.
  intros Ha Hn Hr Hb Htop.
  rewrite (reaches_last_branch _ _ _ _ _ _ e Hb).
  destruct e as [dp pl cp con]. cbn [depth prettyLogs currentProgram] in *.
  unfold onOther. split.
  - intros ->.
    unfold bind at 1, getDepth. cbn [depth Z.eqb].
    unfold bind at 1. unfold bind at 1, pushTrace, bind at 1, getPrettyLogs,
      setPrettyLogs.
    cbn [depth prettyLogs currentProgram console].
    unfold incDepth, bind at 1, getDepth, setDepth.
    cbn [depth prettyLogs currentProgram console].
    erewrite bind_run
      by (apply (replace_consumed_line addr n rest _ pl (newTrace None false)
                   Ha Hn Hr); reflexivity).
    cbn [depth prettyLogs currentProgram console newTrace invokedProgram logs
         computeUnits truncated failed Z.add Z.eqb Pos.eqb].
    erewrite bind_run by (apply pushToLast_run; reflexivity).
    unfold bind at 1, getCurrentProgram.
    cbn [depth prettyLogs currentProgram console].
    rewrite Htop, andb_false_r. unfold ret, diagnostics. cbn.
    now rewrite app_nil_r.
  - intros init x Hdp ->. apply Z.eqb_neq in Hdp.
    unfold bind at 1, getDepth. cbn [depth]. rewrite Hdp.
    unfold bind at 1, ret at 1.
    erewrite bind_run
      by (apply (replace_consumed_line addr n rest _ init x Ha Hn Hr);
          reflexivity).
    cbn [depth prettyLogs currentProgram console].
    erewrite bind_run by (apply pushToLast_run; reflexivity).
    unfold bind at 1, getCurrentProgram.
    cbn [depth prettyLogs currentProgram console].
    rewrite Htop, andb_false_r. reflexivity.
Qed.

Lemma eqb_refl (s : jsstring) : JsString.eqb s s = true.
Proof. induction s as [|c s IH]; simpl; [reflexivity|]. now rewrite N.eqb_refl. Qed.

Lemma topIs_last (cp : list jsstring) (s : jsstring) : topIs (cp ++ [s]) s = true.
Proof. unfold topIs. now rewrite at_last, eqb_refl. Qed.

(** X5. A line of the last branch that includes "Program data: " and
    has no consumption marker, processed inside a trace while the
    manifest program is on top of the invocation stack, is appended as
    it is, as a muted line.  The text from index 14 on is then decoded
    from base64.  When the first 8 bytes are not the fill discriminator
    nothing more happens.  When they are and the deserializer renders
    the remaining bytes, a second muted line [MFX Fill Log: ], a line
    feed and the rendering is appended.  When they are and the
    deserializer throws, the exception escapes: the whole line throws
    and no trace is returned. *)
Theorem fill_record_rule (log : jsstring) (e : Env)
    (cp : list jsstring) (init : list InstructionLogs) (x : InstructionLogs) :
  reachesLastBranch log = true ->
  hasConsumed log = false ->
  includes log (lit "Program data: ") = true ->
  currentProgram e = cp ++ [manifestProgram] ->
  depth e <> 0 ->
  prettyLogs e = init ++ [x] ->
  let buffer := Buffer_from_base64 (substring log 14) in
  let verbatim :=
    {| text := log; prefix := prefixText (depth e); style := muted |} in
  let state (lines : list LogMessage) (warnings : list jsstring) :=
    {| depth := depth e;
       prettyLogs :=
         init ++
         [{| invokedProgram := invokedProgram x;
             logs := logs x ++ lines;
             computeUnits := computeUnits x;
             truncated := truncated x; failed := failed x |}];
       currentProgram := currentProgram e;
       console := console e ++ warnings |} in
  (firstn 8 buffer <> fillLogPrefix ->
   line log e = Returns (tt, state [verbatim] (diagnostics (depth e))))
  /\ (forall rendered,
        firstn 8 buffer = fillLogPrefix ->
        FillLog_render (skipn 8 buffer) = Some rendered ->
        line log e
        = Returns (tt,
            state [verbatim;
                   {| text := lit "MFX Fill Log: " ++ newline ++ rendered;
                      prefix := prefixText (depth e); style := muted |}]
                  (diagnostics (depth e) ++ diagnostics (depth e))))
  /\ (firstn 8 buffer = fillLogPrefix ->
      FillLog_render (skipn 8 buffer) = None ->
      line log e = Throws DecodeError).
Proof.
  intros Hb Hc Hi Hcp Hdp Hpl buffer verbatim state.
  rewrite (reaches_last_branch _ _ _ _ _ _ e Hb).
  assert (Hm : matchAll reConsumed log = []).
  { unfold hasConsumed in Hc. destruct (matchAll reConsumed log); [reflexivity|discriminate]. }
  assert (E : onOther Buffer_from_base64 FillLog_render log e
              = onProgramData Buffer_from_base64 FillLog_render log
                  (state [verbatim] (diagnostics (depth e)))).
  { subst state verbatim. destruct e as [dp pl cpe con].
    cbn [depth prettyLogs currentProgram console] in *. subst pl cpe.
    apply Z.eqb_neq in Hdp. unfold onOther.
    unfold bind at 1, getDepth. cbn [depth]. rewrite Hdp.
    unfold bind at 1, ret at 1.
    unfold bind at 1. rewrite (replace_no_match _ _ _ _ Hm).
    erewrite bind_run by (apply pushToLast_run; reflexivity).
    unfold bind at 1, getCurrentProgram.
    cbn [depth prettyLogs currentProgram console].
    now rewrite Hi, topIs_last. }
  rewrite E. clear E. unfold onProgramData. cbv zeta.
  change (Z.of_nat (length (lit "Program data: "))) with 14.
  fold buffer.
  split; [|split].
  - intros Hne.
    destruct (isEqualBytes fillLogPrefix (firstn 8 buffer)) eqn:Heq; [|reflexivity].
    apply isEqualBytes_eq in Heq. congruence.
  - intros rendered Heq Hren.
    assert (Ht : isEqualBytes fillLogPrefix (firstn 8 buffer) = true)
      by (now apply isEqualBytes_eq).
    rewrite Ht, Hren. subst state verbatim.
    erewrite pushToLast_run by reflexivity.
    unfold pushLog.
    cbn [depth prettyLogs currentProgram console invokedProgram logs
         computeUnits truncated failed].
    rewrite <- (app_assoc (logs x)), <- (app_assoc (console e)).
    reflexivity.
  - intros Heq Hren.
    assert (Ht : isEqualBytes fillLogPrefix (firstn 8 buffer) = true)
      by (now apply isEqualBytes_eq).
    now rewrite Ht, Hren.
Qed.

End Rules.

(* ================================================================== *)
(** ** Operations that are safe once a trace is open *)
(* ================================================================== *)

Create HintDb steady.

Lemma steady_ret (A : Type) (a : A) : steady (ret a).
Proof.
  intros e He. split; [discriminate|]. intros b e' H. now inversion H; subst.
Qed.

Lemma steady_decode_error (A : Type) : steady (@throw A DecodeError).
Proof. intros e He. split; [discriminate|]. intros b e' H. discriminate. Qed.

Lemma steady_bind (A B : Type) (m : M A) (f : A -> M B) :
  steady m -> (forall a, steady (f a)) -> steady (bind m f).
Proof.
  intros Hm Hf e He. destruct (Hm e He) as [Hn Hr]. unfold bind.
  destruct (m e) as [[a e1]|x] eqn:E.
  - exact (Hf a e1 (Hr a e1 eq_refl)).
  - split; [|discriminate]. intros H. apply Hn. now inversion H.
Qed.

Lemma steady_if (A : Type) (c : bool) (m1 m2 : M A) :
  steady m1 -> steady m2 -> steady (if c then m1 else m2).
Proof. now destruct c. Qed.

(** An operation that returns and leaves the traces alone. *)
Lemma steady_when_untouched (A : Type) (m : M A) :
  (forall e, exists a e', m e = Returns (a, e') /\ prettyLogs e' = prettyLogs e) ->
  steady m.
Proof.
  intros H e He. destruct (H e) as [a [e' [E P]]]. rewrite E.
  split; [discriminate|]. intros b e2 H2. inversion H2; subst. now rewrite P.
Qed.

Lemma steady_getDepth : steady getDepth.
Proof. apply steady_when_untouched. intros e. now eexists _, _. Qed.

Lemma steady_setDepth (d : Z) : steady (setDepth d).
Proof. apply steady_when_untouched. intros e. now eexists _, _. Qed.

Lemma steady_getPrettyLogs : steady getPrettyLogs.
Proof. apply steady_when_untouched. intros e. now eexists _, _. Qed.

Lemma steady_getCurrentProgram : steady getCurrentProgram.
Proof. apply steady_when_untouched. intros e. now eexists _, _. Qed.

Lemma steady_setCurrentProgram (l : list jsstring) : steady (setCurrentProgram l).
Proof. apply steady_when_untouched. intros e. now eexists _, _. Qed.

Lemma steady_prefixBuilder (level : Z) : steady (prefixBuilder level).
Proof.
  apply steady_when_untouched. intros e. rewrite prefixBuilder_run.
  now eexists _, _.
Qed.

Lemma steady_lastTrace : steady lastTrace.
Proof.
  intros e He. destruct (list_last_cases _ (prettyLogs e)) as [H|[init [x H]]];
    [contradiction|].
  rewrite (lastTrace_run _ _ _ H). split; [discriminate|].
  intros a e' E. now inversion E; subst.
Qed.

Lemma steady_modifyLast (f : InstructionLogs -> InstructionLogs) :
  steady (modifyLast f).
Proof.
  intros e He. destruct (list_last_cases _ (prettyLogs e)) as [H|[init [x H]]];
    [contradiction|].
  rewrite (modifyLast_run _ _ _ _ H). split; [discriminate|].
  intros a e' E. inversion E; subst. simpl. now destruct init.
Qed.

Lemma steady_pushTrace (t : InstructionLogs) : steady (pushTrace t).
Proof.
  intros e He. unfold pushTrace, bind, getPrettyLogs, setPrettyLogs.
  split; [discriminate|]. intros a e' E. inversion E; subst. simpl.
  now destruct (prettyLogs e).
Qed.

#[export] Hint Resolve steady_ret steady_decode_error steady_bind steady_if
  steady_getDepth steady_setDepth steady_getPrettyLogs steady_getCurrentProgram
  steady_setCurrentProgram steady_prefixBuilder steady_lastTrace
  steady_modifyLast steady_pushTrace : steady.

Lemma steady_incDepth : steady incDepth.
Proof. unfold incDepth. auto with steady. Qed.

Lemma steady_decDepth : steady decDepth.
Proof. unfold decDepth. auto with steady. Qed.

Lemma steady_pushProgram (a : jsstring) : steady (pushProgram a).
Proof. unfold pushProgram. auto with steady. Qed.

Lemma steady_popProgram : steady popProgram.
Proof. unfold popProgram. auto with steady. Qed.

Lemma steady_pushToLast (sty : Style) (txt : jsstring) : steady (pushToLast sty txt).
Proof. unfold pushToLast. auto 8 with steady. Qed.

#[export] Hint Resolve steady_incDepth steady_decDepth steady_pushProgram
  steady_popProgram steady_pushToLast : steady.

Lemma steady_replacePieces (f : Match -> M jsstring) (ps : list piece) :
  (forall m, steady (f m)) -> steady (replacePieces ps f).
Proof.
  intros Hf. induction ps as [|[c|m] ps IH]; simpl; auto 6 with steady.
Qed.

Lemma steady_consumedCallback (m : Match) : steady (consumedCallback m).
Proof. unfold consumedCallback. auto 8 with steady. Qed.

Lemma pushToLast_throw (sty : Style) (txt : jsstring) (e : Env) :
  prettyLogs e = [] -> pushToLast sty txt e = Throws TypeError.
Proof.
  intros H. unfold pushToLast, bind at 1. now rewrite (lastTrace_throw _ H).
Qed.

(** The two steps after the loop always return; they leave no empty
    list of traces when there is an error descriptor. *)
Lemma postPass_returns (pe : option ProgramError) (e : Env) :
  exists e',
    postPass pe e = Returns (tt, e')
    /\ (prettyLogs e <> [] -> prettyLogs e' <> [])
    /\ (pe <> None -> prettyLogs e' <> [])
    /\ (pe = None -> e' = e).
Proof.
  destruct pe as [pe|].
  - destruct (list_last_cases _ (prettyLogs e)) as [H|[init [x H]]].
    + destruct e as [dp pl cp con]; simpl in H; subst pl.
      unfold postPass, addEmptyFailedTrace, attributeError, pushTrace, traceAt,
        modifyAt, bind, getPrettyLogs, setPrettyLogs, ret; simpl.
      destruct (index pe =? 0) eqn:E.
      * apply Z.eqb_eq in E. rewrite E. eexists. split; [reflexivity|].
        simpl. repeat split; try discriminate.
      * eexists. split; [reflexivity|].
        simpl. repeat split; try discriminate.
    + assert (Hne : forall l : list InstructionLogs, init ++ l <> [] \/ l = [])
        by (intros l; destruct init, l; auto; left; discriminate).
      destruct e as [dp pl cp con]; simpl in H; subst pl.
      unfold postPass, addEmptyFailedTrace, attributeError, pushTrace, traceAt,
        modifyAt, bind, getPrettyLogs, setPrettyLogs, ret; simpl.
      assert (Hlen : Nat.eqb (length (init ++ [x])) 0 = false).
      { rewrite length_app. simpl. apply Nat.eqb_neq. lia. }
      rewrite Hlen. simpl.
      destruct (Z.eqb_spec (index pe) (Z.of_nat (length (init ++ [x])) - 1)) as [E|E].
      * cbn [prettyLogs]. rewrite E, at_last. cbn.
        destruct (failed x); cbn.
        -- eexists. split; [reflexivity|]. simpl.
           repeat split; try discriminate; intros _; now destruct init.
        -- rewrite updateAt_last. cbn.
           replace (Z.of_nat (length (init ++ [x])) - 1)
             with (Z.of_nat (length (init ++ [setFailed x])) - 1)
             by (rewrite !length_app; reflexivity).
           rewrite updateAt_last. cbn.
           eexists. split; [reflexivity|]. simpl.
           repeat split; try discriminate; intros _; now destruct init.
      * eexists. split; [reflexivity|]. simpl.
        repeat split; try discriminate; intros _; now destruct init.
  - exists e. split; [destruct e; reflexivity|]. repeat split; auto; congruence.
Qed.

(* ================================================================== *)
(** ** When the function throws and when it returns nothing *)
(* ================================================================== *)

Section Exceptions.

Variable Cluster : Type.
Variable TransactionError : Type.
Variable isTruthy : TransactionError -> bool.
Variable getTransactionInstructionError : TransactionError -> option ProgramError.
Variable getProgramName : jsstring -> Cluster -> jsstring.
Variable Buffer_from_base64 : jsstring -> list N.
Variable FillLog_render : list N -> option jsstring.
Variable cluster : Cluster.

Local Abbreviation line :=
  (onLine getProgramName Buffer_from_base64 FillLog_render cluster).
Local Abbreviation parse :=
  (parseProgramLogs isTruthy getTransactionInstructionError getProgramName
     Buffer_from_base64 FillLog_render cluster).
Local Abbreviation prettyError :=
  (prettyErrorOf isTruthy getTransactionInstructionError).

Lemma steady_onProgramData (log : jsstring) :
  steady (onProgramData Buffer_from_base64 FillLog_render log).
Proof.
  unfold onProgramData. cbv zeta. apply steady_if; [|auto with steady].
  destruct (FillLog_render _); auto with steady.
Qed.

Lemma steady_tail (log : jsstring) :
  steady (log' <- replace reConsumed log consumedCallback ;;
          pushToLast muted log' ;;
          cp <- getCurrentProgram ;;
          if includes log' (lit "Program data: ") && topIs cp manifestProgram
          then onProgramData Buffer_from_base64 FillLog_render log'
          else ret tt).
Proof.
  apply steady_bind.
  - apply steady_replacePieces, steady_consumedCallback.
  - intros log'. apply steady_bind; [auto with steady|]. intros _.
    apply steady_bind; [auto with steady|]. intros cp.
    apply steady_if; [apply steady_onProgramData|auto with steady].
Qed.

Lemma steady_line (log : jsstring) : steady (line log).
Proof.
  unfold onLine.
  apply steady_if.
  { unfold onProgramLog, replace. apply steady_bind; [|auto with steady].
    apply steady_replacePieces. auto with steady. }
  apply steady_if; [apply steady_modifyLast|].
  cbv zeta. apply steady_if.
  { unfold onInvoke. cbv zeta. auto 8 with steady. }
  apply steady_if; [unfold onSuccess; auto 6 with steady|].
  apply steady_if.
  { unfold onFailed. cbv zeta. auto 10 with steady. }
  unfold onOther. apply steady_bind; [auto with steady|]. intros d.
  apply steady_bind; [auto 6 with steady|]. intros _. apply steady_tail.
Qed.

Lemma steady_loop (lines : list jsstring) : steady (forEach lines line).
Proof.
  induction lines as [|l ls IH]; cbn [forEach]; [auto with steady|].
  apply steady_bind; [apply steady_line|auto].
Qed.

(** Without a trace, the rules that write to the last trace throw. *)
Lemma line_throws_when_empty (log : jsstring) (e : Env) :
  prettyLogs e = [] -> needsOpenTrace log = true ->
  line log e = Throws TypeError.
Proof.
  unfold needsOpenTrace, isProgramLog, hasInvoke. intros He H. unfold onLine.
  destruct (startsWith log (lit "Program log:")).
  { unfold onProgramLog, replace.
    destruct (replacePieces_pure
                (fun m => lit "Program logged: " ++ quote ++ group 1 m ++ quote)
                (scan reProgramLog log 0) e) as [txt Htxt].
    erewrite bind_run by exact Htxt. now apply pushToLast_throw. }
  destruct (startsWith log (lit "Log truncated")).
  { now apply modifyLast_throw. }
  cbv zeta. simpl in H.
  destruct (0 <? length (matchAll reInvoke log))%nat; [discriminate|].
  simpl in H.
  destruct (includes log (lit "success")).
  { unfold onSuccess, popProgram, getCurrentProgram, setCurrentProgram.
    do 3 (unfold bind at 1; cbn [depth prettyLogs currentProgram console]).
    now rewrite pushToLast_throw. }
  simpl in H. rewrite H.
  unfold onFailed, popProgram, getCurrentProgram, setCurrentProgram.
  do 3 (unfold bind at 1; cbn [depth prettyLogs currentProgram console]).
  now rewrite modifyLast_throw.
Qed.

(** At depth 0 every other line opens a trace, also without one. *)
Lemma line_opens_at_zero (log : jsstring) (e : Env) :
  depth e = 0 -> needsOpenTrace log = false ->
  line log e <> Throws TypeError
  /\ forall a e', line log e = Returns (a, e') -> prettyLogs e' <> [].
Proof.
  unfold needsOpenTrace, isProgramLog, hasInvoke. intros Hd H. unfold onLine.
  destruct (startsWith log (lit "Program log:")); [discriminate|].
  destruct (startsWith log (lit "Log truncated")); [discriminate|].
  cbv zeta. simpl in H.
  assert (Hpush : forall t (l : list InstructionLogs), l ++ [t] <> [])
    by (intros t l; destruct l; discriminate).
  destruct e as [dp pl cp con]. simpl in Hd. subst dp.
  destruct (0 <? length (matchAll reInvoke log))%nat.
  { unfold onInvoke. cbv zeta. split; [discriminate|].
    intros a e' E. inversion E; subst. apply Hpush. }
  simpl in H. apply orb_false_elim in H as [Hs Hf]. rewrite Hs, Hf.
  unfold onOther.
  unfold bind at 1, getDepth. cbn [depth Z.eqb].
  unfold bind at 1. unfold bind at 1, pushTrace, bind at 1, getPrettyLogs,
    setPrettyLogs.
  cbn [depth prettyLogs currentProgram console].
  unfold incDepth, bind at 1, getDepth, setDepth.
  cbn [depth prettyLogs currentProgram console].
  apply steady_tail. cbn [prettyLogs]. apply Hpush.
Qed.

(** X6. The function throws a [TypeError] exactly when the input is
    not empty and its first line is handled by a rule that writes to
    the last trace without opening one: a line that starts with
    "Program log:" or "Log truncated", or a line without invocation
    marker that includes "success" or "failed".  Whatever follows a
    first line of another kind never causes a [TypeError]. *)
Theorem typeError_exactly_on_first_line (lines : list jsstring)
    (error : option TransactionError) :
  parse lines error = Throws TypeError
  <-> exists l rest, lines = l :: rest /\ needsOpenTrace l = true.
Proof.
  unfold parseProgramLogs, parseProgramLogsM. split.
  - destruct lines as [|l rest].
    + cbn [forEach]. unfold bind at 1, ret at 1.
      destruct (postPass_returns (prettyError error) initial) as [e' [E _]].
      erewrite bind_run by exact E. discriminate.
    + intros H. exists l, rest. split; [reflexivity|].
      destruct (needsOpenTrace l) eqn:N; [reflexivity|exfalso].
      destruct (line_opens_at_zero l initial eq_refl N) as [Hn Hr].
      cbn [forEach] in H. unfold bind at 1 in H. unfold bind at 1 in H.
      destruct (line l initial) as [[[] e1]|x] eqn:E1.
      * destruct (steady_loop rest e1 (Hr _ _ eq_refl)) as [Hn2 Hr2].
        destruct (forEach rest line e1) as [[[] e2]|x] eqn:E2.
        -- destruct (postPass_returns (prettyError error) e2) as [e' [E _]].
           erewrite bind_run in H by exact E. discriminate.
        -- apply Hn2. now inversion H.
      * apply Hn. now inversion H.
  - intros [l [rest [-> N]]]. cbn [forEach].
    unfold bind at 1. unfold bind at 1.
    now rewrite (line_throws_when_empty l initial eq_refl N).
Qed.

(** X7. The function returns the empty list exactly when there is no
    line and no error descriptor: with at least one line every
    returned list holds a trace, and with an error descriptor and no
    line a failed trace is synthesized. *)
Theorem empty_result_exactly (lines : list jsstring)
    (error : option TransactionError) :
  parse lines error = Returns []
  <-> lines = [] /\ prettyError error = None.
Proof.
  unfold parseProgramLogs, parseProgramLogsM. split.
  - destruct lines as [|l rest].
    + cbn [forEach]. unfold bind at 1, ret at 1.
      destruct (postPass_returns (prettyError error) initial)
        as [e' [E [_ [Hsome _]]]].
      erewrite bind_run by exact E. unfold getPrettyLogs. intros H.
      split; [reflexivity|].
      destruct (prettyError error); [|reflexivity].
      exfalso. apply Hsome; [discriminate|]. now inversion H.
    + intros H. exfalso.
      cbn [forEach] in H. unfold bind at 1 in H. unfold bind at 1 in H.
      destruct (needsOpenTrace l) eqn:N.
      { now rewrite (line_throws_when_empty l initial eq_refl N) in H. }
      destruct (line_opens_at_zero l initial eq_refl N) as [_ Hr].
      destruct (line l initial) as [[[] e1]|x] eqn:E1; [|discriminate].
      destruct (steady_loop rest e1 (Hr _ _ eq_refl)) as [_ Hr2].
      destruct (forEach rest line e1) as [[[] e2]|x] eqn:E2; [|discriminate].
      destruct (postPass_returns (prettyError error) e2)
        as [e' [E [Hkeep _]]].
      erewrite bind_run in H by exact E. unfold getPrettyLogs in H.
      apply (Hkeep (Hr2 _ _ eq_refl)). now inversion H.
  - intros [-> Hn]. rewrite Hn. reflexivity.
Qed.

End Exceptions.

(* ================================================================== *)
(** ** The two steps after the loop, case by case *)
(* ================================================================== *)

Lemma postPass_cases (pe : option ProgramError) (e : Env) :
  exists e',
    postPass pe e = Returns (tt, e')
    /\ match pe with
       | None => e' = e
       | Some p =>
           (prettyLogs e = [] /\ prettyLogs e' = [newTrace None true])
           \/ exists init x,
                prettyLogs e = init ++ [x]
                /\ (((index p <> Z.of_nat (length (prettyLogs e)) - 1
                      \/ failed x = true)
                     /\ prettyLogs e' = init ++ [x])
                    \/ (index p = Z.of_nat (length (prettyLogs e)) - 1
                        /\ failed x = false
                        /\ prettyLogs e'
                           = init ++
                             [pushLog {| text := lit "Runtime error: " ++ message p;
                                         prefix := prefixText 1;
                                         style := warning |} (setFailed x)]))
       end.
Proof.
  destruct pe as [pe|].
  - destruct (list_last_cases _ (prettyLogs e)) as [H|[init [x H]]].
    + destruct e as [dp pl cp con]; simpl in H; subst pl.
      unfold postPass, addEmptyFailedTrace, attributeError, pushTrace, traceAt,
        modifyAt, bind, getPrettyLogs, setPrettyLogs, ret; simpl.
      destruct (index pe =? 0) eqn:E.
      * apply Z.eqb_eq in E. rewrite E. eexists. split; [reflexivity|].
        left. split; reflexivity.
      * eexists. split; [reflexivity|]. left. split; reflexivity.
    + destruct e as [dp pl cp con]; simpl in H; subst pl.
      unfold postPass, addEmptyFailedTrace.
      unfold bind at 1. unfold bind at 1, getPrettyLogs. cbn [prettyLogs].
      assert (Hlen : Nat.eqb (length (init ++ [x])) 0 = false).
      { rewrite length_app. simpl. apply Nat.eqb_neq. lia. }
      rewrite Hlen. unfold ret at 1. unfold attributeError.
      unfold bind at 1, getPrettyLogs. cbn [prettyLogs].
      destruct (Z.eqb_spec (index pe) (Z.of_nat (length (init ++ [x])) - 1)) as [E|E].
      * unfold bind at 1, traceAt, bind at 1, getPrettyLogs. cbn [prettyLogs].
        rewrite E, at_last. unfold ret at 1.
        destruct (failed x) eqn:F; cbn [negb].
        -- eexists. split; [reflexivity|]. right. exists init, x.
           split; [reflexivity|]. left. split; [now right|reflexivity].
        -- unfold bind at 1, modifyAt, bind at 1, getPrettyLogs, setPrettyLogs.
           cbn [prettyLogs]. rewrite updateAt_last.
           cbn [depth prettyLogs currentProgram console].
           unfold bind at 1. rewrite prefixBuilder_run.
           cbn [depth prettyLogs currentProgram console].
           unfold bind at 1, getPrettyLogs. cbn [prettyLogs].
           replace (Z.of_nat (length (init ++ [x])) - 1)
             with (Z.of_nat (length (init ++ [setFailed x])) - 1)
             by (rewrite !length_app; reflexivity).
           rewrite updateAt_last.
           eexists. split; [reflexivity|]. right. exists init, x.
           split; [reflexivity|]. right.
           split; [reflexivity|]. split; [exact F|reflexivity].
      * eexists. split; [reflexivity|]. right. exists init, x.
        split; [reflexivity|]. left. split; [now left|reflexivity].
  - exists e. split; [destruct e; reflexivity|reflexivity].
Qed.

(* ================================================================== *)
(** ** Relations between the traces before and after an operation *)
(* ================================================================== *)

Lemma forEach_app (A : Type) (f : A -> M unit) (l1 l2 : list A) (e : Env) :
  forEach (l1 ++ l2) f e = bind (forEach l1 f) (fun _ => forEach l2 f) e.
Proof.
  revert e. induction l1 as [|x l1 IH]; intros e; [reflexivity|].
  cbn [app forEach]. unfold bind in *.
  destruct (f x e) as [[[] e1]|]; [apply IH|reflexivity].
Qed.

Section Relating.

Variable Cluster : Type.
Variable getProgramName : jsstring -> Cluster -> jsstring.
Variable Buffer_from_base64 : jsstring -> list N.
Variable FillLog_render : list N -> option jsstring.
Variable cluster : Cluster.

(** The relation, and the updates of the last trace that respect it. *)
Variable R : list InstructionLogs -> list InstructionLogs -> Prop.
Variable good : (InstructionLogs -> InstructionLogs) -> Prop.

Hypothesis R_refl : forall pl, R pl pl.
Hypothesis R_trans : forall pl1 pl2 pl3, R pl1 pl2 -> R pl2 pl3 -> R pl1 pl3.
Hypothesis R_last : forall f init x, good f -> R (init ++ [x]) (init ++ [f x]).
Hypothesis R_open : forall pl program, R pl (pl ++ [newTrace program false]).

Hypothesis good_setTruncated : good setTruncated.
Hypothesis good_addUnits : forall n, good (addUnits n).
Hypothesis good_pushLog : forall m, style m <> warning -> good (pushLog m).

Local Abbreviation line :=
  (onLine getProgramName Buffer_from_base64 FillLog_render cluster).

Lemma relates_ret (A : Type) (a : A) : relates R (ret a).
Proof. intros e b e' H. inversion H; subst. apply R_refl. Qed.

Lemma relates_throw (A : Type) (x : exn) : relates R (@throw A x).
Proof. intros e b e' H. discriminate. Qed.

Lemma relates_bind (A B : Type) (m : M A) (f : A -> M B) :
  relates R m -> (forall a, relates R (f a)) -> relates R (bind m f).
Proof.
  intros Hm Hf e b e' H. apply bind_inv in H as [a [e1 [H1 H]]].
  exact (R_trans _ _ _ (Hm _ _ _ H1) (Hf _ _ _ _ H)).
Qed.

Lemma relates_if (A : Type) (c : bool) (m1 m2 : M A) :
  relates R m1 -> relates R m2 -> relates R (if c then m1 else m2).
Proof. now destruct c. Qed.

(** An operation that leaves the traces alone. *)
Lemma relates_when_untouched (A : Type) (m : M A) :
  (forall e a e', m e = Returns (a, e') -> prettyLogs e' = prettyLogs e) ->
  relates R m.
Proof. intros H e a e' E. rewrite (H _ _ _ E). apply R_refl. Qed.

Lemma relates_getDepth : relates R getDepth.
Proof. apply relates_when_untouched. intros e a e' H. now inversion H. Qed.

Lemma relates_setDepth (d : Z) : relates R (setDepth d).
Proof. apply relates_when_untouched. intros e a e' H. now inversion H. Qed.

Lemma relates_getCurrentProgram : relates R getCurrentProgram.
Proof. apply relates_when_untouched. intros e a e' H. now inversion H. Qed.

Lemma relates_setCurrentProgram (l : list jsstring) :
  relates R (setCurrentProgram l).
Proof. apply relates_when_untouched. intros e a e' H. now inversion H. Qed.

Lemma relates_prefixBuilder (level : Z) : relates R (prefixBuilder level).
Proof.
  apply relates_when_untouched. intros e a e' H.
  rewrite prefixBuilder_run in H. now inversion H.
Qed.

Lemma relates_lastTrace : relates R lastTrace.
Proof.
  apply relates_when_untouched. intros e a e' H.
  destruct (list_last_cases _ (prettyLogs e)) as [Hn|[init [x Hx]]].
  - rewrite (lastTrace_throw _ Hn) in H. discriminate.
  - rewrite (lastTrace_run _ _ _ Hx) in H. now inversion H.
Qed.

Lemma relates_modifyLast (f : InstructionLogs -> InstructionLogs) :
  good f -> relates R (modifyLast f).
Proof.
  intros Hf e a e' H.
  destruct (list_last_cases _ (prettyLogs e)) as [Hn|[init [x Hx]]].
  - rewrite (modifyLast_throw _ _ Hn) in H. discriminate.
  - rewrite (modifyLast_run _ _ _ _ Hx) in H. inversion H; subst.
    rewrite Hx. now apply R_last.
Qed.

Lemma relates_pushTrace (program : option jsstring) :
  relates R (pushTrace (newTrace program false)).
Proof. intros e a e' H. inversion H; subst. apply R_open. Qed.

#[local] Hint Resolve relates_ret relates_throw relates_bind relates_if
  relates_getDepth relates_setDepth relates_getCurrentProgram
  relates_setCurrentProgram relates_prefixBuilder relates_lastTrace
  relates_modifyLast relates_pushTrace : core.

Lemma relates_incDepth : relates R incDepth.
Proof. unfold incDepth. auto. Qed.

Lemma relates_decDepth : relates R decDepth.
Proof. unfold decDepth. auto. Qed.

Lemma relates_pushProgram (a : jsstring) : relates R (pushProgram a).
Proof. unfold pushProgram. auto. Qed.

Lemma relates_popProgram : relates R popProgram.
Proof. unfold popProgram. auto. Qed.

Lemma relates_pushToLast (sty : Style) (txt : jsstring) :
  (forall pfx, good (pushLog {| text := txt; prefix := pfx; style := sty |})) ->
  relates R (pushToLast sty txt).
Proof. intros H. unfold pushToLast. auto 8. Qed.

Lemma relates_pushToLast_quiet (sty : Style) (txt : jsstring) :
  sty <> warning -> relates R (pushToLast sty txt).
Proof. intros H. apply relates_pushToLast. intros pfx. now apply good_pushLog. Qed.

#[local] Hint Resolve relates_incDepth relates_decDepth relates_pushProgram
  relates_popProgram : core.

Lemma relates_replacePieces (f : Match -> M jsstring) (ps : list piece) :
  (forall m, relates R (f m)) -> relates R (replacePieces ps f).
Proof. intros Hf. induction ps as [|[c|m] ps IH]; simpl; auto 6. Qed.

Lemma relates_consumedCallback (m : Match) : relates R (consumedCallback m).
Proof. unfold consumedCallback. auto 8. Qed.

Lemma relates_onProgramLog (log : jsstring) : relates R (onProgramLog log).
Proof.
  unfold onProgramLog, replace. apply relates_bind.
  - apply relates_replacePieces. auto.
  - intros log'. now apply relates_pushToLast_quiet.
Qed.

Lemma relates_onSuccess : relates R onSuccess.
Proof.
  unfold onSuccess. apply relates_bind; [auto|]. intros _.
  apply relates_bind; [now apply relates_pushToLast_quiet|auto].
Qed.

Lemma relates_onInvoke (matches : list Match) :
  relates R (onInvoke getProgramName cluster matches).
Proof.
  unfold onInvoke. cbv zeta. apply relates_bind; [auto|]. intros _.
  apply relates_bind; [auto|]. intros d.
  apply relates_bind; [|auto].
  apply relates_if; [auto|now apply relates_pushToLast_quiet].
Qed.

Lemma relates_onProgramData (log : jsstring) :
  relates R (onProgramData Buffer_from_base64 FillLog_render log).
Proof.
  unfold onProgramData. cbv zeta. apply relates_if; [|auto].
  destruct (FillLog_render _); [now apply relates_pushToLast_quiet|auto].
Qed.

Lemma relates_onOther (log : jsstring) :
  relates R (onOther Buffer_from_base64 FillLog_render log).
Proof.
  unfold onOther. apply relates_bind; [auto|]. intros d.
  apply relates_bind; [auto 6|]. intros _.
  apply relates_bind.
  { apply relates_replacePieces, relates_consumedCallback. }
  intros log'. apply relates_bind; [now apply relates_pushToLast_quiet|].
  intros _. apply relates_bind; [auto|]. intros cp.
  apply relates_if; [apply relates_onProgramData|auto].
Qed.

(** The failure rule, when marking a trace failed and appending a
    warning line both respect the relation. *)
Lemma relates_onFailed (log : jsstring) :
  good setFailed -> (forall m, good (pushLog m)) -> relates R (onFailed log).
Proof.
  intros Hf Hp. unfold onFailed. cbv zeta.
  apply relates_bind; [auto|]. intros _.
  apply relates_bind; [auto|]. intros _.
  apply relates_bind; [auto 6|]. intros txt.
  apply relates_bind; [|auto]. apply relates_pushToLast. auto.
Qed.

Lemma relates_line (log : jsstring) :
  relates R (onFailed log) -> relates R (line log).
Proof.
  intros Hfailed. unfold onLine.
  apply relates_if; [apply relates_onProgramLog|].
  apply relates_if; [unfold onTruncated; auto|].
  cbv zeta. apply relates_if; [apply relates_onInvoke|].
  apply relates_if; [apply relates_onSuccess|].
  apply relates_if; [exact Hfailed|apply relates_onOther].
Qed.

Lemma relates_loop (lines : list jsstring) :
  (forall log, relates R (onFailed log)) -> relates R (forEach lines line).
Proof.
  intros Hfailed. induction lines as [|l ls IH]; cbn [forEach]; [auto|].
  apply relates_bind; [now apply relates_line|auto].
Qed.

End Relating.

(* ================================================================== *)
(** ** Traces only grow *)
(* ================================================================== *)

Lemma grows_refl (t : InstructionLogs) : grows t t.
Proof.
  repeat split; auto. exists []. now rewrite app_nil_r.
Qed.

Lemma grows_trans (t1 t2 t3 : InstructionLogs) :
  grows t1 t2 -> grows t2 t3 -> grows t1 t3.
Proof.
  intros [P1 [[m1 L1] [T1 F1]]] [P2 [[m2 L2] [T2 F2]]].
  repeat split; auto; [congruence|].
  exists (m1 ++ m2). now rewrite L2, L1, app_assoc.
Qed.

Lemma evolves_refl (pl : list InstructionLogs) : evolves pl pl.
Proof.
  destruct (list_last_cases _ pl) as [H|[init [x H]]]; [now left|right].
  exists init, x, x, []. auto using grows_refl.
Qed.

Lemma evolves_trans (pl1 pl2 pl3 : list InstructionLogs) :
  evolves pl1 pl2 -> evolves pl2 pl3 -> evolves pl1 pl3.
Proof.
  intros [H1|[init [x [x' [new [P1 [P2 G]]]]]]]; [now left|].
  intros [H2|[init2 [y [y' [new2 [Q2 [Q3 G2]]]]]]].
  { subst pl2. now destruct init. }
  right. subst pl1 pl3.
  destruct (list_last_cases _ new) as [Hn|[new0 [z Hn]]]; subst new.
  - rewrite P2 in Q2. apply app_inj_tail in Q2 as [-> ->].
    exists init2, x, y', new2. eauto using grows_trans.
  - rewrite P2, app_comm_cons, app_assoc in Q2.
    apply app_inj_tail in Q2 as [<- <-].
    exists init, x, x', (new0 ++ y' :: new2).
    split; [reflexivity|]. split; [|exact G].
    now rewrite <- app_assoc.
Qed.

Lemma evolves_last (f : InstructionLogs -> InstructionLogs)
    (init : list InstructionLogs) (x : InstructionLogs) :
  (forall t, grows t (f t)) -> evolves (init ++ [x]) (init ++ [f x]).
Proof. intros H. right. exists init, x, (f x), []. auto. Qed.

Lemma evolves_open (pl : list InstructionLogs) (t : InstructionLogs) :
  evolves pl (pl ++ [t]).
Proof.
  destruct (list_last_cases _ pl) as [H|[init [x H]]]; [now left|right].
  exists init, x, x, [t]. subst pl. rewrite <- app_assoc.
  auto using grows_refl.
Qed.

Lemma grows_setTruncated (t : InstructionLogs) : grows t (setTruncated t).
Proof. repeat split; auto. exists []. simpl. now rewrite app_nil_r. Qed.

Lemma grows_setFailed (t : InstructionLogs) : grows t (setFailed t).
Proof. repeat split; auto. exists []. simpl. now rewrite app_nil_r. Qed.

Lemma grows_addUnits (n : number) (t : InstructionLogs) : grows t (addUnits n t).
Proof. repeat split; auto. exists []. simpl. now rewrite app_nil_r. Qed.

Lemma grows_pushLog (m : LogMessage) (t : InstructionLogs) : grows t (pushLog m t).
Proof. repeat split; auto. now exists [m]. Qed.

(* ================================================================== *)
(** ** Warning lines and the failed flag *)
(* ================================================================== *)

Lemma hasWarning_pushLog (m : LogMessage) (t : InstructionLogs) :
  hasWarning (pushLog m t) = hasWarning t || isWarning (style m).
Proof. unfold hasWarning. simpl. rewrite existsb_app. simpl. now rewrite orb_false_r. Qed.

Lemma unflagged_last (f : InstructionLogs -> InstructionLogs)
    (init : list InstructionLogs) (x : InstructionLogs) :
  (forall t, flagged t -> flagged (f t)) ->
  unflagged (init ++ [x]) (init ++ [f x]).
Proof.
  intros Hf H. apply Forall_app in H as [Hi Hx]. apply Forall_app.
  split; [exact Hi|]. inversion Hx; subst. auto.
Qed.

Lemma unflagged_open (pl : list InstructionLogs) (program : option jsstring) :
  unflagged pl (pl ++ [newTrace program false]).
Proof.
  intros H. apply Forall_app. split; [exact H|].
  constructor; [|constructor]. intros W. discriminate.
Qed.

Lemma flagged_pushLog (m : LogMessage) (t : InstructionLogs) :
  style m <> warning -> flagged t -> flagged (pushLog m t).
Proof.
  unfold flagged. intros Hs H. rewrite hasWarning_pushLog.
  destruct (style m); try contradiction; simpl; now rewrite orb_false_r.
Qed.

Lemma flagged_when_failed (m : LogMessage) (t : InstructionLogs) :
  flagged (pushLog m (setFailed t)).
Proof. intros _. reflexivity. Qed.

(* ================================================================== *)
(** ** The list of traces over a whole run *)
(* ================================================================== *)

Lemma same_number (e e' : Env) :
  units e' = units e -> length (prettyLogs e') = length (prettyLogs e).
Proof. unfold units. intros H. apply (f_equal (@length _)) in H. now rewrite !length_map in H. Qed.

Section Traces.

Variable Cluster : Type.
Variable TransactionError : Type.
Variable isTruthy : TransactionError -> bool.
Variable getTransactionInstructionError : TransactionError -> option ProgramError.
Variable getProgramName : jsstring -> Cluster -> jsstring.
Variable Buffer_from_base64 : jsstring -> list N.
Variable FillLog_render : list N -> option jsstring.
Variable cluster : Cluster.

Local Abbreviation line :=
  (onLine getProgramName Buffer_from_base64 FillLog_render cluster).
Local Abbreviation parse :=
  (parseProgramLogs isTruthy getTransactionInstructionError getProgramName
     Buffer_from_base64 FillLog_render cluster).
Local Abbreviation prettyError :=
  (prettyErrorOf isTruthy getTransactionInstructionError).
Local Abbreviation reached :=
  (history getProgramName Buffer_from_base64 FillLog_render cluster).

(** What a run of the whole function consists of. *)
Lemma parse_inv (lines : list jsstring) (error : option TransactionError)
    (res : list InstructionLogs) :
  parse lines error = Returns res ->
  exists e1 e2,
    forEach lines line initial = Returns (tt, e1)
    /\ postPass (prettyError error) e1 = Returns (tt, e2)
    /\ res = prettyLogs e2.
Proof.
  unfold parseProgramLogs, parseProgramLogsM. intros H.
  destruct (bind _ _ initial) as [[r ef]|] eqn:E; [|discriminate].
  inversion H; subst; clear H.
  apply bind_inv in E as [[] [e1 [H1 E]]].
  apply bind_inv in E as [[] [e2 [H2 E]]].
  inversion E; subst; clear E. now exists e1, ef.
Qed.

Lemma parse_run (lines : list jsstring) (error : option TransactionError)
    (e1 e2 : Env) :
  forEach lines line initial = Returns (tt, e1) ->
  postPass (prettyError error) e1 = Returns (tt, e2) ->
  parse lines error = Returns (prettyLogs e2).
Proof.
  intros H1 H2. unfold parseProgramLogs, parseProgramLogsM.
  rewrite (bind_run _ _ _ _ _ _ _ H1), (bind_run _ _ _ _ _ _ _ H2).
  reflexivity.
Qed.

Lemma parse_without_error (lines : list jsstring) (e1 : Env) :
  forEach lines line initial = Returns (tt, e1) ->
  parse lines None = Returns (prettyLogs e1).
Proof.
  intros H1. apply (parse_run lines None e1 e1 H1).
  destruct e1; reflexivity.
Qed.

(** After a first line that does not throw there is a trace. *)
Lemma loop_opens (l : jsstring) (rest : list jsstring) (e' : Env) :
  forEach (l :: rest) line initial = Returns (tt, e') -> prettyLogs e' <> [].
Proof.
  cbn [forEach]. intros H. apply bind_inv in H as [[] [e1 [H1 H]]].
  destruct (needsOpenTrace l) eqn:N.
  { rewrite (line_throws_when_empty _ getProgramName Buffer_from_base64
               FillLog_render cluster l initial eq_refl N) in H1. discriminate. }
  destruct (line_opens_at_zero _ getProgramName Buffer_from_base64
              FillLog_render cluster l initial eq_refl N) as [_ Hr].
  exact (proj2 (steady_loop _ getProgramName Buffer_from_base64 FillLog_render
                  cluster rest e1 (Hr _ _ H1)) _ _ H).
Qed.

(** The loop and the two steps after it let the traces evolve. *)
Lemma loop_evolves (lines : list jsstring) : relates evolves (forEach lines line).
Proof.
  apply (relates_loop _ getProgramName Buffer_from_base64 FillLog_render cluster
           evolves (fun f => forall t, grows t (f t)));
    auto using evolves_refl, evolves_last, evolves_open, grows_setTruncated,
      grows_addUnits, grows_pushLog.
  - exact evolves_trans.
  - intros log.
    apply (relates_onFailed evolves (fun f => forall t, grows t (f t)));
      auto using evolves_refl, evolves_last, grows_setFailed, grows_pushLog.
    exact evolves_trans.
Qed.

Lemma postPass_evolves (pe : option ProgramError) : relates evolves (postPass pe).
Proof.
  intros e [] e' H. destruct (postPass_cases pe e) as [e2 [E C]].
  rewrite E in H. inversion H; subst; clear H.
  destruct pe as [p|]; [|subst; apply evolves_refl].
  destruct C as [[C _]|[init [x [C [[_ C']|[_ [_ C']]]]]]].
  - now left.
  - rewrite C, C'. apply evolves_refl.
  - rewrite C, C'.
    apply (evolves_last (fun t => pushLog _ (setFailed t))). intros t.
    exact (grows_trans _ _ _ (grows_setFailed t) (grows_pushLog _ _)).
Qed.

(** X8. Processing more lines, and attributing an error, only lets
    the list of traces evolve: when the function returns on an input,
    it returns on every prefix of it (taken without error), and its
    result is that of the prefix in which the last trace has the same
    program, the same log lines followed by more, and the flags that
    were set still set, and after which traces may have been
    appended; every earlier trace is exactly as it was. *)
Theorem earlier_traces_are_final (lines more : list jsstring)
    (error : option TransactionError) (res : list InstructionLogs) :
  parse (lines ++ more) error = Returns res ->
  exists res0, parse lines None = Returns res0 /\ evolves res0 res.
Proof.
  intros H. apply parse_inv in H as [e2 [e3 [H [P ->]]]].
  rewrite forEach_app in H. apply bind_inv in H as [[] [e1 [H1 H2]]].
  exists (prettyLogs e1). split; [now apply parse_without_error|].
  apply (evolves_trans _ (prettyLogs e2)).
  - exact (loop_evolves more _ _ _ H2).
  - exact (postPass_evolves _ _ _ _ P).
Qed.

(** The number of traces along the loop. *)
Lemma other_count (log : jsstring) (e e' : Env) :
  onOther Buffer_from_base64 FillLog_render log e = Returns (tt, e') ->
  length (prettyLogs e')
  = (length (prettyLogs e) + (if (depth e =? 0)%Z then 1 else 0))%nat.
Proof.
  unfold onOther. intros H.
  apply bind_inv in H as [d [e0 [Hd H]]]. inversion Hd; subst; clear Hd.
  apply bind_inv in H as [[] [e1 [H1 H]]].
  apply bind_inv in H as [log' [e2 [H2 H]]].
  assert (Htail : units e' = units e2).
  { revert H. apply keeps_bind; [auto with units|]. intros _.
    apply keeps_bind; [auto with units|]. intros cp.
    apply keeps_if; [apply keeps_onProgramData|auto with units]. }
  apply replacePieces_units in H2 as [_ [Hl2 _]].
  rewrite (same_number _ _ Htail). unfold units in Hl2.
  rewrite !length_map in Hl2. rewrite Hl2.
  destruct (depth e0 =? 0).
  - apply bind_inv in H1 as [[] [e3 [H3 H1]]].
    inversion H3; subst; clear H3. inversion H1; subst; clear H1.
    simpl. now rewrite length_app.
  - inversion H1; subst. lia.
Qed.

Lemma line_count (log : jsstring) (e e' : Env) :
  line log e = Returns (tt, e') ->
  length (prettyLogs e')
  = (length (prettyLogs e) + (if opensTrace (e, log) then 1 else 0))%nat.
Proof.
  unfold opensTrace, reachesInvoke, reachesLastBranch, isProgramLog, hasInvoke.
  cbn [fst snd]. unfold onLine.
  destruct (startsWith log (lit "Program log:")).
  { intros H. rewrite (same_number _ _ (keeps_onProgramLog _ _ _ _ H)).
    rewrite andb_false_r. lia. }
  destruct (startsWith log (lit "Log truncated")).
  { intros H. rewrite (same_number _ _ (keeps_onTruncated _ _ _ H)).
    rewrite andb_false_r. lia. }
  cbv zeta. cbn [negb andb].
  destruct (0 <? length (matchAll reInvoke log))%nat.
  { intros H. apply onInvoke_units in H. unfold units in H.
    apply (f_equal (@length _)) in H. rewrite length_app, !length_map in H.
    rewrite H. cbn [negb andb orb]. rewrite andb_true_r.
    now destruct (depth e =? 0). }
  cbn [negb andb orb].
  destruct (includes log (lit "success")).
  { intros H. rewrite (same_number _ _ (keeps_onSuccess _ _ _ H)).
    rewrite andb_false_r. lia. }
  destruct (includes log (lit "failed")).
  { intros H. rewrite (same_number _ _ (keeps_onFailed _ _ _ _ H)).
    rewrite andb_false_r. lia. }
  cbn [negb andb]. rewrite andb_true_r. apply other_count.
Qed.

Lemma loop_count (lines : list jsstring) :
  forall e e',
    forEach lines line e = Returns (tt, e') ->
    length (prettyLogs e')
    = (length (prettyLogs e) + length (filter opensTrace (reached lines e)))%nat.
Proof.
  induction lines as [|l ls IH]; intros e e' H.
  - inversion H; subst. simpl. lia.
  - cbn [forEach] in H. apply bind_inv in H as [[] [e1 [H1 H]]].
    cbn [history filter]. rewrite H1, (IH _ _ H), (line_count _ _ _ H1).
    destruct (opensTrace (e, l)); simpl; lia.
Qed.

(** X9. The number of returned traces is the number of lines that
    were processed at depth 0 by the invocation rule or by the last
    branch; only when there is no line at all does an error
    descriptor add one trace. *)
Theorem trace_count (lines : list jsstring) (error : option TransactionError)
    (res : list InstructionLogs) :
  parse lines error = Returns res ->
  length res
  = (length (filter opensTrace (reached lines initial))
     + match lines, prettyError error with
       | [], Some _ => 1
       | _, _ => 0
       end)%nat.
Proof.
  intros H. apply parse_inv in H as [e1 [e2 [H [P ->]]]].
  pose proof (loop_count _ _ _ H) as L. cbn [prettyLogs initial length] in L.
  rewrite Nat.add_0_l in L. rewrite <- L.
  destruct (postPass_cases (prettyError error) e1) as [e3 [E C]].
  rewrite E in P. inversion P; subst e3; clear P.
  destruct (prettyError error) as [p|].
  - destruct C as [[C C']|[init [x [C C']]]].
    + rewrite C, C'. destruct lines as [|l rest]; [reflexivity|].
      now apply loop_opens in H.
    + assert (L2 : length (prettyLogs e2) = length (prettyLogs e1)).
      { destruct C' as [[_ C']|[_ [_ C']]]; rewrite C, C', !length_app;
          reflexivity. }
      rewrite L2. destruct lines as [|l rest]; [|lia].
      inversion H; subst. now destruct init.
  - subst e2. destruct lines; lia.
Qed.

(** X10. With a result whose last trace is [x], an error descriptor
    leaves the result as it is without error exactly when it names
    another instruction than the last trace or when the last trace is
    marked failed already: an error of an earlier or of a later
    instruction is attributed to no trace. *)
Theorem error_attributed_to_last_trace_only (lines : list jsstring)
    (error : option TransactionError) (pe : ProgramError)
    (init : list InstructionLogs) (x : InstructionLogs) :
  parse lines None = Returns (init ++ [x]) ->
  prettyError error = Some pe ->
  (parse lines error = Returns (init ++ [x])
   <-> index pe <> Z.of_nat (length init) \/ failed x = true).
Proof.
  intros H Hpe. apply parse_inv in H as [e1 [e2 [H [P R]]]].
  cbn in P. inversion P; subst e2; clear P.
  destruct (postPass_cases (prettyError error) e1) as [e3 [E C]].
  rewrite (parse_run _ _ _ _ H E). rewrite Hpe in C.
  assert (Hlast : Z.of_nat (length (prettyLogs e1)) - 1 = Z.of_nat (length init)).
  { rewrite <- R, length_app. simpl. lia. }
  destruct C as [[C _]|[init' [x' [C C']]]].
  { rewrite C in R. now destruct init. }
  rewrite C in R. apply app_inj_tail in R as [-> ->].
  rewrite Hlast in C'.
  destruct C' as [[Hc C']|[Hi [Hf C']]]; rewrite C'.
  - split; auto.
  - split.
    + intros Heq. inversion Heq as [Heq']. apply app_inv_head in Heq'.
      inversion Heq' as [Heq'']. apply (f_equal failed) in Heq''.
      simpl in Heq''. congruence.
    + intros [Hc|Hc]; congruence.
Qed.

(** The failure rule marks the trace failed before it appends the
    warning line. *)
Lemma unflagged_onFailed (log : jsstring) : relates unflagged (onFailed log).
Proof.
  intros e [] e' H. unfold onFailed in H. cbv zeta in H.
  apply bind_inv in H as [[] [e1 [H1 H]]].
  apply bind_inv in H as [[] [e2 [H2 H]]].
  apply bind_inv in H as [txt [e3 [H3 H]]].
  apply bind_inv in H as [[] [e4 [H4 H]]].
  assert (P1 : prettyLogs e1 = prettyLogs e) by now inversion H1.
  assert (P5 : prettyLogs e' = prettyLogs e4) by now inversion H.
  destruct (list_last_cases _ (prettyLogs e1)) as [Hn|[init [x Hx]]].
  { rewrite (modifyLast_throw _ _ Hn) in H2. discriminate. }
  rewrite (modifyLast_run _ _ _ _ Hx) in H2. inversion H2; subst e2; clear H2.
  assert (P3 : prettyLogs e3 = init ++ [setFailed x]).
  { destruct (startsWith log (lit "failed")); now inversion H3. }
  rewrite (pushToLast_run _ _ _ _ _ P3) in H4. inversion H4; subst e4; clear H4.
  rewrite P5, <- P1, Hx. cbn [prettyLogs].
  intros F. apply Forall_app in F as [Fi _]. apply Forall_app.
  split; [exact Fi|]. constructor; [apply flagged_when_failed|constructor].
Qed.

Lemma loop_unflagged (lines : list jsstring) : relates unflagged (forEach lines line).
Proof.
  apply (relates_loop _ getProgramName Buffer_from_base64 FillLog_render cluster
           unflagged (fun f => forall t, flagged t -> flagged (f t)));
    auto using unflagged_last, unflagged_open, flagged_pushLog, unflagged_onFailed.
  - now intros pl.
  - intros pl1 pl2 pl3 H1 H2 F. auto.
Qed.

(** X11. In every returned trace a warning line comes with the failed
    flag: no trace that is not marked failed holds a warning line. *)
Theorem warning_lines_only_in_failed_traces (lines : list jsstring)
    (error : option TransactionError) (res : list InstructionLogs) :
  parse lines error = Returns res ->
  forall t m, In t res -> In m (logs t) -> style m = warning -> failed t = true.
Proof.
  intros H. apply parse_inv in H as [e1 [e2 [H [P ->]]]].
  assert (F1 : Forall flagged (prettyLogs e1)).
  { apply (loop_unflagged lines _ _ _ H). constructor. }
  assert (F2 : Forall flagged (prettyLogs e2)).
  { destruct (postPass_cases (prettyError error) e1) as [e3 [E C]].
    rewrite E in P. inversion P; subst e3; clear P.
    destruct (prettyError error) as [p|]; [|now subst].
    destruct C as [[_ C']|[init [x [C [[_ C']|[_ [_ C']]]]]]]; rewrite C'.
    - constructor; [|constructor]. intros W. reflexivity.
    - now rewrite <- C.
    - rewrite C in F1. apply Forall_app in F1 as [Fi _]. apply Forall_app.
      split; [exact Fi|]. constructor; [apply flagged_when_failed|constructor]. }
  intros t m Ht Hm Hs. rewrite Forall_forall in F2. apply (F2 t Ht).
  unfold hasWarning. apply existsb_exists. exists m. split; [exact Hm|].
  now rewrite Hs.
Qed.

End Traces.

(* ================================================================== *)
(** ** Where the exception of the deserializer comes from *)
(* ================================================================== *)

Create HintDb calm.

Lemma calm_ret (A : Type) (a : A) : calm (ret a).
Proof. intros e. discriminate. Qed.

Lemma calm_type_error (A : Type) : calm (@throw A TypeError).
Proof. intros e. discriminate. Qed.

Lemma calm_bind (A B : Type) (m : M A) (f : A -> M B) :
  calm m -> (forall a, calm (f a)) -> calm (bind m f).
Proof.
  intros Hm Hf e. unfold bind. specialize (Hm e).
  destruct (m e) as [[a e1]|x]; [apply Hf|].
  intros H. apply Hm. now inversion H.
Qed.

Lemma calm_if (A : Type) (c : bool) (m1 m2 : M A) :
  calm m1 -> calm m2 -> calm (if c then m1 else m2).
Proof. now destruct c. Qed.

Lemma calm_getDepth : calm getDepth.
Proof. intros e. discriminate. Qed.

Lemma calm_setDepth (d : Z) : calm (setDepth d).
Proof. intros e. discriminate. Qed.

Lemma calm_getPrettyLogs : calm getPrettyLogs.
Proof. intros e. discriminate. Qed.

Lemma calm_setPrettyLogs (pl : list InstructionLogs) : calm (setPrettyLogs pl).
Proof. intros e. discriminate. Qed.

Lemma calm_getCurrentProgram : calm getCurrentProgram.
Proof. intros e. discriminate. Qed.

Lemma calm_setCurrentProgram (l : list jsstring) : calm (setCurrentProgram l).
Proof. intros e. discriminate. Qed.

Lemma calm_prefixBuilder (level : Z) : calm (prefixBuilder level).
Proof. intros e. rewrite prefixBuilder_run. discriminate. Qed.

Lemma calm_lastTrace : calm lastTrace.
Proof.
  intros e. destruct (list_last_cases _ (prettyLogs e)) as [H|[init [x H]]].
  - rewrite (lastTrace_throw _ H). discriminate.
  - rewrite (lastTrace_run _ _ _ H). discriminate.
Qed.

Lemma calm_modifyLast (f : InstructionLogs -> InstructionLogs) : calm (modifyLast f).
Proof.
  intros e. destruct (list_last_cases _ (prettyLogs e)) as [H|[init [x H]]].
  - rewrite (modifyLast_throw _ _ H). discriminate.
  - rewrite (modifyLast_run _ _ _ _ H). discriminate.
Qed.

#[export] Hint Resolve calm_ret calm_type_error calm_bind calm_if calm_getDepth
  calm_setDepth calm_getPrettyLogs calm_setPrettyLogs calm_getCurrentProgram
  calm_setCurrentProgram calm_prefixBuilder calm_lastTrace calm_modifyLast : calm.

Lemma calm_pushToLast (sty : Style) (txt : jsstring) : calm (pushToLast sty txt).
Proof. unfold pushToLast. auto 8 with calm. Qed.

Lemma calm_consumedCallback (m : Match) : calm (consumedCallback m).
Proof. unfold consumedCallback. auto 8 with calm. Qed.

Lemma calm_replacePieces (f : Match -> M jsstring) (ps : list piece) :
  (forall m, calm (f m)) -> calm (replacePieces ps f).
Proof. intros Hf. induction ps as [|[c|m] ps IH]; simpl; auto 6 with calm. Qed.

#[export] Hint Resolve calm_pushToLast calm_consumedCallback
  calm_replacePieces : calm.

Lemma calm_onProgramLog (log : jsstring) : calm (onProgramLog log).
Proof. unfold onProgramLog, replace. auto 6 with calm. Qed.

Lemma calm_onTruncated : calm onTruncated.
Proof. unfold onTruncated. auto with calm. Qed.

Lemma calm_onSuccess : calm onSuccess.
Proof. unfold onSuccess, popProgram, decDepth. auto 10 with calm. Qed.

Lemma calm_onFailed (log : jsstring) : calm (onFailed log).
Proof. unfold onFailed, popProgram, incDepth, decDepth. cbv zeta. auto 12 with calm. Qed.

Lemma calm_onInvoke (Cluster : Type) (getProgramName : jsstring -> Cluster -> jsstring)
    (cluster : Cluster) (matches : list Match) :
  calm (onInvoke getProgramName cluster matches).
Proof.
  unfold onInvoke, pushProgram, pushTrace, incDepth. cbv zeta. auto 12 with calm.
Qed.

(** A throwing sequence throws in its first part or, after it
    returned, in its second part. *)
Lemma bind_throws (A B : Type) (m : M A) (f : A -> M B) (e : Env) (x : exn) :
  bind m f e = Throws x ->
  m e = Throws x \/ exists a e1, m e = Returns (a, e1) /\ f a e1 = Throws x.
Proof.
  unfold bind. destruct (m e) as [[a e1]|y]; [eauto|].
  intros H. inversion H. now left.
Qed.

(** The steps of the last branch before the test of the invocation
    stack leave the stack alone. *)
Lemma consumedCallback_stack (m : Match) (e e' : Env) (out : jsstring) :
  consumedCallback m e = Returns (out, e') -> currentProgram e' = currentProgram e.
Proof.
  unfold consumedCallback. intros H.
  apply bind_inv in H as [d [e0 [Hd H]]]. inversion Hd; subst; clear Hd.
  apply bind_inv in H as [[] [e2 [Hm H]]]. inversion H; subst; clear H.
  destruct (depth e0 =? 1); [|now inversion Hm].
  destruct (list_last_cases _ (prettyLogs e0)) as [Hn|[init [x Hx]]].
  - rewrite (modifyLast_throw _ _ Hn) in Hm. discriminate.
  - rewrite (modifyLast_run _ _ _ _ Hx) in Hm. now inversion Hm.
Qed.

Lemma replacePieces_stack (ps : list piece) :
  forall (e e' : Env) (out : jsstring),
    replacePieces ps consumedCallback e = Returns (out, e') ->
    currentProgram e' = currentProgram e.
Proof.
  induction ps as [|[c|m] ps IH]; intros e e' out H; simpl in H.
  - now inversion H.
  - apply bind_inv in H as [out1 [e1 [H1 H]]]. inversion H; subst. eauto.
  - apply bind_inv in H as [rep [e1 [Hm H]]].
    apply bind_inv in H as [out1 [e2 [H1 H]]]. inversion H; subst.
    rewrite (IH _ _ _ H1). exact (consumedCallback_stack _ _ _ _ Hm).
Qed.

Lemma pushToLast_stack (sty : Style) (txt : jsstring) (e e' : Env) :
  pushToLast sty txt e = Returns (tt, e') -> currentProgram e' = currentProgram e.
Proof.
  intros H. destruct (list_last_cases _ (prettyLogs e)) as [Hn|[init [x Hx]]].
  - rewrite (pushToLast_throw _ _ _ Hn) in H. discriminate.
  - rewrite (pushToLast_run _ _ _ _ _ Hx) in H. now inversion H.
Qed.

Section Decoding.

Variable Cluster : Type.
Variable TransactionError : Type.
Variable isTruthy : TransactionError -> bool.
Variable getTransactionInstructionError : TransactionError -> option ProgramError.
Variable getProgramName : jsstring -> Cluster -> jsstring.
Variable Buffer_from_base64 : jsstring -> list N.
Variable FillLog_render : list N -> option jsstring.
Variable cluster : Cluster.

Local Abbreviation line :=
  (onLine getProgramName Buffer_from_base64 FillLog_render cluster).
Local Abbreviation parse :=
  (parseProgramLogs isTruthy getTransactionInstructionError getProgramName
     Buffer_from_base64 FillLog_render cluster).
Local Abbreviation reached :=
  (history getProgramName Buffer_from_base64 FillLog_render cluster).

Lemma other_decode_error (log : jsstring) (e : Env) :
  onOther Buffer_from_base64 FillLog_render log e = Throws DecodeError ->
  topIs (currentProgram e) manifestProgram = true
  /\ exists payload, FillLog_render payload = None.
Proof.
  unfold onOther. intros H.
  apply bind_throws in H as [H|[d [e0 [Hd H]]]]; [discriminate|].
  inversion Hd; subst; clear Hd.
  apply bind_throws in H as [H|[[] [e1 [H1 H]]]].
  { destruct (depth e0 =? 0); discriminate. }
  assert (S1 : currentProgram e1 = currentProgram e0).
  { destruct (depth e0 =? 0); now inversion H1. }
  apply bind_throws in H as [H|[log' [e2 [H2 H]]]].
  { now apply calm_replacePieces in H; [|apply calm_consumedCallback]. }
  apply replacePieces_stack in H2.
  apply bind_throws in H as [H|[[] [e3 [H3 H]]]].
  { now apply calm_pushToLast in H. }
  apply pushToLast_stack in H3.
  apply bind_throws in H as [H|[cp [e4 [H4 H]]]]; [discriminate|].
  inversion H4; subst; clear H4.
  destruct (includes log' (lit "Program data: ")); [|discriminate].
  destruct (topIs (currentProgram e4) manifestProgram) eqn:T; [|discriminate].
  split; [congruence|].
  unfold onProgramData in H. cbv zeta in H. cbn [andb] in H.
  destruct (isEqualBytes _ _); [|discriminate].
  destruct (FillLog_render _) eqn:F; [|eauto].
  now apply calm_pushToLast in H.
Qed.

Lemma line_decode_error (log : jsstring) (e : Env) :
  line log e = Throws DecodeError ->
  reachesLastBranch log = true
  /\ topIs (currentProgram e) manifestProgram = true
  /\ exists payload, FillLog_render payload = None.
Proof.
  unfold reachesLastBranch, isProgramLog, hasInvoke, onLine.
  destruct (startsWith log (lit "Program log:")).
  { intros H. now apply calm_onProgramLog in H. }
  destruct (startsWith log (lit "Log truncated")).
  { intros H. now apply calm_onTruncated in H. }
  cbv zeta.
  destruct (0 <? length (matchAll reInvoke log))%nat.
  { intros H. now apply calm_onInvoke in H. }
  destruct (includes log (lit "success")).
  { intros H. now apply calm_onSuccess in H. }
  destruct (includes log (lit "failed")).
  { intros H. now apply calm_onFailed in H. }
  intros H. split; [reflexivity|]. now apply other_decode_error in H.
Qed.

(** A loop that throws has reached the line that throws. *)
Lemma loop_throws (lines : list jsstring) (x : exn) :
  forall e,
    forEach lines line e = Throws x ->
    exists e' l, In (e', l) (reached lines e) /\ line l e' = Throws x.
Proof.
  induction lines as [|l ls IH]; intros e H; [discriminate|].
  cbn [forEach] in H. cbn [history].
  apply bind_throws in H as [H|[[] [e1 [H1 H]]]].
  - exists e, l. split; [now left|exact H].
  - rewrite H1. destruct (IH _ H) as [e' [l' [Hin Hl]]].
    exists e', l'. split; [now right|exact Hl].
Qed.

(** X12. The exception of the record deserializer escapes from one
    place only: when the function throws it, the loop has reached a
    line of the last branch while the manifest program was on top of
    the invocation stack, that line is the one that throws, and the
    deserializer fails on some payload. *)
Theorem decode_error_origin (lines : list jsstring)
    (error : option TransactionError) :
  parse lines error = Throws DecodeError ->
  exists e l,
    In (e, l) (reached lines initial)
    /\ line l e = Throws DecodeError
    /\ reachesLastBranch l = true
    /\ topIs (currentProgram e) manifestProgram = true
    /\ exists payload, FillLog_render payload = None.
Proof.
  unfold parseProgramLogs, parseProgramLogsM. intros H.
  destruct (bind _ _ initial) as [[r ef]|x] eqn:E; [discriminate|].
  inversion H; subst x; clear H.
  apply bind_throws in E as [E|[[] [e1 [H1 E]]]].
  - destruct (loop_throws _ _ _ E) as [e [l [Hin Hl]]].
    exists e, l. split; [exact Hin|]. split; [exact Hl|].
    now apply line_decode_error.
  - destruct (postPass_returns (prettyErrorOf isTruthy getTransactionInstructionError error) e1)
      as [e2 [P _]].
    rewrite (bind_run _ _ _ _ _ _ _ P) in E. discriminate.
Qed.

End Decoding.

(* ================================================================== *)
(** ** The further properties on concrete inputs *)
(* ================================================================== *)

(** An invocation of program B at the top level and inside the trace
    of program A. *)
Lemma invocation_rule_witness :
  let l := invokeLine (lit "B") (lit "2") in
  (forallb isWord (lit "B") = true /\ isDigit 50 = true
   /\ depth initial = 0 /\ depth Sample.insideA <> 0
   /\ prettyLogs Sample.insideA = [] ++ [Sample.traceA])
  /\ Sample.line l initial
     = Returns (tt,
         {| depth := 1;
            prettyLogs :=
              [{| invokedProgram := Some (lit "B"); logs := [];
                  computeUnits := Int 0; truncated := false; failed := false |}];
            currentProgram := [lit "B"]; console := [] |})
  /\ Sample.line l Sample.insideA
     = Returns (tt,
         {| depth := 2;
            prettyLogs :=
              [{| invokedProgram := Some (lit "A");
                  logs := [{| text := lit "Program invoked: B";
                              prefix := lit "> "; style := info |}];
                  computeUnits := Int 0; truncated := false; failed := false |}];
            currentProgram := [lit "A"; lit "B"]; console := [] |}).
Proof.
  intros l.
  assert (Hd : depth Sample.insideA <> 0) by discriminate.
  split; [repeat split; solve [assumption | reflexivity]|].
  split.
  - exact (proj1 (invocation_rule Sample.Cluster Sample.getProgramName
                    Sample.Buffer_from_base64 Sample.FillLog_render tt
                    (lit "B") 50%N initial eq_refl eq_refl) eq_refl).
  - exact (proj1 (proj2 (invocation_rule Sample.Cluster Sample.getProgramName
                           Sample.Buffer_from_base64 Sample.FillLog_render tt
                           (lit "B") 50%N Sample.insideA eq_refl eq_refl))
             [] Sample.traceA Hd eq_refl).
Defined.

(** The return of program A, on a line that also includes "failed". *)
Lemma success_rule_witness :
  let l := lit "Program A success after 2 failed attempts" in
  (isProgramLog l = false /\ startsWith l (lit "Log truncated") = false
   /\ hasInvoke l = false /\ includes l (lit "success") = true
   /\ includes l (lit "failed") = true
   /\ prettyLogs Sample.insideA = [] ++ [Sample.traceA])
  /\ Sample.line l Sample.insideA
     = Returns (tt,
         {| depth := 0;
            prettyLogs :=
              [{| invokedProgram := Some (lit "A");
                  logs := [{| text := lit "Program returned success";
                              prefix := lit "> "; style := success |}];
                  computeUnits := Int 0; truncated := false; failed := false |}];
            currentProgram := []; console := [] |}).
Proof.
  intros l. split; [repeat split|].
  exact (success_rule Sample.Cluster Sample.getProgramName
           Sample.Buffer_from_base64 Sample.FillLog_render tt
           l Sample.insideA [] Sample.traceA
           eq_refl eq_refl eq_refl eq_refl eq_refl).
Defined.

(** The consumption of program A, reported at the top level and inside
    its trace. *)
Lemma consumption_rule_witness :
  let rest := lit "of 200000 compute units" in
  let l := consumedLine (lit "A") (lit "100") rest in
  (forallb isWord (lit "A") = true /\ forallb isDigit (lit "100") = true
   /\ forallb isDot rest = true /\ reachesLastBranch l = true
   /\ topIs (currentProgram initial) manifestProgram = false
   /\ topIs (currentProgram Sample.insideA) manifestProgram = false
   /\ depth initial = 0 /\ depth Sample.insideA <> 0
   /\ prettyLogs Sample.insideA = [] ++ [Sample.traceA])
  /\ Sample.line l initial
     = Returns (tt,
         {| depth := 1;
            prettyLogs :=
              [{| invokedProgram := None;
                  logs := [{| text := lit "Program consumed: 100 of 200000 compute units";
                              prefix := lit "> "; style := muted |}];
                  computeUnits := Int 100; truncated := false; failed := false |}];
            currentProgram := []; console := [] |})
  /\ Sample.line l Sample.insideA
     = Returns (tt,
         {| depth := 1;
            prettyLogs :=
              [{| invokedProgram := Some (lit "A");
                  logs := [{| text := lit "Program consumed: 100 of 200000 compute units";
                              prefix := lit "> "; style := muted |}];
                  computeUnits := Int 100; truncated := false; failed := false |}];
            currentProgram := [lit "A"]; console := [] |}).
Proof.
  intros rest l.
  assert (Hd : depth Sample.insideA <> 0) by discriminate.
  split; [repeat split; solve [assumption | reflexivity]|].
  split.
  - exact (proj1 (consumption_rule Sample.Cluster Sample.getProgramName
                    Sample.Buffer_from_base64 Sample.FillLog_render tt
                    (lit "A") (lit "100") rest initial
                    eq_refl eq_refl eq_refl eq_refl eq_refl) eq_refl).
  - exact (proj2 (consumption_rule Sample.Cluster Sample.getProgramName
                    Sample.Buffer_from_base64 Sample.FillLog_render tt
                    (lit "A") (lit "100") rest Sample.insideA
                    eq_refl eq_refl eq_refl eq_refl eq_refl)
             [] Sample.traceA Hd eq_refl).
Defined.

(** A fill record inside the manifest program: decoded where every
    record decodes, left alone where the bytes are no fill record. *)
Lemma fill_record_rule_witness :
  let l := lit "Program data: OubyA0txBKk=" in
  let verbatim := {| text := l; prefix := lit "> "; style := muted |} in
  (reachesLastBranch l = true /\ hasConsumed l = false
   /\ includes l (lit "Program data: ") = true
   /\ currentProgram Fills.insideM = [] ++ [manifestProgram]
   /\ depth Fills.insideM <> 0
   /\ prettyLogs Fills.insideM = [] ++ [Fills.traceM]
   /\ firstn 8 (Fills.Buffer_from_base64 (substring l 14)) = fillLogPrefix
   /\ Fills.FillLog_render (skipn 8 (Fills.Buffer_from_base64 (substring l 14)))
      = Some (lit "{}")
   /\ firstn 8 (Sample.Buffer_from_base64 (substring l 14)) <> fillLogPrefix)
  /\ Fills.line l Fills.insideM
     = Returns (tt,
         {| depth := 1;
            prettyLogs :=
              [{| invokedProgram := Some manifestProgram;
                  logs := [verbatim;
                           {| text := lit "MFX Fill Log: " ++ newline ++ lit "{}";
                              prefix := lit "> "; style := muted |}];
                  computeUnits := Int 0; truncated := false; failed := false |}];
            currentProgram := [manifestProgram]; console := [] |})
  /\ Sample.line l Fills.insideM
     = Returns (tt,
         {| depth := 1;
            prettyLogs :=
              [{| invokedProgram := Some manifestProgram;
                  logs := [verbatim];
                  computeUnits := Int 0; truncated := false; failed := false |}];
            currentProgram := [manifestProgram]; console := [] |}).
Proof.
  intros l verbatim.
  assert (Hd : depth Fills.insideM <> 0) by discriminate.
  assert (Hn : firstn 8 (Sample.Buffer_from_base64 (substring l 14)) <> fillLogPrefix)
    by discriminate.
  split; [repeat split; solve [assumption | reflexivity]|].
  split.
  - exact (proj1 (proj2 (fill_record_rule Sample.Cluster Sample.getProgramName
                           Fills.Buffer_from_base64 Fills.FillLog_render tt
                           l Fills.insideM [] [] Fills.traceM
                           eq_refl eq_refl eq_refl eq_refl Hd eq_refl))
             (lit "{}") eq_refl eq_refl).
  - exact (proj1 (fill_record_rule Sample.Cluster Sample.getProgramName
                    Sample.Buffer_from_base64 Sample.FillLog_render tt
                    l Fills.insideM [] [] Fills.traceM
                    eq_refl eq_refl eq_refl eq_refl Hd eq_refl) Hn).
Defined.

(** The nested invocation, cut after its second line. *)
Lemma earlier_traces_are_final_witness :
  let lines := firstn 2 Sample.nested in
  let more := skipn 2 Sample.nested in
  Sample.parse (lines ++ more) None = Returns Sample.nestedResult
  /\ exists res0,
       Sample.parse lines None = Returns res0 /\ evolves res0 Sample.nestedResult.
Proof.
  intros lines more.
  assert (H : Sample.parse (lines ++ more) None = Returns Sample.nestedResult)
    by (vm_compute; reflexivity).
  split; [exact H|].
  exact (earlier_traces_are_final Sample.Cluster Sample.TransactionError
           Sample.isTruthy Sample.classify Sample.getProgramName
           Sample.Buffer_from_base64 Sample.FillLog_render tt
           lines more None Sample.nestedResult H).
Defined.

(** The nested invocation: one line opens a trace. *)
Lemma trace_count_witness :
  Sample.parse Sample.nested None = Returns Sample.nestedResult
  /\ length Sample.nestedResult
     = (length (filter opensTrace (Sample.states Sample.nested initial)) + 0)%nat.
Proof.
  assert (H : Sample.parse Sample.nested None = Returns Sample.nestedResult)
    by (vm_compute; reflexivity).
  split; [exact H|].
  exact (trace_count Sample.Cluster Sample.TransactionError
           Sample.isTruthy Sample.classify Sample.getProgramName
           Sample.Buffer_from_base64 Sample.FillLog_render tt
           Sample.nested None Sample.nestedResult H).
Defined.

(** Two instructions and an error of the first one: the error names
    index 0, the last trace has index 1, and the result is the one
    without error. *)
Lemma error_attributed_to_last_trace_only_witness :
  let lines := [lit "Program A invoke [1]"; lit "Program A success";
                lit "Program B invoke [1]"; lit "Program B success"] in
  let returned (a : jsstring) :=
    {| invokedProgram := Some a;
       logs := [{| text := lit "Program returned success";
                   prefix := lit "> "; style := success |}];
       computeUnits := Int 0; truncated := false; failed := false |} in
  let pe := {| index := 0; message := lit "custom program error: 0x1" |} in
  (Sample.parse lines None = Returns ([returned (lit "A")] ++ [returned (lit "B")])
   /\ prettyErrorOf Sample.isTruthy Sample.classify (Some tt) = Some pe
   /\ index pe <> Z.of_nat (length [returned (lit "A")]))
  /\ Sample.parse lines (Some tt)
     = Returns ([returned (lit "A")] ++ [returned (lit "B")]).
Proof.
  intros lines returned pe.
  assert (H : Sample.parse lines None
              = Returns ([returned (lit "A")] ++ [returned (lit "B")]))
    by (vm_compute; reflexivity).
  assert (Hi : index pe <> Z.of_nat (length [returned (lit "A")])) by discriminate.
  split; [repeat split; solve [assumption | reflexivity]|].
  exact (proj2 (error_attributed_to_last_trace_only Sample.Cluster
                  Sample.TransactionError Sample.isTruthy Sample.classify
                  Sample.getProgramName Sample.Buffer_from_base64
                  Sample.FillLog_render tt
                  lines (Some tt) pe [returned (lit "A")] (returned (lit "B"))
                  H eq_refl)
           (or_introl Hi)).
Defined.

(** A failed instruction: its trace holds a warning line and is marked
    failed. *)
Lemma warning_lines_only_in_failed_traces_witness :
  let lines := [lit "Program A invoke [1]";
                lit "Program A failed: custom program error: 0x1"] in
  let res :=
    [{| invokedProgram := Some (lit "A");
        logs := [{| text := lit "Program returned error: " ++ quote
                              ++ lit "custom program error: 0x1" ++ quote;
                    prefix := lit "> "; style := warning |}];
        computeUnits := Int 0; truncated := false; failed := true |}] in
  Sample.parse lines None = Returns res
  /\ forall t m, In t res -> In m (logs t) -> style m = warning -> failed t = true.
Proof.
  intros lines res.
  assert (H : Sample.parse lines None = Returns res) by (vm_compute; reflexivity).
  split; [exact H|].
  exact (warning_lines_only_in_failed_traces Sample.Cluster
           Sample.TransactionError Sample.isTruthy Sample.classify
           Sample.getProgramName Sample.Buffer_from_base64
           Sample.FillLog_render tt lines None res H).
Defined.

(** A fill record with the discriminator, inside the manifest program,
    where the deserializer fails. *)
Lemma decode_error_origin_witness :
  let lines := [invokeLine manifestProgram (lit "1");
                lit "Program data: OubyA0txBKk="] in
  parseProgramLogs Sample.isTruthy Sample.classify Sample.getProgramName
    Fills.Buffer_from_base64 Sample.FillLog_render tt lines None
  = Throws DecodeError
  /\ exists e l,
       In (e, l) (history Sample.getProgramName Fills.Buffer_from_base64
                    Sample.FillLog_render tt lines initial)
       /\ onLine Sample.getProgramName Fills.Buffer_from_base64
            Sample.FillLog_render tt l e = Throws DecodeError
       /\ reachesLastBranch l = true
       /\ topIs (currentProgram e) manifestProgram = true
       /\ exists payload, Sample.FillLog_render payload = None.
Proof.
  intros lines.
  assert (H : parseProgramLogs Sample.isTruthy Sample.classify
                Sample.getProgramName Fills.Buffer_from_base64
                Sample.FillLog_render tt lines None = Throws DecodeError)
    by (vm_compute; reflexivity).
  split; [exact H|].
  exact (decode_error_origin Sample.Cluster Sample.TransactionError
           Sample.isTruthy Sample.classify Sample.getProgramName
           Fills.Buffer_from_base64 Sample.FillLog_render tt lines None H).
Defined.
